(** * omnivault-onepassword: path grammar, identifier resolution, record
      conversion, error normalisation and the provider operations.

    A shallow embedding of the Go package [onepassword].  Go strings are
    byte strings and are modelled by [string]; the backend SDK client is an
    abstract stateful collaborator ([op.Client]); every call made on it is
    recorded in a call log so that statements about "contacting the backend"
    can be made. *)

From Stdlib Require Import ZArith Ascii String List Lia Permutation.
From stdpp Require Import base option gmap strings list fin_maps pretty.

Local Open Scope string_scope.
Local Open Scope list_scope.

(** ** Go's [strings] package, on byte strings *)

Module strings.

(** [strings.HasPrefix(s, prefix)] *)
Fixpoint HasPrefix (s pre : string) {struct pre} : bool :=
  match pre with
  | EmptyString => true
  | String a pre' =>
      match s with
      | EmptyString => false
      | String b s' => Ascii.eqb a b && HasPrefix s' pre'
      end
  end.

(** [strings.TrimPrefix(s, prefix)] *)
Fixpoint dropPrefix (s pre : string) {struct pre} : string :=
  match pre, s with
  | String _ pre', String _ s' => dropPrefix s' pre'
  | _, _ => s
  end.

Definition TrimPrefix (s pre : string) : string :=
  if HasPrefix s pre then dropPrefix s pre else s.

(** [strings.Split(s, sep)] for a separator of one byte: the pieces
    between the occurrences of [sep]; one more piece than occurrences. *)
Fixpoint Split (s : string) (sep : ascii) : list string :=
  match s with
  | EmptyString => [EmptyString]
  | String c s' =>
      if Ascii.eqb c sep then EmptyString :: Split s' sep
      else match Split s' sep with
           | [] => [String c EmptyString]
           | piece :: rest => String c piece :: rest
           end
  end.

(** [strings.SplitN(s, sep, 2)] for a separator of one byte: split at the
    first occurrence only. *)
Fixpoint SplitN2 (s : string) (sep : ascii) : list string :=
  match s with
  | EmptyString => [EmptyString]
  | String c s' =>
      if Ascii.eqb c sep then [EmptyString; s']
      else match SplitN2 s' sep with
           | [] => [String c EmptyString]
           | piece :: rest => String c piece :: rest
           end
  end.

(** [strings.Join(parts, sep)] *)
Fixpoint Join (parts : list string) (sep : string) : string :=
  match parts with
  | [] => EmptyString
  | [x] => x
  | x :: rest => x ++ sep ++ Join rest sep
  end.

(** [strings.Contains(s, substr)] *)
Fixpoint Contains (s substr : string) : bool :=
  HasPrefix s substr ||
  match s with
  | EmptyString => false
  | String _ s' => Contains s' substr
  end.

(** Lower-casing of one byte of the ASCII range; bytes outside [A-Z]
    are kept. *)
Definition lowerByte (c : ascii) : ascii :=
  let n := nat_of_ascii c in
  if (65 <=? n)%nat && (n <=? 90)%nat then ascii_of_nat (n + 32) else c.

(** The test [strings.ToLower] starts with: no byte of the string is
    [utf8.RuneSelf] (128) or more. *)
Fixpoint isASCII (s : string) : bool :=
  match s with
  | EmptyString => true
  | String c s' => (nat_of_ascii c <? 128)%nat && isASCII s'
  end.

(** [strings.ToLower(s)] as it works on ASCII text: the bytes [A-Z] are
    mapped to [a-z] and every other byte is kept as it is.  On a string
    with a byte of 128 or more the Go function lower-cases by Unicode code
    point instead (the Kelvin sign becomes [k], the dotted capital I becomes
    [i]), which this byte-wise function does not follow: what is stated
    below about the letters that a lower-cased text does not contain is
    stated for text satisfying [isASCII]. *)
Fixpoint ToLower (s : string) : string :=
  match s with
  | EmptyString => EmptyString
  | String c s' => String (lowerByte c) (ToLower s')
  end.

(** [strings.ReplaceAll(s, old, new)] for [old] and [new] of one byte. *)
Fixpoint ReplaceAll (s : string) (old new : ascii) : string :=
  match s with
  | EmptyString => EmptyString
  | String c s' =>
      String (if Ascii.eqb c old then new else c) (ReplaceAll s' old new)
  end.

Fixpoint TrimLeft (s : string) (cut : ascii) : string :=
  match s with
  | EmptyString => EmptyString
  | String c s' => if Ascii.eqb c cut then TrimLeft s' cut else s
  end.

Fixpoint TrimRight (s : string) (cut : ascii) : string :=
  match s with
  | EmptyString => EmptyString
  | String c s' =>
      match TrimRight s' cut with
      | EmptyString => if Ascii.eqb c cut then EmptyString else String c EmptyString
      | t => String c t
      end
  end.

(** [strings.Trim(s, cutset)] for a cutset of one byte. *)
Definition Trim (s : string) (cut : ascii) : string :=
  TrimRight (TrimLeft s cut) cut.

(** Keep the bytes satisfying [keep] (a [strings.Builder] loop). *)
Fixpoint filterBytes (keep : ascii -> bool) (s : string) : string :=
  match s with
  | EmptyString => EmptyString
  | String c s' =>
      if keep c then String c (filterBytes keep s') else filterBytes keep s'
  end.

End strings.

(** A byte of the string that is the separator. *)
Fixpoint hasByte (c : ascii) (s : string) : bool :=
  match s with
  | EmptyString => false
  | String b s' => Ascii.eqb b c || hasByte c s'
  end.

Definition slash : ascii := "/"%char.

(** ** Results and errors *)

Inductive result (A E : Type) : Type :=
| Ok (a : A)
| Err (e : E).
Arguments Ok {A E} a.
Arguments Err {A E} e.

(** An error the adapter knows only through its [Error()] text: the errors
    of the backend SDK and those made with [fmt.Errorf] / [errors.New]. *)
Record error := errorString { Error : string }.

(** ** The [vault] package of OmniVault, as far as the adapter uses it *)

Module vault.

(** What a [VaultError] wraps: a sentinel of the [vault] package, the
    adapter's [ErrInvalidPath] (bare, or wrapped by
    [fmt.Errorf("%w: detail", ErrInvalidPath)]), or an [error]. *)
Inductive cause :=
| ErrClosed
| ErrSecretNotFound
| ErrAccessDenied
| ErrInvalidPath
| ErrInvalidPathf (detail : string)
| Wrapped (e : error).

Record VaultError := NewVaultError {
  Op : string;
  Path : string;
  Provider : string;
  Err : cause
}.

Record Metadata := {
  MProvider : string;
  MPath : string;
  Version : string;
  Tags : option (gmap string string);
  Extra : gmap string string
}.

Record Secret := {
  Value : string;
  Fields : gmap string string;
  Meta : Metadata
}.

Record Capabilities := {
  Read : bool; Write : bool; Delete : bool; List : bool;
  Versioning : bool; Rotation : bool; Binary : bool;
  MultiField : bool; Batch : bool
}.

End vault.

Definition ProviderName : string := "onepassword".

(** ** path.go: the path grammar *)

Module ParsedPath.

Record t := mk {
  Vault : string;
  Item : string;
  Section : string;
  Field : string
}.

(** The method [String]: the canonical form. *)
Definition String (p : t) : string :=
  let parts := [] in
  let parts := if decide (Vault p = "") then parts else parts ++ [Vault p] in
  let parts := if decide (Item p = "") then parts else parts ++ [Item p] in
  let parts := if decide (Section p = "") then parts else parts ++ [Section p] in
  let parts := if decide (Field p = "") then parts else parts ++ [Field p] in
  strings.Join parts "/".

(** The method [SecretReference]: the backend's reference URI. *)
Definition SecretReference (p : t) : string :=
  if decide (Field p = "") then
    "op://" ++ Vault p ++ "/" ++ Item p
  else if decide (Section p = "") then
    "op://" ++ Vault p ++ "/" ++ Item p ++ "/" ++ Field p
  else
    "op://" ++ Vault p ++ "/" ++ Item p ++ "/" ++ Section p ++ "/" ++ Field p.

End ParsedPath.

(** The loop that drops the empty pieces of a split path. *)
Fixpoint filterNonEmpty (parts : list string) : list string :=
  match parts with
  | [] => []
  | p :: rest =>
      if decide (p = "") then filterNonEmpty rest else p :: filterNonEmpty rest
  end.

(** [parseSecretReference] *)
Definition parseSecretReference (ref : string) : result ParsedPath.t vault.cause :=
  let ref := strings.TrimPrefix ref "op://" in
  let ref := hd "" (strings.Split ref "?"%char) in
  let parts := filterNonEmpty (strings.Split ref slash) in
  match parts with
  | [v; i] => Ok (ParsedPath.mk v i "" "")
  | [v; i; f] => Ok (ParsedPath.mk v i "" f)
  | [v; i; s; f] => Ok (ParsedPath.mk v i s f)
  | _ => Err (vault.ErrInvalidPathf "invalid secret reference format")
  end.

(** [ParsePath] *)
Definition ParsePath (path defaultVault : string) : result ParsedPath.t vault.cause :=
  if decide (path = "") then Err vault.ErrInvalidPath
  else if strings.HasPrefix path "op://" then parseSecretReference path
  else
    let parts := filterNonEmpty (strings.Split path slash) in
    match parts with
    | [] => Err vault.ErrInvalidPath
    | [i] =>
        if decide (defaultVault = "") then
          Err (vault.ErrInvalidPathf "single component path requires default vault")
        else Ok (ParsedPath.mk defaultVault i "" "")
    | [a; b] =>
        if decide (defaultVault = "") then Ok (ParsedPath.mk a b "" "")
        else Ok (ParsedPath.mk defaultVault a "" b)
    | [v; i; f] => Ok (ParsedPath.mk v i "" f)
    | [v; i; s; f] => Ok (ParsedPath.mk v i s f)
    | _ => Err (vault.ErrInvalidPathf "too many path components")
    end.

(** ** errors.go: the error normaliser *)

(** [containsAny]: does [s] contain one of [substrs], letter case apart. *)
Definition containsAny (s : string) (substrs : list string) : bool :=
  let sLower := strings.ToLower s in
  existsb (fun substr => strings.Contains sLower (strings.ToLower substr)) substrs.

Definition notFoundPatterns : list string :=
  ["itemNotFound"; "vaultNotFound"; "fieldNotFound"; "noMatchingSections";
   "item not found"; "vault not found"].

Definition accessDeniedPatterns : list string :=
  ["unauthorized"; "forbidden"; "access denied"; "AccessDenied";
   "invalid service account token"; "authentication failed"].

Definition ambiguousPatterns : list string :=
  ["tooManyVaults"; "tooManyItems"; "tooManyMatchingFields"].

Definition errAmbiguous : error :=
  errorString "ambiguous path: multiple matches found".

(** The body of [mapError] for an error that is not nil. *)
Definition mapErr (operation path : string) (err : error) : vault.VaultError :=
  let errStr := Error err in
  if containsAny errStr notFoundPatterns then
    vault.NewVaultError operation path ProviderName vault.ErrSecretNotFound
  else if containsAny errStr accessDeniedPatterns then
    vault.NewVaultError operation path ProviderName vault.ErrAccessDenied
  else if containsAny errStr ambiguousPatterns then
    vault.NewVaultError operation path ProviderName (vault.Wrapped errAmbiguous)
  else
    vault.NewVaultError operation path ProviderName (vault.Wrapped err).

(** [mapError]: nil stays nil. *)
Definition mapError (operation path : string) (err : option error) : option vault.VaultError :=
  match err with
  | None => None
  | Some e => Some (mapErr operation path e)
  end.

(** [isNotFoundError] *)
Definition isNotFoundError (err : option error) : bool :=
  match err with
  | None => false
  | Some e =>
      let errStr := strings.ToLower (Error e) in
      containsAny errStr ["itemnotfound"; "vaultnotfound"; "fieldnotfound"; "not found"]
  end.

(** ** The backend SDK's data, as far as the adapter uses it *)

Module op.

Inductive ItemFieldType :=
| ItemFieldTypeText
| ItemFieldTypeConcealed
| ItemFieldTypeURL
| ItemFieldTypePhone
| ItemFieldTypeTOTP
| ItemFieldTypeOther (name : string).

Definition isConcealed (t : ItemFieldType) : bool :=
  match t with ItemFieldTypeConcealed => true | _ => false end.

Definition isTOTP (t : ItemFieldType) : bool :=
  match t with ItemFieldTypeTOTP => true | _ => false end.

Record OTPFieldDetails := {
  Code : option string;
  ErrorMessage : option string
}.

Inductive ItemFieldDetails :=
| DetailsOTP (otp : OTPFieldDetails)
| DetailsOther.

(** The accessor [OTP()] of the details: nil unless they are OTP details. *)
Definition OTP (d : ItemFieldDetails) : option OTPFieldDetails :=
  match d with DetailsOTP otp => Some otp | DetailsOther => None end.

Module ItemField.
Record t := mk {
  ID : string;
  Title : string;
  FieldType : ItemFieldType;
  Value : string;
  Details : option ItemFieldDetails
}.
End ItemField.

Module Item.
Record t := mk {
  ID : string;
  Title : string;
  Category : string;
  VaultID : string;
  Fields : list ItemField.t;
  Tags : list string;
  Version : N
}.
End Item.

Module ItemOverview.
Record t := mk { ID : string; Title : string }.
End ItemOverview.

Module VaultOverview.
Record t := mk { ID : string; Title : string }.
End VaultOverview.

Module ItemCreateParams.
Record t := mk {
  VaultID : string;
  Title : string;
  Category : string;
  Fields : list ItemField.t;
  Tags : list string
}.
End ItemCreateParams.

(** An iterator of the SDK, run to its end: the elements [Next] yields,
    then [ErrorIteratorDone] ([None]) or another error. *)
Definition Iterator (A : Type) : Type := (list A * option error)%type.

(** The calls the adapter makes on the client. *)
Inductive call :=
| SecretsResolveCall (ref : string)
| ItemsGetCall (vaultID itemID : string)
| ItemsCreateCall (params : ItemCreateParams.t)
| ItemsPutCall (item : Item.t)
| ItemsDeleteCall (vaultID itemID : string)
| ItemsListAllCall (vaultID : string)
| VaultsListAllCall.

(** The capabilities the adapter needs from the backend; [B] is the state
    of the remote store, which any call may change. *)
Class Client (B : Type) := {
  SecretsResolve : string -> B -> result string error * B;
  ItemsGet : string -> string -> B -> result Item.t error * B;
  ItemsCreate : ItemCreateParams.t -> B -> result Item.t error * B;
  ItemsPut : Item.t -> B -> result Item.t error * B;
  ItemsDelete : string -> string -> B -> option error * B;
  ItemsListAll : string -> B -> result (Iterator ItemOverview.t) error * B;
  VaultsListAll : B -> result (Iterator VaultOverview.t) error * B
}.

End op.

(** The order in which the runtime enumerates a [map[string]string] in a
    [range] loop: unspecified, some enumeration of its entries. *)
Class MapRange := {
  rangeOrder : gmap string string -> list (string * string);
  rangeOrder_perm : forall m, rangeOrder m ≡ₚ map_to_list m
}.

(** ** convert.go: records and backend items *)

(** The tag loop of [itemToSecret]. *)
Fixpoint tagsToMap (tags : list string) (acc : gmap string string) : gmap string string :=
  match tags with
  | [] => acc
  | tag :: rest =>
      match strings.SplitN2 tag ":"%char with
      | [k; v] => tagsToMap rest (<[k := v]> acc)
      | _ => tagsToMap rest (<[tag := ""]> acc)
      end
  end.

(** The value a field contributes: the computed code for a one-time-code
    field that has one, else the stored value. *)
Definition fieldValue (field : op.ItemField.t) : string :=
  if op.isTOTP (op.ItemField.FieldType field) then
    match op.ItemField.Details field with
    | Some d =>
        match op.OTP d with
        | Some otp =>
            match op.Code otp with
            | Some code => code
            | None => op.ItemField.Value field
            end
        | None => op.ItemField.Value field
        end
    | None => op.ItemField.Value field
    end
  else op.ItemField.Value field.

Definition fieldName (field : op.ItemField.t) : string :=
  if decide (op.ItemField.Title field = "") then op.ItemField.ID field
  else op.ItemField.Title field.

(** The state of the field loop of [itemToSecret]. *)
Record scan := mkScan {
  sFields : gmap string string;
  sFirstConcealed : string;
  sValue : string
}.

Definition scanStep (st : scan) (field : op.ItemField.t) : scan :=
  let name := fieldName field in
  let value := fieldValue field in
  let fields := <[name := value]> (sFields st) in
  let firstConcealedValue :=
    if bool_decide (sFirstConcealed st = "") && op.isConcealed (op.ItemField.FieldType field)
    then value else sFirstConcealed st in
  let secretValue :=
    if decide (strings.ToLower name = "password") then value else sValue st in
  mkScan fields firstConcealedValue secretValue.

Definition scanFields (fields : list op.ItemField.t) : scan :=
  fold_left scanStep fields (mkScan ∅ "" "").

(** The last loop of [itemToSecret]: the first non-empty value in the
    order of the enumeration. *)
Fixpoint firstNonEmpty (entries : list (string * string)) : string :=
  match entries with
  | [] => ""
  | (_, v) :: rest => if decide (v = "") then firstNonEmpty rest else v
  end.

Section Convert.
Context `{MapRange}.

(** [itemToSecret] *)
Definition itemToSecret (item : op.Item.t) (path : string) : vault.Secret :=
  let tags :=
    match op.Item.Tags item with
    | [] => None
    | ts => Some (tagsToMap ts ∅)
    end in
  let meta := {|
    vault.MProvider := ProviderName;
    vault.MPath := path;
    vault.Version := pretty (op.Item.Version item);
    vault.Tags := tags;
    vault.Extra := <["vaultId" := op.Item.VaultID item]>
                   (<["itemId" := op.Item.ID item]>
                   (<["category" := op.Item.Category item]> ∅))
  |} in
  let st := scanFields (op.Item.Fields item) in
  let value := sValue st in
  let value :=
    if bool_decide (value = "") && negb (bool_decide (sFirstConcealed st = ""))
    then sFirstConcealed st else value in
  let value :=
    if bool_decide (value = "") && negb (bool_decide (size (sFields st) = 0%nat))
    then firstNonEmpty (rangeOrder (sFields st)) else value in
  {| vault.Value := value; vault.Fields := sFields st; vault.Meta := meta |}.

(** [inferFieldType] *)
Definition inferFieldType (name value : string) : op.ItemFieldType :=
  let nameLower := strings.ToLower name in
  if strings.Contains nameLower "password" || strings.Contains nameLower "secret" ||
     strings.Contains nameLower "token" || strings.Contains nameLower "key" ||
     strings.Contains nameLower "credential"
  then op.ItemFieldTypeConcealed
  else if strings.Contains nameLower "url" || strings.Contains nameLower "website" ||
          strings.Contains nameLower "endpoint"
  then op.ItemFieldTypeURL
  else if strings.Contains nameLower "phone" || strings.Contains nameLower "mobile" ||
          strings.Contains nameLower "tel"
  then op.ItemFieldTypePhone
  else if strings.HasPrefix value "otpauth://" then op.ItemFieldTypeTOTP
  else op.ItemFieldTypeText.

Definition idByte (r : ascii) : bool :=
  let n := nat_of_ascii r in
  ((97 <=? n)%nat && (n <=? 122)%nat) || ((48 <=? n)%nat && (n <=? 57)%nat) ||
  Ascii.eqb r "_"%char.

(** [sanitizeID] *)
Definition sanitizeID (name : string) : string :=
  let id := strings.ToLower name in
  let id := strings.ReplaceAll id " "%char "_"%char in
  let id := strings.ReplaceAll id "-"%char "_"%char in
  let sanitized := strings.Trim (strings.filterBytes idByte id) "_"%char in
  if decide (sanitized = "") then "field" else sanitized.

(** [secretToFields] *)
Definition secretToFields (secret : vault.Secret) (fieldName : string) : list op.ItemField.t :=
  if negb (bool_decide (fieldName = "")) then
    [op.ItemField.mk (sanitizeID fieldName) fieldName op.ItemFieldTypeConcealed
       (vault.Value secret) None]
  else
    let fields :=
      map (fun kv : string * string =>
             op.ItemField.mk (sanitizeID kv.1) kv.1 (inferFieldType kv.1 kv.2) kv.2 None)
          (rangeOrder (vault.Fields secret)) in
    match fields with
    | [] =>
        if negb (bool_decide (vault.Value secret = "")) then
          [op.ItemField.mk "password" "password" op.ItemFieldTypeConcealed
             (vault.Value secret) None]
        else fields
    | _ => fields
    end.

(** [tagsToStrings] *)
Definition tagsToStrings (tags : gmap string string) : list string :=
  map (fun kv : string * string =>
         if decide (kv.2 = "") then kv.1 else (kv.1 ++ ":" ++ kv.2)%string)
      (rangeOrder tags).

End Convert.

(** One admissible order: the one of [map_to_list]. *)
#[export] Instance sortedRange : MapRange :=
  {| rangeOrder := map_to_list; rangeOrder_perm := fun m => reflexivity _ |}.

(** ** config.go and onepassword.go: the provider *)

Record Config := {
  ServiceAccountToken : string;
  IntegrationName : string;
  IntegrationVersion : string;
  DefaultVaultID : string;
  DefaultVaultName : string;
  DefaultCategory : string;
  CacheTTL : Z;
  Logger : option positive
}.

(** The receiver of the methods, without the client it points to (the
    client's state is the [World] below) and without its two locks. *)
Record Provider := {
  config : Config;
  vaultCache : gmap string string;
  closed : bool
}.

Definition setCache (c : gmap string string) (p : Provider) : Provider :=
  {| config := config p; vaultCache := c; closed := closed p |}.

Definition setClosed (b : bool) (p : Provider) : Provider :=
  {| config := config p; vaultCache := vaultCache p; closed := b |}.

(** [getDefaultVault] *)
Definition getDefaultVault (p : Provider) : string :=
  if decide (DefaultVaultID (config p) = "") then DefaultVaultName (config p)
  else DefaultVaultID (config p).

(** [cacheVaultID] *)
Definition cacheVaultID (name id : string) (p : Provider) : Provider :=
  setCache (<[id := id]> (<[name := id]> (vaultCache p))) p.

(** The vault loop of [resolveVaultID]. *)
Fixpoint resolveVaultLoop (nameOrID : string) (vs : list op.VaultOverview.t)
    (stop : option error) (p : Provider) : result string error * Provider :=
  match vs with
  | [] =>
      match stop with
      | Some err => (Err err, p)
      | None => (Err (errorString ("vault not found: " ++ nameOrID)), p)
      end
  | v :: rest =>
      let p := cacheVaultID (op.VaultOverview.Title v) (op.VaultOverview.ID v) p in
      if bool_decide (op.VaultOverview.ID v = nameOrID) ||
         bool_decide (op.VaultOverview.Title v = nameOrID)
      then (Ok (op.VaultOverview.ID v), p)
      else resolveVaultLoop nameOrID rest stop p
  end.

(** The item loop of [resolveItemID]. *)
Fixpoint resolveItemLoop (nameOrID : string) (items : list op.ItemOverview.t)
    (stop : option error) : result string error :=
  match items with
  | [] =>
      match stop with
      | Some err => Err err
      | None => Err (errorString ("item not found: " ++ nameOrID))
      end
  | item :: rest =>
      if bool_decide (op.ItemOverview.ID item = nameOrID) ||
         bool_decide (op.ItemOverview.Title item = nameOrID)
      then Ok (op.ItemOverview.ID item)
      else resolveItemLoop nameOrID rest stop
  end.

(** The field loop of [updateItem]: the first field whose title or ID is
    [target] gets the value; [None] when no field matches. *)
Fixpoint setFieldValue (target value : string) (fields : list op.ItemField.t)
    : option (list op.ItemField.t) :=
  match fields with
  | [] => None
  | f :: rest =>
      if bool_decide (op.ItemField.Title f = target) ||
         bool_decide (op.ItemField.ID f = target)
      then Some (op.ItemField.mk (op.ItemField.ID f) (op.ItemField.Title f)
                   (op.ItemField.FieldType f) value (op.ItemField.Details f) :: rest)
      else option_map (cons f) (setFieldValue target value rest)
  end.

(** The item loop of [List] for one vault: [Next] errors end the loop. *)
Definition listVaultPaths (prefix title : string) (items : list op.ItemOverview.t)
    : list string :=
  List.filter (fun path => bool_decide (prefix = "") || strings.HasPrefix path prefix)
    (map (fun item => (title ++ "/" ++ op.ItemOverview.Title item)%string) items).

Section Provider.
Context {B : Type} `{op.Client B} `{MapRange}.

(** The client: the remote store and the log of the calls made on it. *)
Record World := mkWorld {
  backend : B;
  calls : list op.call
}.

Definition logged {A : Type} (c : op.call) (f : B -> A * B) (w : World) : A * World :=
  let '(r, b) := f (backend w) in (r, mkWorld b (calls w ++ [c])).

Definition clientSecretsResolve (ref : string) :=
  logged (op.SecretsResolveCall ref) (op.SecretsResolve ref).
Definition clientItemsGet (vaultID itemID : string) :=
  logged (op.ItemsGetCall vaultID itemID) (op.ItemsGet vaultID itemID).
Definition clientItemsCreate (params : op.ItemCreateParams.t) :=
  logged (op.ItemsCreateCall params) (op.ItemsCreate params).
Definition clientItemsPut (item : op.Item.t) :=
  logged (op.ItemsPutCall item) (op.ItemsPut item).
Definition clientItemsDelete (vaultID itemID : string) :=
  logged (op.ItemsDeleteCall vaultID itemID) (op.ItemsDelete vaultID itemID).
Definition clientItemsListAll (vaultID : string) :=
  logged (op.ItemsListAllCall vaultID) (op.ItemsListAll vaultID).
Definition clientVaultsListAll :=
  logged op.VaultsListAllCall op.VaultsListAll.

(** [resolveVaultID] *)
Definition resolveVaultID (nameOrID : string) (p : Provider) (w : World)
    : result string error * Provider * World :=
  if decide (nameOrID = "") then
    (Err (errorString "vault name or ID is required"), p, w)
  else
    match vaultCache p !! nameOrID with
    | Some id => (Ok id, p, w)
    | None =>
        let '(r, w) := clientVaultsListAll w in
        match r with
        | Err err => (Err err, p, w)
        | Ok (vs, stop) =>
            let '(r, p) := resolveVaultLoop nameOrID vs stop p in (r, p, w)
        end
    end.

(** [resolveItemID] *)
Definition resolveItemID (vaultID nameOrID : string) (w : World)
    : result string error * World :=
  if decide (nameOrID = "") then
    (Err (errorString "item name or ID is required"), w)
  else
    let '(r, w) := clientItemsListAll vaultID w in
    match r with
    | Err err => (Err err, w)
    | Ok (items, stop) => (resolveItemLoop nameOrID items stop, w)
    end.

(** [resolveField] *)
Definition resolveField (parsed : ParsedPath.t) (w : World)
    : result vault.Secret vault.VaultError * World :=
  let ref := ParsedPath.SecretReference parsed in
  let '(r, w) := clientSecretsResolve ref w in
  match r with
  | Err err => (Err (mapErr "Get" (ParsedPath.String parsed) err), w)
  | Ok value =>
      (Ok {| vault.Value := value;
             vault.Fields := ∅;
             vault.Meta := {| vault.MProvider := ProviderName;
                              vault.MPath := ParsedPath.String parsed;
                              vault.Version := "";
                              vault.Tags := None;
                              vault.Extra := ∅ |} |}, w)
  end.

(** [getItem] *)
Definition getItem (parsed : ParsedPath.t) (p : Provider) (w : World)
    : result vault.Secret vault.VaultError * Provider * World :=
  let '(r, p, w) := resolveVaultID (ParsedPath.Vault parsed) p w in
  match r with
  | Err err => (Err (mapErr "Get" (ParsedPath.String parsed) err), p, w)
  | Ok vaultID =>
      let '(r, w) := resolveItemID vaultID (ParsedPath.Item parsed) w in
      match r with
      | Err err => (Err (mapErr "Get" (ParsedPath.String parsed) err), p, w)
      | Ok itemID =>
          let '(r, w) := clientItemsGet vaultID itemID w in
          match r with
          | Err err => (Err (mapErr "Get" (ParsedPath.String parsed) err), p, w)
          | Ok item => (Ok (itemToSecret item (ParsedPath.String parsed)), p, w)
          end
      end
  end.

(** [Get] *)
Definition Get (path : string) (p : Provider) (w : World)
    : result vault.Secret vault.VaultError * Provider * World :=
  if closed p then
    (Err (vault.NewVaultError "Get" path ProviderName vault.ErrClosed), p, w)
  else
    match ParsePath path (getDefaultVault p) with
    | Err err => (Err (vault.NewVaultError "Get" path ProviderName err), p, w)
    | Ok parsed =>
        if negb (bool_decide (ParsedPath.Field parsed = "")) then
          let '(r, w) := resolveField parsed w in (r, p, w)
        else getItem parsed p w
    end.

(** [createItem] *)
Definition createItem (vaultID : string) (parsed : ParsedPath.t)
    (secret : vault.Secret) (p : Provider) (w : World)
    : option vault.VaultError * World :=
  let params := {|
    op.ItemCreateParams.VaultID := vaultID;
    op.ItemCreateParams.Title := ParsedPath.Item parsed;
    op.ItemCreateParams.Category := DefaultCategory (config p);
    op.ItemCreateParams.Fields := secretToFields secret (ParsedPath.Field parsed);
    op.ItemCreateParams.Tags :=
      match vault.Tags (vault.Meta secret) with
      | Some tags => tagsToStrings tags
      | None => []
      end
  |} in
  let '(r, w) := clientItemsCreate params w in
  match r with
  | Err err => (mapError "Set" (ParsedPath.String parsed) (Some err), w)
  | Ok _ => (None, w)
  end.

(** [updateItem] *)
Definition updateItem (vaultID itemID : string) (parsed : ParsedPath.t)
    (secret : vault.Secret) (w : World) : option vault.VaultError * World :=
  let '(r, w) := clientItemsGet vaultID itemID w in
  match r with
  | Err err => (mapError "Set" (ParsedPath.String parsed) (Some err), w)
  | Ok item =>
      let fields :=
        if negb (bool_decide (ParsedPath.Field parsed = "")) then
          match setFieldValue (ParsedPath.Field parsed) (vault.Value secret)
                  (op.Item.Fields item) with
          | Some fields => fields
          | None =>
              op.Item.Fields item ++
              [op.ItemField.mk (sanitizeID (ParsedPath.Field parsed))
                 (ParsedPath.Field parsed) op.ItemFieldTypeConcealed
                 (vault.Value secret) None]
          end
        else secretToFields secret "" in
      let tags :=
        match vault.Tags (vault.Meta secret) with
        | Some tags => tagsToStrings tags
        | None => op.Item.Tags item
        end in
      let item := op.Item.mk (op.Item.ID item) (op.Item.Title item)
                    (op.Item.Category item) (op.Item.VaultID item) fields tags
                    (op.Item.Version item) in
      let '(r, w) := clientItemsPut item w in
      match r with
      | Err err => (mapError "Set" (ParsedPath.String parsed) (Some err), w)
      | Ok _ => (None, w)
      end
  end.

(** [Set] *)
Definition Set_ (path : string) (secret : vault.Secret) (p : Provider) (w : World)
    : option vault.VaultError * Provider * World :=
  if closed p then
    (Some (vault.NewVaultError "Set" path ProviderName vault.ErrClosed), p, w)
  else
    match ParsePath path (getDefaultVault p) with
    | Err err => (Some (vault.NewVaultError "Set" path ProviderName err), p, w)
    | Ok parsed =>
        let '(r, p, w) := resolveVaultID (ParsedPath.Vault parsed) p w in
        match r with
        | Err err => (mapError "Set" path (Some err), p, w)
        | Ok vaultID =>
            let '(r, w) := resolveItemID vaultID (ParsedPath.Item parsed) w in
            match r with
            | Ok itemID =>
                let '(e, w) := updateItem vaultID itemID parsed secret w in (e, p, w)
            | Err _ =>
                let '(e, w) := createItem vaultID parsed secret p w in (e, p, w)
            end
        end
    end.

(** [Delete] *)
Definition Delete (path : string) (p : Provider) (w : World)
    : option vault.VaultError * Provider * World :=
  if closed p then
    (Some (vault.NewVaultError "Delete" path ProviderName vault.ErrClosed), p, w)
  else
    match ParsePath path (getDefaultVault p) with
    | Err err => (Some (vault.NewVaultError "Delete" path ProviderName err), p, w)
    | Ok parsed =>
        let '(r, p, w) := resolveVaultID (ParsedPath.Vault parsed) p w in
        match r with
        | Err err =>
            if isNotFoundError (Some err) then (None, p, w)
            else (mapError "Delete" path (Some err), p, w)
        | Ok vaultID =>
            let '(r, w) := resolveItemID vaultID (ParsedPath.Item parsed) w in
            match r with
            | Err err =>
                if isNotFoundError (Some err) then (None, p, w)
                else (mapError "Delete" path (Some err), p, w)
            | Ok itemID =>
                let '(e, w) := clientItemsDelete vaultID itemID w in
                match e with
                | Some err =>
                    if isNotFoundError (Some err) then (None, p, w)
                    else (mapError "Delete" path (Some err), p, w)
                | None => (None, p, w)
                end
            end
        end
    end.

(** [Exists] *)
Definition Exists (path : string) (p : Provider) (w : World)
    : result bool vault.VaultError * Provider * World :=
  if closed p then
    (Err (vault.NewVaultError "Exists" path ProviderName vault.ErrClosed), p, w)
  else
    match ParsePath path (getDefaultVault p) with
    | Err err => (Err (vault.NewVaultError "Exists" path ProviderName err), p, w)
    | Ok parsed =>
        let '(r, p, w) := resolveVaultID (ParsedPath.Vault parsed) p w in
        match r with
        | Err err =>
            if isNotFoundError (Some err) then (Ok false, p, w)
            else (Err (mapErr "Exists" path err), p, w)
        | Ok vaultID =>
            let '(r, w) := resolveItemID vaultID (ParsedPath.Item parsed) w in
            match r with
            | Err err =>
                if isNotFoundError (Some err) then (Ok false, p, w)
                else (Err (mapErr "Exists" path err), p, w)
            | Ok _ => (Ok true, p, w)
            end
        end
    end.

(** The vault loop of [List]. *)
Fixpoint listLoop (prefix : string) (vs : list op.VaultOverview.t)
    (stop : option error) (results : list string) (p : Provider) (w : World)
    : result (list string) vault.VaultError * Provider * World :=
  match vs with
  | [] =>
      match stop with
      | Some err => (Err (mapErr "List" prefix err), p, w)
      | None => (Ok results, p, w)
      end
  | v :: rest =>
      let title := op.VaultOverview.Title v in
      if negb (bool_decide (prefix = "")) && negb (strings.HasPrefix title prefix) &&
         negb (strings.HasPrefix prefix (title ++ "/"))
      then listLoop prefix rest stop results p w
      else
        let '(r, w) := clientItemsListAll (op.VaultOverview.ID v) w in
        match r with
        | Err _ => listLoop prefix rest stop results p w
        | Ok (items, _) =>
            let results := results ++ listVaultPaths prefix title items in
            let p := cacheVaultID title (op.VaultOverview.ID v) p in
            listLoop prefix rest stop results p w
        end
  end.

(** [List] *)
Definition List_ (prefix : string) (p : Provider) (w : World)
    : result (list string) vault.VaultError * Provider * World :=
  if closed p then
    (Err (vault.NewVaultError "List" prefix ProviderName vault.ErrClosed), p, w)
  else
    let '(r, w) := clientVaultsListAll w in
    match r with
    | Err err => (Err (mapErr "List" prefix err), p, w)
    | Ok (vs, stop) => listLoop prefix vs stop [] p w
    end.

(** [Name] *)
Definition Name (p : Provider) : string := ProviderName.

(** [Capabilities] *)
Definition Capabilities (p : Provider) : vault.Capabilities :=
  {| vault.Read := true; vault.Write := true; vault.Delete := true;
     vault.List := true; vault.Versioning := false; vault.Rotation := false;
     vault.Binary := true; vault.MultiField := true; vault.Batch := true |}.

(** [Close] *)
Definition Close (p : Provider) : option vault.VaultError * Provider :=
  (None, setClosed true p).

(** ** batch.go *)

(** The path loop of [GetBatch]. *)
Fixpoint getBatchLoop (paths : list string) (results : gmap string vault.Secret)
    (p : Provider) (w : World) : gmap string vault.Secret * Provider * World :=
  match paths with
  | [] => (results, p, w)
  | path :: rest =>
      let '(r, p, w) := Get path p w in
      match r with
      | Ok secret => getBatchLoop rest (<[path := secret]> results) p w
      | Err _ => getBatchLoop rest results p w
      end
  end.

(** [GetBatch] *)
Definition GetBatch (paths : list string) (p : Provider) (w : World)
    : result (gmap string vault.Secret) vault.VaultError * Provider * World :=
  if closed p then
    (Err (vault.NewVaultError "GetBatch" "" ProviderName vault.ErrClosed), p, w)
  else
    match paths with
    | [] => (Ok ∅, p, w)
    | _ => let '(results, p, w) := getBatchLoop paths ∅ p w in (Ok results, p, w)
    end.

End Provider.

Arguments World B : clear implicits.


(** ** An in-memory double of the backend, with fault injection

    Used to run the provider on concrete stores.  A call for which
    [faults] gives an error fails with it and leaves the store as it is. *)

Module Mem.

Record vaultRec := mkVault {
  ID : string;
  Title : string;
  Items : list op.Item.t
}.

Record t := mk {
  vaults : list vaultRec;
  faults : op.call -> option error;
  fresh : N
}.

Definition noFaults : op.call -> option error := fun _ => None.

Definition matches (key id title : string) : bool :=
  bool_decide (id = key) || bool_decide (title = key).

Definition findVault (key : string) (b : t) : option vaultRec :=
  find (fun v => matches key (ID v) (Title v)) (vaults b).

Definition findItem (key : string) (v : vaultRec) : option op.Item.t :=
  find (fun i => matches key (op.Item.ID i) (op.Item.Title i)) (Items v).

Definition findField (key : string) (i : op.Item.t) : option op.ItemField.t :=
  find (fun f => matches key (op.ItemField.ID f) (op.ItemField.Title f))
       (op.Item.Fields i).

Definition overview (i : op.Item.t) : op.ItemOverview.t :=
  op.ItemOverview.mk (op.Item.ID i) (op.Item.Title i).

Definition updVault (vaultID : string) (f : list op.Item.t -> list op.Item.t) (b : t) : t :=
  mk (map (fun v => if bool_decide (ID v = vaultID)
                    then mkVault (ID v) (Title v) (f (Items v)) else v) (vaults b))
     (faults b) (fresh b).

Definition guarded {A : Type} (c : op.call) (fail : error -> A) (run : t -> A * t) (b : t) : A * t :=
  match faults b c with
  | Some err => (fail err, b)
  | None => run b
  end.

Definition secretsResolve (ref : string) : t -> result string error * t :=
  guarded (op.SecretsResolveCall ref) Err (fun b =>
    match parseSecretReference ref with
    | Err _ => (Err (errorString "invalid secret reference"), b)
    | Ok parsed =>
        match findVault (ParsedPath.Vault parsed) b with
        | None => (Err (errorString "vaultNotFound"), b)
        | Some v =>
            match findItem (ParsedPath.Item parsed) v with
            | None => (Err (errorString "itemNotFound"), b)
            | Some i =>
                match findField (ParsedPath.Field parsed) i with
                | None => (Err (errorString "fieldNotFound"), b)
                | Some f => (Ok (op.ItemField.Value f), b)
                end
            end
        end
    end).

Definition itemsGet (vaultID itemID : string) : t -> result op.Item.t error * t :=
  guarded (op.ItemsGetCall vaultID itemID) Err (fun b =>
    match find (fun v => bool_decide (ID v = vaultID)) (vaults b) with
    | None => (Err (errorString "vaultNotFound"), b)
    | Some v =>
        match find (fun i => bool_decide (op.Item.ID i = itemID)) (Items v) with
        | None => (Err (errorString "itemNotFound"), b)
        | Some i => (Ok i, b)
        end
    end).

Definition itemsCreate (params : op.ItemCreateParams.t) : t -> result op.Item.t error * t :=
  guarded (op.ItemsCreateCall params) Err (fun b =>
    match find (fun v => bool_decide (ID v = op.ItemCreateParams.VaultID params)) (vaults b) with
    | None => (Err (errorString "vaultNotFound"), b)
    | Some _ =>
        let item := op.Item.mk ("item-" ++ pretty (fresh b))
                      (op.ItemCreateParams.Title params)
                      (op.ItemCreateParams.Category params)
                      (op.ItemCreateParams.VaultID params)
                      (op.ItemCreateParams.Fields params)
                      (op.ItemCreateParams.Tags params) 1 in
        let b := updVault (op.ItemCreateParams.VaultID params) (fun items => items ++ [item]) b in
        (Ok item, mk (vaults b) (faults b) (fresh b + 1))
    end).

Definition itemsPut (item : op.Item.t) : t -> result op.Item.t error * t :=
  guarded (op.ItemsPutCall item) Err (fun b =>
    match itemsGet (op.Item.VaultID item) (op.Item.ID item) b with
    | (Err err, _) => (Err err, b)
    | (Ok _, _) =>
        let item := op.Item.mk (op.Item.ID item) (op.Item.Title item)
                      (op.Item.Category item) (op.Item.VaultID item)
                      (op.Item.Fields item) (op.Item.Tags item)
                      (op.Item.Version item + 1) in
        (Ok item,
         updVault (op.Item.VaultID item)
           (map (fun i => if bool_decide (op.Item.ID i = op.Item.ID item) then item else i)) b)
    end).

Definition itemsDelete (vaultID itemID : string) : t -> option error * t :=
  guarded (op.ItemsDeleteCall vaultID itemID) Some (fun b =>
    match itemsGet vaultID itemID b with
    | (Err err, _) => (Some err, b)
    | (Ok _, _) =>
        (None,
         updVault vaultID
           (List.filter (fun i => negb (bool_decide (op.Item.ID i = itemID)))) b)
    end).

Definition itemsListAll (vaultID : string)
    : t -> result (op.Iterator op.ItemOverview.t) error * t :=
  guarded (op.ItemsListAllCall vaultID) Err (fun b =>
    match find (fun v => bool_decide (ID v = vaultID)) (vaults b) with
    | None => (Err (errorString "vaultNotFound"), b)
    | Some v => (Ok (map overview (Items v), None), b)
    end).

Definition vaultsListAll : t -> result (op.Iterator op.VaultOverview.t) error * t :=
  guarded op.VaultsListAllCall Err (fun b =>
    (Ok (map (fun v => op.VaultOverview.mk (ID v) (Title v)) (vaults b), None), b)).

#[global] Instance client : op.Client t := {|
  op.SecretsResolve := secretsResolve;
  op.ItemsGet := itemsGet;
  op.ItemsCreate := itemsCreate;
  op.ItemsPut := itemsPut;
  op.ItemsDelete := itemsDelete;
  op.ItemsListAll := itemsListAll;
  op.VaultsListAll := vaultsListAll
|}.

End Mem.

(** A store with one vault [V] holding one login item. *)
Definition demoItem : op.Item.t :=
  op.Item.mk "i1" "Item" "Login" "v1"
    [op.ItemField.mk "username" "username" op.ItemFieldTypeText "a" None;
     op.ItemField.mk "password" "password" op.ItemFieldTypeConcealed "b" None]
    [] 1.

Definition demoStore : Mem.t :=
  Mem.mk [Mem.mkVault "v1" "V" [demoItem]; Mem.mkVault "v2" "W" []] Mem.noFaults 2.

Definition demoConfig : Config := {|
  ServiceAccountToken := "token";
  IntegrationName := "omnivault-onepassword";
  IntegrationVersion := "0.1.0";
  DefaultVaultID := "";
  DefaultVaultName := "";
  DefaultCategory := "SecureNote";
  CacheTTL := 0;
  Logger := None
|}.

(** The provider as [New] builds it: the configuration, an empty cache,
    open. *)
Definition newProvider (c : Config) : Provider :=
  {| config := c; vaultCache := ∅; closed := false |}.

Definition demoWorld : World Mem.t := mkWorld demoStore [].


(** ** The provider as a state machine *)

Inductive operation :=
| OpGet (path : string)
| OpSet (path : string) (secret : vault.Secret)
| OpDelete (path : string)
| OpExists (path : string)
| OpList (prefix : string)
| OpGetBatch (paths : list string)
| OpClose.

Inductive outcome :=
| RSecret (r : result vault.Secret vault.VaultError)
| RError (e : option vault.VaultError)
| RBool (r : result bool vault.VaultError)
| RPaths (r : result (list string) vault.VaultError)
| RBatch (r : result (gmap string vault.Secret) vault.VaultError).

(** What each operation answers on a closed provider. *)
Definition closedOutcome (o : operation) : outcome :=
  let closedErr operation path :=
    vault.NewVaultError operation path ProviderName vault.ErrClosed in
  match o with
  | OpGet path => RSecret (Err (closedErr "Get" path))
  | OpSet path _ => RError (Some (closedErr "Set" path))
  | OpDelete path => RError (Some (closedErr "Delete" path))
  | OpExists path => RBool (Err (closedErr "Exists" path))
  | OpList prefix => RPaths (Err (closedErr "List" prefix))
  | OpGetBatch _ => RBatch (Err (closedErr "GetBatch" ""))
  | OpClose => RError None
  end.

(** The provider with another cache freshness window. *)
Definition withTTL (ttl : Z) (p : Provider) : Provider :=
  {| config := {| ServiceAccountToken := ServiceAccountToken (config p);
                  IntegrationName := IntegrationName (config p);
                  IntegrationVersion := IntegrationVersion (config p);
                  DefaultVaultID := DefaultVaultID (config p);
                  DefaultVaultName := DefaultVaultName (config p);
                  DefaultCategory := DefaultCategory (config p);
                  CacheTTL := ttl;
                  Logger := Logger (config p) |};
     vaultCache := vaultCache p;
     closed := closed p |}.

Section Machine.
Context {B : Type} `{op.Client B} `{MapRange}.

(** One call of a public method. *)
Definition step (o : operation) (p : Provider) (w : World B) : outcome * Provider * World B :=
  match o with
  | OpGet path => let '(r, p, w) := Get path p w in (RSecret r, p, w)
  | OpSet path secret => let '(e, p, w) := Set_ path secret p w in (RError e, p, w)
  | OpDelete path => let '(e, p, w) := Delete path p w in (RError e, p, w)
  | OpExists path => let '(r, p, w) := Exists path p w in (RBool r, p, w)
  | OpList prefix => let '(r, p, w) := List_ prefix p w in (RPaths r, p, w)
  | OpGetBatch paths => let '(r, p, w) := GetBatch paths p w in (RBatch r, p, w)
  | OpClose => let '(e, p) := Close p in (RError e, p, w)
  end.

(** A sequence of calls. *)
Fixpoint run (ops : list operation) (p : Provider) (w : World B)
    : list outcome * Provider * World B :=
  match ops with
  | [] => ([], p, w)
  | o :: rest =>
      let '(r, p, w) := step o p w in
      let '(rs, p, w) := run rest p w in
      (r :: rs, p, w)
  end.

(** The result of a call, for the provider with another freshness window. *)
Definition liftTTL {A : Type} (ttl : Z) (x : A * Provider * World B) : A * Provider * World B :=
  (x.1.1, withTTL ttl x.1.2, x.2).

(** A backend is benign on the states satisfying [good] when, from such a
    state, the listings and the deletion fail with not-found errors only and
    lead to such a state again. *)
Record benign (good : B -> Prop) : Prop := {
  benign_vaults : forall b r b',
    good b -> op.VaultsListAll b = (r, b') ->
    good b' /\
    match r with
    | Err err | Ok (_, Some err) => isNotFoundError (Some err) = true
    | Ok (_, None) => True
    end;
  benign_items : forall vaultID b r b',
    good b -> op.ItemsListAll vaultID b = (r, b') ->
    good b' /\
    match r with
    | Err err | Ok (_, Some err) => isNotFoundError (Some err) = true
    | Ok (_, None) => True
    end;
  benign_delete : forall vaultID itemID b e b',
    good b -> op.ItemsDelete vaultID itemID b = (e, b') ->
    good b' /\
    match e with
    | Some err => isNotFoundError (Some err) = true
    | None => True
    end
}.

End Machine.

(** [p'] is [p] with, possibly, more cache entries: the configuration and
    the open/closed flag are those of [p] and every cached key is kept. *)
Definition extends (p p' : Provider) : Prop :=
  config p' = config p /\ closed p' = closed p /\
  dom (vaultCache p) ⊆ dom (vaultCache p').

(** ** Notions used to state how names are resolved *)

Definition vaultMatches (n : string) (v : op.VaultOverview.t) : bool :=
  bool_decide (op.VaultOverview.ID v = n) || bool_decide (op.VaultOverview.Title v = n).

Definition itemMatches (n : string) (i : op.ItemOverview.t) : bool :=
  bool_decide (op.ItemOverview.ID i = n) || bool_decide (op.ItemOverview.Title i = n).

(** The cache after the vaults [vs] have been cached, in their order. *)
Definition cacheAll (vs : list op.VaultOverview.t) (c : gmap string string)
    : gmap string string :=
  fold_left (fun c v => <[op.VaultOverview.ID v := op.VaultOverview.ID v]>
                        (<[op.VaultOverview.Title v := op.VaultOverview.ID v]> c)) vs c.

Definition vaultNotFound (n : string) : error := errorString ("vault not found: " ++ n).
Definition itemNotFound (n : string) : error := errorString ("item not found: " ++ n).

(** A store whose item listing fails with the SDK's too-many-items
    error, and a record to write. *)
Definition ambiguousFault (c : op.call) : option error :=
  match c with
  | op.ItemsListAllCall _ => Some (errorString "tooManyItems")
  | _ => None
  end.

Definition faultyStore : Mem.t := Mem.mk (Mem.vaults demoStore) ambiguousFault 2.

Definition demoSecret : vault.Secret :=
  {| vault.Value := "x";
     vault.Fields := ∅;
     vault.Meta := {| vault.MProvider := ""; vault.MPath := ""; vault.Version := "";
                      vault.Tags := None; vault.Extra := ∅ |} |}.

(** ** Notions used to state the normaliser and the conversion *)

(** [pat] occurs in [s], letter case apart. *)
Definition occursIn (pat s : string) : Prop :=
  exists pre mid post : string,
    s = (pre ++ mid ++ post)%string /\ strings.ToLower mid = strings.ToLower pat.

Definition occursAny (pats : list string) (s : string) : Prop :=
  exists pat, In pat pats /\ occursIn pat s.

(** The not-found substrings as the specification words them. *)
Definition wordedNotFoundPatterns : list string :=
  ["item not found"; "vault not found"; "field not found"; "no matching sections"].

Definition isPassword (f : op.ItemField.t) : bool :=
  bool_decide (strings.ToLower (fieldName f) = "password").

Definition isConcealedField (f : op.ItemField.t) : bool :=
  op.isConcealed (op.ItemField.FieldType f).

(** The value of the last field named "password" (letter case apart);
    empty when there is no such field. *)
Definition passwordValue (fs : list op.ItemField.t) : string :=
  match find isPassword (rev fs) with
  | Some f => fieldValue f
  | None => ""
  end.

(** The value of the first concealed field whose value is not empty;
    empty when there is no such field. *)
Definition concealedValue (fs : list op.ItemField.t) : string :=
  match find (fun f => isConcealedField f && negb (bool_decide (fieldValue f = ""))) fs with
  | Some f => fieldValue f
  | None => ""
  end.

(** The field map: each field under its name, a later field of the same
    name replacing an earlier one. *)
Definition fieldMap (fs : list op.ItemField.t) : gmap string string :=
  fold_left (fun m f => <[fieldName f := fieldValue f]> m) fs ∅.

(** An item whose field named "password" is empty and which has another
    concealed field. *)
Definition emptyPasswordItem : op.Item.t :=
  op.Item.mk "i1" "Login" "Login" "v1"
    [op.ItemField.mk "password" "password" op.ItemFieldTypeConcealed "" None;
     op.ItemField.mk "token" "token" op.ItemFieldTypeConcealed "t" None]
    [] 1.

(** ** Notions used to state the round trips of paths *)

(** The components of a path are free of the byte [c]. *)
Definition partsFree (c : ascii) (p : ParsedPath.t) : Prop :=
  hasByte c (ParsedPath.Vault p) = false /\ hasByte c (ParsedPath.Item p) = false /\
  hasByte c (ParsedPath.Section p) = false /\ hasByte c (ParsedPath.Field p) = false.

(** A path as the parser produces them: a vault, an item, and a section
    only together with a field. *)
Definition shaped (p : ParsedPath.t) : Prop :=
  ParsedPath.Vault p <> "" /\ ParsedPath.Item p <> "" /\
  (ParsedPath.Section p <> "" -> ParsedPath.Field p <> "").

(** ** Notions used to state the conversions *)

(** Every byte of the string satisfies [P]. *)
Fixpoint allBytes (P : ascii -> bool) (s : string) : bool :=
  match s with
  | EmptyString => true
  | String c s' => P c && allBytes P s'
  end.

(** The field made from one entry of a record's field map. *)
Definition entryField (kv : string * string) : op.ItemField.t :=
  op.ItemField.mk (sanitizeID kv.1) kv.1 (inferFieldType kv.1 kv.2) kv.2 None.

(** A tag as the backend stores it. *)
Definition tagString (kv : string * string) : string :=
  if decide (kv.2 = "") then kv.1 else (kv.1 ++ ":" ++ kv.2)%string.

(** The field written for a record that has a value and no field map. *)
Definition passwordField (value : string) : op.ItemField.t :=
  op.ItemField.mk "password" "password" op.ItemFieldTypeConcealed value None.

(** ** Notions used to state what the operations do to the backend *)

(** [w'] is [w] after at most [n] more backend calls, all satisfying [P]. *)
Definition emits {B : Type} (P : op.call -> Prop) (n : nat) (w w' : World B) : Prop :=
  exists l, calls w' = (calls w ++ l)%list /\ Forall P l /\ length l <= n.

Definition isListing (c : op.call) : Prop :=
  match c with
  | op.VaultsListAllCall | op.ItemsListAllCall _ => True
  | _ => False
  end.

(** The backend calls an operation may make. *)
Definition allowedCall (o : operation) (c : op.call) : Prop :=
  match o, c with
  | OpClose, _ => False
  | _, op.VaultsListAllCall | _, op.ItemsListAllCall _ => True
  | (OpGet _ | OpGetBatch _), (op.SecretsResolveCall _ | op.ItemsGetCall _ _) => True
  | OpSet _ _, (op.ItemsGetCall _ _ | op.ItemsPutCall _ | op.ItemsCreateCall _) => True
  | OpDelete _, op.ItemsDeleteCall _ _ => True
  | _, _ => False
  end.

(** The most backend calls one operation on one path makes. *)
Definition maxCalls (o : operation) : option nat :=
  match o with
  | OpGet _ => Some 3%nat
  | OpSet _ _ => Some 4%nat
  | OpDelete _ => Some 3%nat
  | OpExists _ => Some 2%nat
  | OpClose => Some 0%nat
  | OpList _ | OpGetBatch _ => None
  end.

(** The same error, reported for another operation. *)
Definition reOp (operation : string) (e : vault.VaultError) : vault.VaultError :=
  vault.NewVaultError operation (vault.Path e) (vault.Provider e) (vault.Err e).

Definition fieldMatches (target : string) (f : op.ItemField.t) : bool :=
  bool_decide (op.ItemField.Title f = target) || bool_decide (op.ItemField.ID f = target).

Definition withValue (value : string) (f : op.ItemField.t) : op.ItemField.t :=
  op.ItemField.mk (op.ItemField.ID f) (op.ItemField.Title f)
    (op.ItemField.FieldType f) value (op.ItemField.Details f).

(** The last error of a list of outcomes, as a batch reports it. *)
Fixpoint lastError (acc : option vault.VaultError) (rs : list outcome)
    : option vault.VaultError :=
  match rs with
  | [] => acc
  | RError (Some e) :: rest => lastError (Some e) rest
  | _ :: rest => lastError acc rest
  end.

(** ** batch.go: DeleteBatch *)

Section DeleteBatch.
Context {B : Type} `{op.Client B}.

(** The path loop of [DeleteBatch]. *)
Fixpoint deleteBatchLoop (paths : list string) (lastErr : option vault.VaultError)
    (p : Provider) (w : World B) : option vault.VaultError * Provider * World B :=
  match paths with
  | [] => (lastErr, p, w)
  | path :: rest =>
      let '(e, p, w) := Delete path p w in
      match e with
      | Some err => deleteBatchLoop rest (Some err) p w
      | None => deleteBatchLoop rest lastErr p w
      end
  end.

(** [DeleteBatch] *)
Definition DeleteBatch (paths : list string) (p : Provider) (w : World B)
    : option vault.VaultError * Provider * World B :=
  if closed p then
    (Some (vault.NewVaultError "DeleteBatch" "" ProviderName vault.ErrClosed), p, w)
  else deleteBatchLoop paths None p w.

End DeleteBatch.

(** ** config.go: defaults *)

Definition DefaultIntegrationName : string := "omnivault-onepassword".
Definition DefaultIntegrationVersion : string := "0.1.0".

(** [withDefaults]; the SDK's secure-note category, which [CategorySecureNote]
    re-exports, is the parameter [secureNote]. *)
Definition withDefaults (secureNote : string) (c : Config) : Config :=
  {| ServiceAccountToken := ServiceAccountToken c;
     IntegrationName :=
       if decide (IntegrationName c = "") then DefaultIntegrationName
       else IntegrationName c;
     IntegrationVersion :=
       if decide (IntegrationVersion c = "") then DefaultIntegrationVersion
       else IntegrationVersion c;
     DefaultVaultID := DefaultVaultID c;
     DefaultVaultName := DefaultVaultName c;
     DefaultCategory :=
       if decide (DefaultCategory c = "") then secureNote else DefaultCategory c;
     CacheTTL := CacheTTL c;
     Logger := Logger c |}.

(** Every identifier the cache gives is itself a key of the cache. *)
Definition cacheClosed (c : gmap string string) : Prop :=
  forall k v, c !! k = Some v -> is_Some (c !! v).

(** The same error, reported for another path. *)
Definition rePath (path : string) (e : vault.VaultError) : vault.VaultError :=
  vault.NewVaultError (vault.Op e) path (vault.Provider e) (vault.Err e).

(** ** batch.go: SetBatch *)

(** The order in which the runtime enumerates a map of records in a
    [range] loop: unspecified, some enumeration of its entries. *)
Class SecretRange := {
  secretOrder : gmap string vault.Secret -> list (string * vault.Secret);
  secretOrder_perm : forall m, secretOrder m ≡ₚ map_to_list m
}.

Section SetBatch.
Context {B : Type} `{op.Client B} `{MapRange} `{SecretRange}.

(** The entry loop of [SetBatch]. *)
Fixpoint setBatchLoop (entries : list (string * vault.Secret))
    (lastErr : option vault.VaultError) (p : Provider) (w : World B)
    : option vault.VaultError * Provider * World B :=
  match entries with
  | [] => (lastErr, p, w)
  | entry :: rest =>
      let '(e, p, w) := Set_ entry.1 entry.2 p w in
      match e with
      | Some err => setBatchLoop rest (Some err) p w
      | None => setBatchLoop rest lastErr p w
      end
  end.

(** [SetBatch]; the values of the map are records (none is a nil
    pointer), as for [Set]. *)
Definition SetBatch (secrets : gmap string vault.Secret) (p : Provider) (w : World B)
    : option vault.VaultError * Provider * World B :=
  if closed p then
    (Some (vault.NewVaultError "SetBatch" "" ProviderName vault.ErrClosed), p, w)
  else setBatchLoop (secretOrder secrets) None p w.

End SetBatch.

(** One admissible order: the one of [map_to_list]. *)
#[export] Instance sortedSecrets : SecretRange :=
  {| secretOrder := map_to_list; secretOrder_perm := fun m => reflexivity _ |}.

(** ** Every method that works on the provider's state *)

(** The operations of the state machine and the two batch writes. *)
Inductive method :=
| Single (o : operation)
| MSetBatch (secrets : gmap string vault.Secret)
| MDeleteBatch (paths : list string).

Section Methods.
Context {B : Type} `{op.Client B} `{MapRange} `{SecretRange}.

(** One call of a method. *)
Definition invoke (m : method) (p : Provider) (w : World B)
    : outcome * Provider * World B :=
  match m with
  | Single o => step o p w
  | MSetBatch secrets => let '(e, p, w) := SetBatch secrets p w in (RError e, p, w)
  | MDeleteBatch paths => let '(e, p, w) := DeleteBatch paths p w in (RError e, p, w)
  end.

(** A sequence of calls. *)
Fixpoint invokeAll (ms : list method) (p : Provider) (w : World B)
    : list outcome * Provider * World B :=
  match ms with
  | [] => ([], p, w)
  | m :: rest =>
      let '(r, p, w) := invoke m p w in
      let '(rs, p, w) := invokeAll rest p w in
      (r :: rs, p, w)
  end.

End Methods.

(** ** Notions used to state what List returns *)

(** [List] looks into the vault [v] for the prefix [pre]: the prefix is
    empty, or it is a prefix of the vault's title, or it starts with the
    title and a slash. *)
Definition vaultInScope (pre : string) (v : op.VaultOverview.t) : bool :=
  bool_decide (pre = "") || strings.HasPrefix (op.VaultOverview.Title v) pre ||
  strings.HasPrefix pre (op.VaultOverview.Title v ++ "/").

Section Listing.
Context {B : Type} `{op.Client B}.

(** The store after the items of the vaults [ids] have been listed, one
    vault after the other. *)
Definition afterListings (ids : list string) (b : B) : B :=
  fold_left (fun b id => (op.ItemsListAll id b).2) ids b.

(** The items the store [b] lists for the vault [v]: those its iterator
    yields, when the listing can be started. *)
Definition itemsListed (b : B) (v : op.VaultOverview.t) : option (list op.ItemOverview.t) :=
  match (op.ItemsListAll (op.VaultOverview.ID v) b).1 with
  | Ok (items, _) => Some items
  | Err _ => None
  end.

(** The vault is in scope and its items can be listed. *)
Definition vaultListed (pre : string) (b : B) (v : op.VaultOverview.t) : bool :=
  vaultInScope pre v &&
  match itemsListed b v with Some _ => true | None => false end.

(** The paths of the vault [v] for the prefix [pre]: [title/item] for the
    items listed, those that start with the prefix. *)
Definition listedPaths (pre : string) (b : B) (v : op.VaultOverview.t) : list string :=
  if vaultInScope pre v then
    match itemsListed b v with
    | Some items =>
        List.filter (fun path => bool_decide (pre = "") || strings.HasPrefix path pre)
          (map (fun item => (op.VaultOverview.Title v ++ "/" ++ op.ItemOverview.Title item)%string)
               items)
    | None => []
    end
  else [].

(** The path [r] is [title/item], starting with the prefix when one is
    given, for a vault [v] of [vs] that is in scope and an item that the
    store lists for [v] in the state it is in when the loop of [List]
    comes to [v]: after the listings of the vaults in scope among [seen]
    and among those before [v] in [vs]. *)
Definition listedIn (pre : string) (b : B) (seen vs : list op.VaultOverview.t)
    (r : string) : Prop :=
  exists mid v post items item,
    vs = (mid ++ v :: post)%list /\ vaultInScope pre v = true /\
    itemsListed
      (afterListings (map op.VaultOverview.ID (List.filter (vaultInScope pre) (seen ++ mid))) b)
      v = Some items /\
    In item items /\
    r = (op.VaultOverview.Title v ++ "/" ++ op.ItemOverview.Title item)%string /\
    (pre = "" \/ strings.HasPrefix r pre = true).

End Listing.

(** * Properties *)

Local Open Scope string_scope.

(** ** Byte strings *)

Lemma HasPrefix_app (pre r : string) : strings.HasPrefix (pre ++ r) pre = true.
Proof.
  induction pre as [|a pre IH]; simpl; [done|].
  rewrite Ascii.eqb_refl. exact IH.
Qed.

Lemma HasPrefix_inv (s pre : string) :
  strings.HasPrefix s pre = true -> exists r, s = pre ++ r.
Proof.
  revert s. induction pre as [|a pre IH]; intros s Hp; simpl in *.
  - by exists s.
  - destruct s as [|b s]; [done|].
    apply andb_true_iff in Hp as [Hab Hp].
    apply Ascii.eqb_eq in Hab as ->.
    destruct (IH _ Hp) as [r ->]. by exists r.
Qed.

Lemma Split_nonnil (s : string) (sep : ascii) : strings.Split s sep <> [].
Proof.
  induction s as [|c s IH]; simpl; [done|].
  destruct (Ascii.eqb c sep); [done|].
  by destruct (strings.Split s sep).
Qed.

Lemma Split_noSep (s : string) (sep : ascii) :
  hasByte sep s = false -> strings.Split s sep = [s].
Proof.
  induction s as [|c s IH]; simpl; [done|].
  intros Hb. apply orb_false_iff in Hb as [Hc Hs].
  rewrite Hc, (IH Hs). done.
Qed.

Lemma Split_piece (c : string) (sep : ascii) (rest : string) :
  hasByte sep c = false ->
  strings.Split (c ++ String sep rest) sep = c :: strings.Split rest sep.
Proof.
  induction c as [|a c IH]; simpl.
  - intros _. by rewrite Ascii.eqb_refl.
  - intros Hb. apply orb_false_iff in Hb as [Ha Hc].
    rewrite Ha, (IH Hc). done.
Qed.

Lemma Split_reference (r : string) :
  strings.Split ("op://" ++ r) slash = "op:" :: "" :: strings.Split r slash.
Proof. reflexivity. Qed.

Lemma app_nonempty (a b : string) : a <> "" -> (a ++ b)%string <> "".
Proof. by destruct a. Qed.

(** A path whose first piece is slash-free and whose second piece is not
    empty is not a reference URI. *)
Lemma plain_not_reference (a tail : string) :
  hasByte slash a = false ->
  (exists h t, strings.Split tail slash = h :: t /\ h <> "") ->
  strings.HasPrefix (a ++ String slash tail) "op://" = false.
Proof.
  intros Ha (h & t & Ht & Hh).
  destruct (strings.HasPrefix _ _) eqn:Hp; [|done].
  apply HasPrefix_inv in Hp as [r Hr].
  apply (f_equal (fun s => strings.Split s slash)) in Hr.
  rewrite Split_reference, Split_piece, Ht in Hr by done.
  congruence.
Qed.

(** ** The path grammar *)

Lemma segments_two (X Y : string) :
  X <> "" -> Y <> "" -> hasByte slash X = false -> hasByte slash Y = false ->
  filterNonEmpty (strings.Split (X ++ "/" ++ Y) slash) = [X; Y].
Proof.
  intros HX HY HXs HYs.
  change (X ++ "/" ++ Y)%string with (X ++ String slash Y)%string.
  rewrite Split_piece, Split_noSep by done. simpl.
  by rewrite !decide_False.
Qed.

Lemma segments_three (C I F : string) :
  C <> "" -> I <> "" -> F <> "" ->
  hasByte slash C = false -> hasByte slash I = false -> hasByte slash F = false ->
  filterNonEmpty (strings.Split (C ++ "/" ++ I ++ "/" ++ F) slash) = [C; I; F].
Proof.
  intros HC HI HF HCs HIs HFs.
  change (C ++ "/" ++ I ++ "/" ++ F)%string
    with (C ++ String slash (I ++ String slash F))%string.
  rewrite !Split_piece, Split_noSep by done. simpl.
  by rewrite !decide_False.
Qed.

(** C1.  A plain path whose non-empty segments are exactly [X] and [Y] is
    read as item [X], field [Y] of the default vault when a default vault
    is configured, and as vault [X], item [Y] (no field) when none is: the
    reading depends on the default only.  The literal path [X/Y] with
    slash-free, non-empty [X] and [Y] is such a path. *)
Theorem ParsePath_two_segments (path defaultVault X Y : string) :
  strings.HasPrefix path "op://" = false ->
  filterNonEmpty (strings.Split path slash) = [X; Y] ->
  (defaultVault <> "" ->
     ParsePath path defaultVault = Ok (ParsedPath.mk defaultVault X "" Y)) /\
  (defaultVault = "" ->
     ParsePath path defaultVault = Ok (ParsedPath.mk X Y "" "")) /\
  (X <> "" -> Y <> "" -> hasByte slash X = false -> hasByte slash Y = false ->
     strings.HasPrefix (X ++ "/" ++ Y) "op://" = false /\
     filterNonEmpty (strings.Split (X ++ "/" ++ Y) slash) = [X; Y]).
Proof.
  intros Hplain Hseg.
  assert (Hne : path <> "") by (intros ->; discriminate Hseg).
  unfold ParsePath. rewrite decide_False, Hplain, Hseg by done.
  split; [|split].
  - intros Hd. by rewrite decide_False.
  - intros Hd. by rewrite decide_True.
  - intros HX HY HXs HYs. split; [|by apply segments_two].
    apply (plain_not_reference X Y); [done|].
    exists Y, []. by rewrite Split_noSep.
Qed.

Lemma ParsePath_two_segments_witness :
  strings.HasPrefix "API Keys/token" "op://" = false /\
  filterNonEmpty (strings.Split "API Keys/token" slash) = ["API Keys"; "token"] /\
  ParsePath "API Keys/token" "Private" = Ok (ParsedPath.mk "Private" "API Keys" "" "token") /\
  ParsePath "API Keys/token" "" = Ok (ParsedPath.mk "API Keys" "token" "" "").
Proof.
  split; [reflexivity|]. split; [reflexivity|].
  destruct (ParsePath_two_segments "API Keys/token" "Private" "API Keys" "token")
    as (Hd & _ & _); [reflexivity|reflexivity|].
  destruct (ParsePath_two_segments "API Keys/token" "" "API Keys" "token")
    as (_ & Hn & _); [reflexivity|reflexivity|].
  split; [apply Hd; discriminate | apply Hn; reflexivity].
Defined.

(** C9.  A path [C/I/F] of three non-empty, slash-free segments parses,
    under any default vault, to vault [C], item [I], field [F] and no
    section, and the canonical string of the parsed path is [C/I/F]
    again. *)
Theorem ParsePath_three_segments_roundtrip (C I F defaultVault : string) :
  C <> "" -> I <> "" -> F <> "" ->
  hasByte slash C = false -> hasByte slash I = false -> hasByte slash F = false ->
  exists parsed,
    ParsePath (C ++ "/" ++ I ++ "/" ++ F) defaultVault = Ok parsed /\
    parsed = ParsedPath.mk C I "" F /\
    ParsedPath.String parsed = (C ++ "/" ++ I ++ "/" ++ F)%string.
Proof.
  intros HC HI HF HCs HIs HFs.
  exists (ParsedPath.mk C I "" F). split; [|split; [done|]].
  - unfold ParsePath.
    rewrite decide_False by by apply app_nonempty.
    change (C ++ "/" ++ I ++ "/" ++ F)%string
      with (C ++ String slash (I ++ String slash F))%string.
    rewrite plain_not_reference;
      [|done|exists I, (strings.Split F slash); by rewrite Split_piece].
    change (C ++ String slash (I ++ String slash F))%string
      with (C ++ "/" ++ I ++ "/" ++ F)%string.
    by rewrite segments_three.
  - unfold ParsedPath.String. simpl.
    by rewrite !decide_False.
Qed.

Lemma ParsePath_three_segments_roundtrip_witness :
  exists parsed,
    ParsePath "Private/API Keys/token" "Default" = Ok parsed /\
    parsed = ParsedPath.mk "Private" "API Keys" "" "token" /\
    ParsedPath.String parsed = "Private/API Keys/token".
Proof.
  apply (ParsePath_three_segments_roundtrip "Private" "API Keys" "token" "Default");
    first [discriminate | reflexivity].
Defined.

(** ** The error normaliser *)

Lemma Contains_unfold (s sub : string) :
  strings.Contains s sub =
  strings.HasPrefix s sub ||
  match s with EmptyString => false | String _ s' => strings.Contains s' sub end.
Proof. by destruct s. Qed.

Lemma Contains_spec (s sub : string) :
  strings.Contains s sub = true <-> exists pre post, s = pre ++ sub ++ post.
Proof.
  split.
  - induction s as [|c s IH]; simpl; intros Hc.
    + rewrite orb_false_r in Hc. apply HasPrefix_inv in Hc as [r ->].
      by exists "", r.
    + apply orb_true_iff in Hc as [Hp|Hc].
      * apply HasPrefix_inv in Hp as [r ->]. by exists "", r.
      * destruct (IH Hc) as (pre & post & ->). by exists (String c pre), post.
  - intros (pre & post & ->). induction pre as [|c pre IH].
    + change ("" ++ sub ++ post) with (sub ++ post).
      by rewrite Contains_unfold, HasPrefix_app.
    + simpl. rewrite IH. apply orb_true_r.
Qed.

Lemma ToLower_app (a b : string) :
  strings.ToLower (a ++ b) = strings.ToLower a ++ strings.ToLower b.
Proof. induction a as [|c a IH]; simpl; [done|]. by rewrite IH. Qed.

Lemma ToLower_split (s a b : string) :
  strings.ToLower s = a ++ b ->
  exists s1 s2, s = s1 ++ s2 /\ strings.ToLower s1 = a /\ strings.ToLower s2 = b.
Proof.
  revert s. induction a as [|c a IH]; intros s Hs.
  - by exists "", s.
  - destruct s as [|d s]; [done|]. simpl in Hs. injection Hs as Hd Hs.
    destruct (IH _ Hs) as (s1 & s2 & -> & H1 & H2).
    exists (String d s1), s2. simpl. by rewrite Hd, H1.
Qed.

Lemma ToLower_idem (s : string) : strings.ToLower (strings.ToLower s) = strings.ToLower s.
Proof.
  induction s as [|c s IH]; simpl; [done|]. rewrite IH. f_equal.
  unfold strings.lowerByte.
  destruct ((65 <=? nat_of_ascii c)%nat && (nat_of_ascii c <=? 90)%nat) eqn:Hc.
  - apply andb_true_iff in Hc as [H1 H2].
    apply Nat.leb_le in H1, H2.
    rewrite nat_ascii_embedding by lia.
    replace ((65 <=? nat_of_ascii c + 32)%nat && (nat_of_ascii c + 32 <=? 90)%nat)
      with false; [done|].
    symmetry. apply andb_false_iff. right. apply Nat.leb_gt. lia.
  - by rewrite Hc.
Qed.

Lemma containsFold_spec (s pat : string) :
  strings.Contains (strings.ToLower s) (strings.ToLower pat) = true <-> occursIn pat s.
Proof.
  rewrite Contains_spec. split.
  - intros (pre & post & Hs).
    apply ToLower_split in Hs as (s1 & s23 & -> & H1 & H23).
    apply ToLower_split in H23 as (s2 & s3 & -> & H2 & H3).
    by exists s1, s2, s3.
  - intros (pre & mid & post & -> & Hm).
    exists (strings.ToLower pre), (strings.ToLower post).
    by rewrite !ToLower_app, Hm.
Qed.

Lemma containsAny_spec (s : string) (pats : list string) :
  containsAny s pats = true <-> occursAny pats s.
Proof.
  unfold containsAny, occursAny. rewrite existsb_exists.
  split; intros (pat & Hin & Hc); exists pat; (split; [done|]);
    by apply containsFold_spec.
Qed.

Lemma containsAny_false (s : string) (pats : list string) :
  containsAny s pats = false <-> ~ occursAny pats s.
Proof.
  rewrite <- containsAny_spec. by destruct (containsAny s pats).
Qed.

(** C5, as stated, fails: the text ["field not found"] contains one of the
    worded substrings, and the normaliser does not classify it as NotFound
    (it returns the original error, wrapped). *)
Lemma mapErr_worded_not_found_counterexample :
  ~ (forall operation path err,
       occursAny wordedNotFoundPatterns (Error err) ->
       vault.Err (mapErr operation path err) = vault.ErrSecretNotFound).
Proof.
  intros Hclaim.
  specialize (Hclaim "Get" "V/I/f" (errorString "field not found")).
  assert (Hocc : occursAny wordedNotFoundPatterns "field not found").
  { exists "field not found". split; [simpl; tauto|].
    by exists "", "field not found", "". }
  specialize (Hclaim Hocc). vm_compute in Hclaim. discriminate Hclaim.
Qed.

(** C5, amended.  The normaliser classifies by case-insensitive substring
    match, the classes tested in order: a text containing one of
    "itemNotFound", "vaultNotFound", "fieldNotFound", "noMatchingSections",
    "item not found", "vault not found" is NotFound; else one containing
    "unauthorized", "forbidden", "access denied", "AccessDenied",
    "invalid service account token" or "authentication failed" is
    AccessDenied; else one containing "tooManyVaults", "tooManyItems" or
    "tooManyMatchingFields" is the ambiguous-path error; a text matching
    none is returned as the original error, wrapped unchanged.  Every result
    carries the operation, the path and the provider name.  That a text
    contains none of the substrings of a class is meant byte-wise, letter
    case of [A-Z] apart: the three later cases are therefore stated for ASCII
    error texts, where this is what the Go function tests. *)
Theorem mapErr_classification (operation path : string) (err : error) :
  vault.Op (mapErr operation path err) = operation /\
  vault.Path (mapErr operation path err) = path /\
  vault.Provider (mapErr operation path err) = ProviderName /\
  (occursAny ["itemNotFound"; "vaultNotFound"; "fieldNotFound";
              "noMatchingSections"; "item not found"; "vault not found"] (Error err) ->
     vault.Err (mapErr operation path err) = vault.ErrSecretNotFound) /\
  (strings.isASCII (Error err) = true ->
   (~ occursAny notFoundPatterns (Error err) ->
    occursAny ["unauthorized"; "forbidden"; "access denied"; "AccessDenied";
               "invalid service account token"; "authentication failed"] (Error err) ->
      vault.Err (mapErr operation path err) = vault.ErrAccessDenied) /\
   (~ occursAny notFoundPatterns (Error err) ->
    ~ occursAny accessDeniedPatterns (Error err) ->
    occursAny ["tooManyVaults"; "tooManyItems"; "tooManyMatchingFields"] (Error err) ->
      vault.Err (mapErr operation path err) = vault.Wrapped errAmbiguous) /\
   (~ occursAny notFoundPatterns (Error err) ->
    ~ occursAny accessDeniedPatterns (Error err) ->
    ~ occursAny ambiguousPatterns (Error err) ->
      vault.Err (mapErr operation path err) = vault.Wrapped err)).
Proof.
  unfold mapErr, notFoundPatterns, accessDeniedPatterns, ambiguousPatterns.
  split; [|split; [|split]];
    try by repeat (destruct (containsAny _ _)).
  split.
  - intros Hnf. apply containsAny_spec in Hnf. by rewrite Hnf.
  - intros _. repeat split.
    + intros Hn Had. apply containsAny_false in Hn. apply containsAny_spec in Had.
      by rewrite Hn, Had.
    + intros Hn Had Ham.
      apply containsAny_false in Hn, Had. apply containsAny_spec in Ham.
      by rewrite Hn, Had, Ham.
    + intros Hn Had Ham. apply containsAny_false in Hn, Had, Ham.
      by rewrite Hn, Had, Ham.
Qed.

Lemma mapErr_classification_witness :
  (occursAny notFoundPatterns "rpc error: FieldNotFound" /\
   vault.Err (mapErr "Get" "V/I/f" (errorString "rpc error: FieldNotFound"))
   = vault.ErrSecretNotFound) /\
  (strings.isASCII "connection reset by peer" = true /\
   ~ occursAny notFoundPatterns "connection reset by peer" /\
   ~ occursAny accessDeniedPatterns "connection reset by peer" /\
   ~ occursAny ambiguousPatterns "connection reset by peer" /\
   vault.Err (mapErr "Get" "V/I/f" (errorString "connection reset by peer"))
   = vault.Wrapped (errorString "connection reset by peer")).
Proof.
  assert (Hocc : occursAny notFoundPatterns "rpc error: FieldNotFound").
  { exists "fieldNotFound". split; [simpl; tauto|].
    by exists "rpc error: ", "FieldNotFound", "". }
  assert (Hnf : ~ occursAny notFoundPatterns "connection reset by peer")
    by (by apply containsAny_false).
  assert (Had : ~ occursAny accessDeniedPatterns "connection reset by peer")
    by (by apply containsAny_false).
  assert (Ham : ~ occursAny ambiguousPatterns "connection reset by peer")
    by (by apply containsAny_false).
  split.
  - split; [exact Hocc|].
    destruct (mapErr_classification "Get" "V/I/f" (errorString "rpc error: FieldNotFound"))
      as (_ & _ & _ & Hfound & _).
    exact (Hfound Hocc).
  - split; [reflexivity|]. split; [exact Hnf|]. split; [exact Had|]. split; [exact Ham|].
    destruct (mapErr_classification "Get" "V/I/f" (errorString "connection reset by peer"))
      as (_ & _ & _ & _ & Hascii).
    destruct (Hascii eq_refl) as (_ & _ & Hnone).
    exact (Hnone Hnf Had Ham).
Defined.

(** ** Record conversion: the primary value *)

Lemma scanFields_snoc (fs : list op.ItemField.t) (f : op.ItemField.t) :
  scanFields (fs ++ [f]) = scanStep (scanFields fs) f.
Proof. unfold scanFields. by rewrite fold_left_app. Qed.

Lemma sValue_scan (fs : list op.ItemField.t) :
  sValue (scanFields fs) = passwordValue fs.
Proof.
  induction fs as [|f fs IH] using rev_ind; [done|].
  rewrite scanFields_snoc. unfold passwordValue.
  rewrite rev_app_distr. simpl. unfold isPassword at 1.
  destruct (decide (strings.ToLower (fieldName f) = "password")) as [Hp|Hp].
  - by rewrite bool_decide_eq_true_2.
  - rewrite bool_decide_eq_false_2 by done. exact IH.
Qed.

Lemma concealedValue_snoc (fs : list op.ItemField.t) (f : op.ItemField.t) :
  concealedValue (fs ++ [f]) =
  if bool_decide (concealedValue fs = "") && isConcealedField f
  then fieldValue f else concealedValue fs.
Proof.
  unfold concealedValue. induction fs as [|g fs IH]; simpl.
  - destruct (isConcealedField f); simpl; [|done].
    destruct (decide (fieldValue f = "")) as [He|He].
    + rewrite bool_decide_eq_true_2 by done. simpl. by rewrite He.
    + by rewrite bool_decide_eq_false_2.
  - destruct (isConcealedField g) eqn:Hg; simpl; [|exact IH].
    destruct (decide (fieldValue g = "")) as [He|He].
    + rewrite bool_decide_eq_true_2 by done. simpl. exact IH.
    + rewrite (bool_decide_eq_false_2 (fieldValue g = "")) by done. simpl.
      by rewrite bool_decide_eq_false_2.
Qed.

Lemma sFirstConcealed_scan (fs : list op.ItemField.t) :
  sFirstConcealed (scanFields fs) = concealedValue fs.
Proof.
  induction fs as [|f fs IH] using rev_ind; [done|].
  rewrite scanFields_snoc, concealedValue_snoc. simpl. by rewrite IH.
Qed.

Lemma sFields_scan (fs : list op.ItemField.t) :
  sFields (scanFields fs) = fieldMap fs.
Proof.
  induction fs as [|f fs IH] using rev_ind; [done|].
  rewrite scanFields_snoc. unfold fieldMap. rewrite fold_left_app. simpl.
  by rewrite IH.
Qed.

Lemma firstNonEmpty_In (entries : list (string * string)) :
  firstNonEmpty entries <> "" ->
  exists k, In (k, firstNonEmpty entries) entries.
Proof.
  induction entries as [|[k v] entries IH]; simpl; [done|].
  destruct (decide (v = "")) as [->|Hv].
  - intros Hne. destruct (IH Hne) as [k' Hk']. eauto.
  - intros _. eauto.
Qed.

Lemma firstNonEmpty_empty (entries : list (string * string)) :
  firstNonEmpty entries = "" -> forall k v, In (k, v) entries -> v = "".
Proof.
  induction entries as [|[k v] entries IH]; simpl; [done|].
  destruct (decide (v = "")) as [->|Hv].
  - intros He k' v' [[= <- <-]|Hin]; [done|]. by eapply IH.
  - done.
Qed.

Section PrimaryValue.
Context `{MapRange}.

Lemma rangeOrder_lookup (m : gmap string string) (k v : string) :
  In (k, v) (rangeOrder m) <-> m !! k = Some v.
Proof.
  rewrite <- list_elem_of_In, rangeOrder_perm. apply elem_of_map_to_list.
Qed.

Lemma itemToSecret_value (item : op.Item.t) (path : string) :
  vault.Value (itemToSecret item path) =
  if decide (passwordValue (op.Item.Fields item) = "") then
    if decide (concealedValue (op.Item.Fields item) = "") then
      firstNonEmpty (rangeOrder (fieldMap (op.Item.Fields item)))
    else concealedValue (op.Item.Fields item)
  else passwordValue (op.Item.Fields item).
Proof.
  unfold itemToSecret. simpl.
  rewrite sValue_scan, sFirstConcealed_scan, sFields_scan.
  destruct (decide (passwordValue (op.Item.Fields item) = "")) as [Hp|Hp];
    destruct (decide (concealedValue (op.Item.Fields item) = "")) as [Hc|Hc];
    repeat (case_bool_decide; simpl in * ); try congruence.
  match goal with Hs : size _ = 0%nat |- _ => apply map_size_empty_iff in Hs end.
  destruct (rangeOrder (fieldMap (op.Item.Fields item))) as [|[k v] l] eqn:Hr;
    [by rewrite Hp|].
  assert (Hin : In (k, v) (rangeOrder (fieldMap (op.Item.Fields item))))
    by (rewrite Hr; by left).
  apply rangeOrder_lookup in Hin.
  match goal with Hs : fieldMap _ = ∅ |- _ => by rewrite Hs in Hin end.
Qed.

End PrimaryValue.

Lemma passwordValue_last (pre post : list op.ItemField.t) (f : op.ItemField.t) :
  isPassword f = true ->
  (forall g, In g post -> isPassword g = false) ->
  passwordValue (pre ++ f :: post) = fieldValue f.
Proof.
  intros Hf Hpost. unfold passwordValue.
  rewrite rev_app_distr. simpl. rewrite <- app_assoc. simpl.
  assert (Hrev : forall g, In g (rev post) -> isPassword g = false)
    by (intros g Hg; apply Hpost; by apply in_rev).
  induction (rev post) as [|g l IH]; simpl.
  - by rewrite Hf.
  - rewrite (Hrev g) by (by left). apply IH. intros g' Hg'. apply Hrev. by right.
Qed.

Lemma passwordValue_none (fs : list op.ItemField.t) :
  (forall g, In g fs -> isPassword g = false) -> passwordValue fs = "".
Proof.
  intros Hfs. unfold passwordValue.
  destruct (find isPassword (rev fs)) as [f|] eqn:Hfind; [|done].
  apply find_some in Hfind as [Hin Hp].
  apply in_rev in Hin. by rewrite (Hfs f Hin) in Hp.
Qed.

Lemma concealedValue_first (pre post : list op.ItemField.t) (f : op.ItemField.t) :
  isConcealedField f = true -> fieldValue f <> "" ->
  (forall g, In g pre -> isConcealedField g = true -> fieldValue g = "") ->
  concealedValue (pre ++ f :: post) = fieldValue f.
Proof.
  intros Hf Hv Hpre. unfold concealedValue.
  induction pre as [|g pre IH]; simpl.
  - by rewrite Hf, bool_decide_eq_false_2.
  - destruct (isConcealedField g) eqn:Hg; simpl.
    + rewrite (bool_decide_eq_true_2 (fieldValue g = "")) by (apply Hpre; [by left|done]).
      simpl. apply IH. intros g' Hg'. apply Hpre. by right.
    + apply IH. intros g' Hg'. apply Hpre. by right.
Qed.

Lemma concealedValue_none (fs : list op.ItemField.t) :
  (forall g, In g fs -> isConcealedField g = true -> fieldValue g = "") ->
  concealedValue fs = "".
Proof.
  intros Hfs. unfold concealedValue.
  destruct (find _ fs) as [f|] eqn:Hfind; [|done].
  apply find_some in Hfind as [Hin Hp].
  apply andb_true_iff in Hp as [Hc Hv].
  rewrite (Hfs f Hin Hc) in Hv. by rewrite bool_decide_eq_true_2 in Hv.
Qed.

(** C6, as stated, fails: an item can have a field named "password" and
    yet get a primary value that is the value of no field of that name. *)
Lemma itemToSecret_password_first_counterexample :
  ~ (forall item path,
       (exists f, In f (op.Item.Fields item) /\ isPassword f = true) ->
       exists f, In f (op.Item.Fields item) /\ isPassword f = true /\
                 vault.Value (@itemToSecret sortedRange item path) = fieldValue f).
Proof.
  intros Hclaim.
  destruct (Hclaim emptyPasswordItem "V/Login") as (f & Hin & Hp & Hv).
  - eexists. split; [by left|]. reflexivity.
  - destruct Hin as [<-|[<-|[]]]; vm_compute in Hv, Hp; discriminate.
Qed.

(** C6, amended.  The field map of the converted record holds every field
    under its name, and its primary value is: (1) the value of the last
    field named "password" (letter case apart) when that value is not
    empty; (2) otherwise the value of the first concealed field whose value
    is not empty; (3) otherwise a non-empty value of the field map, the
    first in the runtime's enumeration order, and empty only when every
    value of the map is empty.  An item with fields username "u" and
    password "p" gets "p"; an item with the single text field notes "n"
    gets "n". *)
Theorem itemToSecret_primary_value `{MapRange} (item : op.Item.t) (path : string) :
  let fs := op.Item.Fields item in
  let secret := itemToSecret item path in
  vault.Fields secret = fieldMap fs /\
  (passwordValue fs <> "" -> vault.Value secret = passwordValue fs) /\
  (passwordValue fs = "" -> concealedValue fs <> "" ->
     vault.Value secret = concealedValue fs) /\
  (passwordValue fs = "" -> concealedValue fs = "" ->
     vault.Value secret = firstNonEmpty (rangeOrder (fieldMap fs)) /\
     (vault.Value secret <> "" ->
        exists name, fieldMap fs !! name = Some (vault.Value secret)) /\
     (vault.Value secret = "" ->
        forall name v, fieldMap fs !! name = Some v -> v = "")) /\
  (forall t1 t2 id cat vid tags ver,
     vault.Value (itemToSecret
       (op.Item.mk id "Login" cat vid
          [op.ItemField.mk "username" "username" t1 "u" None;
           op.ItemField.mk "password" "password" t2 "p" None] tags ver) path) = "p") /\
  (forall id cat vid tags ver,
     vault.Value (itemToSecret
       (op.Item.mk id "Note" cat vid
          [op.ItemField.mk "notes" "notes" op.ItemFieldTypeText "n" None] tags ver) path) = "n").
Proof.
  intros fs secret. subst secret.
  split; [apply sFields_scan|].
  split; [intros Hp; rewrite itemToSecret_value; by rewrite decide_False|].
  split; [intros Hp Hc; rewrite itemToSecret_value;
          by rewrite decide_True, decide_False|].
  split.
  - intros Hp Hc.
    assert (Hv : vault.Value (itemToSecret item path)
                 = firstNonEmpty (rangeOrder (fieldMap fs)))
      by (rewrite itemToSecret_value; by rewrite !decide_True).
    split; [exact Hv|]. rewrite Hv. split.
    + intros Hne. destruct (firstNonEmpty_In _ Hne) as [k Hk].
      exists k. by apply rangeOrder_lookup.
    + intros He name v Hl. apply rangeOrder_lookup in Hl.
      by eapply firstNonEmpty_empty.
  - split.
    + intros. rewrite itemToSecret_value. simpl.
      replace (passwordValue _) with "p"; [done|].
      unfold passwordValue. simpl. unfold fieldValue. simpl.
      by destruct t2.
    + intros. rewrite itemToSecret_value. simpl.
      set (m := fieldMap _).
      assert (Hm : m = {[ "notes" := "n" ]}) by reflexivity.
      assert (Hr : rangeOrder m = [("notes", "n")]).
      { apply Permutation_singleton_r. rewrite rangeOrder_perm, Hm.
        by rewrite map_to_list_singleton. }
      by rewrite Hr.
Qed.

Lemma itemToSecret_primary_value_witness :
  passwordValue (op.Item.Fields emptyPasswordItem) = "" /\
  concealedValue (op.Item.Fields emptyPasswordItem) <> "" /\
  vault.Value (@itemToSecret sortedRange emptyPasswordItem "V/Login") = "t".
Proof.
  split; [reflexivity|]. split; [discriminate|].
  destruct (@itemToSecret_primary_value sortedRange emptyPasswordItem "V/Login")
    as (_ & _ & Hc & _).
  rewrite Hc; [reflexivity|reflexivity|discriminate].
Defined.

(** ** The provider: what an operation can change *)

Ltac break_let :=
  match goal with
  | |- context [let '(_, _) := ?x in _] => destruct x as [? ?] eqn:?
  | |- context [match ?x with _ => _ end] => destruct x eqn:?
  end.

Lemma extends_refl (p : Provider) : extends p p.
Proof. by repeat split. Qed.

Lemma extends_trans (p q r : Provider) : extends p q -> extends q r -> extends p r.
Proof.
  intros (Hc1 & Hk1 & Hd1) (Hc2 & Hk2 & Hd2).
  repeat split; [congruence|congruence|set_solver].
Qed.

Lemma cacheVaultID_extends (name id : string) (p : Provider) :
  extends p (cacheVaultID name id p).
Proof.
  repeat split. simpl. rewrite !dom_insert. set_solver.
Qed.

Lemma resolveVaultLoop_extends (n : string) (vs : list op.VaultOverview.t)
    (stop : option error) (p : Provider) :
  extends p (resolveVaultLoop n vs stop p).2.
Proof.
  revert p. induction vs as [|v vs IH]; intros p; simpl.
  - destruct stop; apply extends_refl.
  - destruct (_ || _); simpl.
    + apply cacheVaultID_extends.
    + eapply extends_trans; [apply cacheVaultID_extends|apply IH].
Qed.

Section ProviderFacts.
Context {B : Type} `{op.Client B} `{MapRange}.

Lemma resolveVaultID_extends (n : string) (p : Provider) (w : World B) :
  extends p (resolveVaultID n p w).1.2.
Proof.
  unfold resolveVaultID. repeat break_let; simpl; try apply extends_refl.
  match goal with
  | E : resolveVaultLoop ?n ?vs ?stop ?p = (_, ?p') |- _ =>
      pose proof (resolveVaultLoop_extends n vs stop p) as Hx; by rewrite E in Hx
  end.
Qed.

Lemma getItem_extends (parsed : ParsedPath.t) (p : Provider) (w : World B) :
  extends p (getItem parsed p w).1.2.
Proof.
  unfold getItem.
  pose proof (resolveVaultID_extends (ParsedPath.Vault parsed) p w) as Hx.
  destruct (resolveVaultID _ p w) as [[r p1] w1]. simpl in Hx.
  repeat break_let; simpl; done.
Qed.

Lemma Get_extends (path : string) (p : Provider) (w : World B) :
  extends p (Get path p w).1.2.
Proof.
  unfold Get. repeat break_let; simpl; try apply extends_refl.
  apply getItem_extends.
Qed.

Lemma Set_extends (path : string) (secret : vault.Secret) (p : Provider) (w : World B) :
  extends p (Set_ path secret p w).1.2.
Proof.
  unfold Set_.
  destruct (closed p); [apply extends_refl|].
  destruct (ParsePath _ _) as [parsed|]; [|apply extends_refl].
  pose proof (resolveVaultID_extends (ParsedPath.Vault parsed) p w) as Hx.
  destruct (resolveVaultID _ p w) as [[r p1] w1]. simpl in Hx.
  repeat break_let; simpl; done.
Qed.

Lemma Delete_extends (path : string) (p : Provider) (w : World B) :
  extends p (Delete path p w).1.2.
Proof.
  unfold Delete.
  destruct (closed p); [apply extends_refl|].
  destruct (ParsePath _ _) as [parsed|]; [|apply extends_refl].
  pose proof (resolveVaultID_extends (ParsedPath.Vault parsed) p w) as Hx.
  destruct (resolveVaultID _ p w) as [[r p1] w1]. simpl in Hx.
  repeat break_let; simpl; done.
Qed.

Lemma Exists_extends (path : string) (p : Provider) (w : World B) :
  extends p (Exists path p w).1.2.
Proof.
  unfold Exists.
  destruct (closed p); [apply extends_refl|].
  destruct (ParsePath _ _) as [parsed|]; [|apply extends_refl].
  pose proof (resolveVaultID_extends (ParsedPath.Vault parsed) p w) as Hx.
  destruct (resolveVaultID _ p w) as [[r p1] w1]. simpl in Hx.
  repeat break_let; simpl; done.
Qed.

Lemma listLoop_extends (prefix : string) (vs : list op.VaultOverview.t)
    (stop : option error) (results : list string) (p : Provider) (w : World B) :
  extends p (listLoop prefix vs stop results p w).1.2.
Proof.
  revert results p w. induction vs as [|v vs IH]; intros results p w; simpl.
  - destruct stop; apply extends_refl.
  - destruct (_ && _); [apply IH|].
    destruct (clientItemsListAll _ w) as [[[items stop']|err] w1]; [|apply IH].
    eapply extends_trans; [apply cacheVaultID_extends|apply IH].
Qed.

Lemma List_extends (prefix : string) (p : Provider) (w : World B) :
  extends p (List_ prefix p w).1.2.
Proof.
  unfold List_. repeat break_let; simpl; try apply extends_refl.
  apply listLoop_extends.
Qed.

Lemma getBatchLoop_extends (paths : list string) (results : gmap string vault.Secret)
    (p : Provider) (w : World B) :
  extends p (getBatchLoop paths results p w).1.2.
Proof.
  revert results p w. induction paths as [|path paths IH]; intros results p w; simpl.
  - apply extends_refl.
  - pose proof (Get_extends path p w) as Hx.
    destruct (Get path p w) as [[r p1] w1]. simpl in Hx.
    destruct r; (eapply extends_trans; [exact Hx|apply IH]).
Qed.

Lemma GetBatch_extends (paths : list string) (p : Provider) (w : World B) :
  extends p (GetBatch paths p w).1.2.
Proof.
  unfold GetBatch.
  destruct (closed p); [apply extends_refl|].
  destruct paths as [|path paths]; [apply extends_refl|].
  pose proof (getBatchLoop_extends (path :: paths) ∅ p w) as Hx.
  by destruct (getBatchLoop _ _ p w) as [[r p1] w1].
Qed.

(** Every operation but [Close] keeps the configuration and the flag, and
    keeps every cached key. *)
Lemma step_extends (o : operation) (p : Provider) (w : World B) :
  o <> OpClose -> extends p (step o p w).1.2.
Proof.
  intros Ho. destruct o as [path|path secret|path|path|pre|paths|]; simpl; try done.
  - pose proof (Get_extends path p w) as Hx. by destruct (Get path p w) as [[? ?] ?].
  - pose proof (Set_extends path secret p w) as Hx.
    by destruct (Set_ path secret p w) as [[? ?] ?].
  - pose proof (Delete_extends path p w) as Hx.
    by destruct (Delete path p w) as [[? ?] ?].
  - pose proof (Exists_extends path p w) as Hx.
    by destruct (Exists path p w) as [[? ?] ?].
  - pose proof (List_extends pre p w) as Hx.
    by destruct (List_ pre p w) as [[? ?] ?].
  - pose proof (GetBatch_extends paths p w) as Hx.
    by destruct (GetBatch paths p w) as [[? ?] ?].
Qed.

End ProviderFacts.

(** ** The provider as a state machine *)

Section StateMachine.
Context {B : Type} `{op.Client B} `{MapRange}.

Lemma setClosed_closed (p : Provider) : closed p = true -> setClosed true p = p.
Proof. destruct p as [c m k]. simpl. by intros ->. Qed.

Lemma step_closed (o : operation) (p : Provider) (w : World B) :
  closed p = true -> step o p w = (closedOutcome o, p, w).
Proof.
  intros Hc.
  destruct o as [path|path secret|path|path|pre|paths|]; simpl;
    unfold Get, Set_, Delete, Exists, List_, GetBatch, Close;
    rewrite ?Hc; try done.
  by rewrite setClosed_closed.
Qed.

Lemma run_closed (ops : list operation) (p : Provider) (w : World B) :
  closed p = true -> run ops p w = (map closedOutcome ops, p, w).
Proof.
  intros Hc. induction ops as [|o ops IH]; simpl; [done|].
  by rewrite step_closed, IH.
Qed.

(** C7.  The provider is open or closed.  On a closed provider every
    operation (Get, Set, Delete, Exists, List, also GetBatch) answers the
    Closed error carrying its name and path, without a backend call and
    without a change of state; Close always succeeds and leaves the
    provider closed, whatever its state was; no other operation changes the
    flag; so after any sequence of calls a closed provider is still closed
    and unchanged. *)
Theorem provider_state_machine :
  (forall o p w, closed p = true -> step o p w = (closedOutcome o, p, w)) /\
  (forall p w, step OpClose p w = (RError None, setClosed true p, w) /\
               closed (setClosed true p) = true /\
               setClosed true (setClosed true p) = setClosed true p) /\
  (forall o p w, o <> OpClose -> closed (step o p w).1.2 = closed p) /\
  (forall ops p w, closed p = true -> run ops p w = (map closedOutcome ops, p, w)) /\
  (forall path p w,
     closed p = true ->
     Get path p w =
       (Err (vault.NewVaultError "Get" path ProviderName vault.ErrClosed), p, w) /\
     Delete path p w =
       (Some (vault.NewVaultError "Delete" path ProviderName vault.ErrClosed), p, w) /\
     Exists path p w =
       (Err (vault.NewVaultError "Exists" path ProviderName vault.ErrClosed), p, w) /\
     List_ path p w =
       (Err (vault.NewVaultError "List" path ProviderName vault.ErrClosed), p, w) /\
     forall secret,
       Set_ path secret p w =
         (Some (vault.NewVaultError "Set" path ProviderName vault.ErrClosed), p, w)).
Proof.
  split; [apply step_closed|].
  split; [done|].
  split; [intros o p w Ho; by destruct (step_extends o p w Ho) as (_ & Hk & _)|].
  split; [apply run_closed|].
  intros path p w Hc. unfold Get, Delete, Exists, List_, Set_. by rewrite Hc.
Qed.

End StateMachine.

Lemma provider_state_machine_witness :
  closed (setClosed true (newProvider demoConfig)) = true /\
  run [OpClose; OpGet "V/Item"; OpClose; OpDelete "V/Item"]
      (newProvider demoConfig) demoWorld =
  ([RError None;
    RSecret (Err (vault.NewVaultError "Get" "V/Item" ProviderName vault.ErrClosed));
    RError None;
    RError (Some (vault.NewVaultError "Delete" "V/Item" ProviderName vault.ErrClosed))],
   setClosed true (newProvider demoConfig), demoWorld).
Proof.
  split; [reflexivity|].
  destruct (provider_state_machine (B := Mem.t)) as (_ & _ & _ & Hrun & _).
  change (run (OpClose :: ?ops) ?p ?w)
    with (let '(rs, p', w') := run ops (setClosed true p) w in (RError None :: rs, p', w')).
  by rewrite Hrun.
Defined.

(** ** The cache and the freshness window *)

Lemma resolveVaultLoop_withTTL (ttl : Z) (n : string) (vs : list op.VaultOverview.t)
    (stop : option error) (p : Provider) :
  resolveVaultLoop n vs stop (withTTL ttl p) =
  ((resolveVaultLoop n vs stop p).1, withTTL ttl (resolveVaultLoop n vs stop p).2).
Proof.
  revert p. induction vs as [|v vs IH]; intros p; simpl.
  - by destruct stop.
  - destruct (_ || _); simpl; [done|].
    apply (IH (cacheVaultID _ _ p)).
Qed.

Lemma resolveVaultLoop_cached (n id : string) (vs : list op.VaultOverview.t)
    (stop : option error) (p p' : Provider) :
  resolveVaultLoop n vs stop p = (Ok id, p') -> vaultCache p' !! n = Some id.
Proof.
  revert p. induction vs as [|v vs IH]; intros p; simpl.
  - by destruct stop.
  - destruct (bool_decide (op.VaultOverview.ID v = n)) eqn:Hid; simpl.
    + intros [= <- <-]. apply bool_decide_eq_true_1 in Hid as <-. simpl.
      apply lookup_insert_eq.
    + destruct (bool_decide (op.VaultOverview.Title v = n)) eqn:Ht; [|apply IH].
      intros [= <- <-]. apply bool_decide_eq_true_1 in Ht as <-.
      apply bool_decide_eq_false_1 in Hid. simpl.
      rewrite lookup_insert_ne by done. apply lookup_insert_eq.
Qed.

Section Cache.
Context {B : Type} `{op.Client B} `{MapRange}.

Lemma resolveVaultID_withTTL (ttl : Z) (n : string) (p : Provider) (w : World B) :
  resolveVaultID n (withTTL ttl p) w = liftTTL ttl (resolveVaultID n p w).
Proof.
  unfold resolveVaultID, liftTTL. simpl.
  destruct (decide (n = "")); [done|].
  destruct (vaultCache p !! n); [done|].
  destruct (clientVaultsListAll w) as [[[vs stop]|err] w1]; [|done].
  rewrite resolveVaultLoop_withTTL.
  by destruct (resolveVaultLoop n vs stop p).
Qed.

Lemma getItem_withTTL (ttl : Z) (parsed : ParsedPath.t) (p : Provider) (w : World B) :
  getItem parsed (withTTL ttl p) w = liftTTL ttl (getItem parsed p w).
Proof.
  unfold getItem. rewrite resolveVaultID_withTTL. unfold liftTTL.
  destruct (resolveVaultID _ p w) as [[r p1] w1]. simpl.
  repeat break_let; simpl; congruence.
Qed.

Lemma Get_withTTL (ttl : Z) (path : string) (p : Provider) (w : World B) :
  Get path (withTTL ttl p) w = liftTTL ttl (Get path p w).
Proof.
  unfold Get. change (getDefaultVault (withTTL ttl p)) with (getDefaultVault p).
  change (closed (withTTL ttl p)) with (closed p).
  destruct (closed p); [done|].
  destruct (ParsePath _ _) as [parsed|]; [|done].
  destruct (negb _); [|apply getItem_withTTL].
  by destruct (resolveField parsed w).
Qed.

Lemma Set_withTTL (ttl : Z) (path : string) (secret : vault.Secret) (p : Provider) (w : World B) :
  Set_ path secret (withTTL ttl p) w = liftTTL ttl (Set_ path secret p w).
Proof.
  unfold Set_. change (getDefaultVault (withTTL ttl p)) with (getDefaultVault p).
  change (closed (withTTL ttl p)) with (closed p).
  destruct (closed p); [done|].
  destruct (ParsePath _ _) as [parsed|]; [|done].
  rewrite resolveVaultID_withTTL. unfold liftTTL.
  destruct (resolveVaultID _ p w) as [[r p1] w1]. simpl.
  destruct r as [vaultID|err]; [|done].
  destruct (resolveItemID _ _ w1) as [[itemID|err] w2].
  - by destruct (updateItem _ _ _ _ w2).
  - change (createItem vaultID parsed secret (withTTL ttl p1) w2)
      with (createItem vaultID parsed secret p1 w2).
    by destruct (createItem _ _ _ p1 w2).
Qed.

Lemma Delete_withTTL (ttl : Z) (path : string) (p : Provider) (w : World B) :
  Delete path (withTTL ttl p) w = liftTTL ttl (Delete path p w).
Proof.
  unfold Delete. change (getDefaultVault (withTTL ttl p)) with (getDefaultVault p).
  change (closed (withTTL ttl p)) with (closed p).
  destruct (closed p); [done|].
  destruct (ParsePath _ _) as [parsed|]; [|done].
  rewrite resolveVaultID_withTTL. unfold liftTTL.
  destruct (resolveVaultID _ p w) as [[r p1] w1]. simpl.
  repeat break_let; simpl; congruence.
Qed.

Lemma Exists_withTTL (ttl : Z) (path : string) (p : Provider) (w : World B) :
  Exists path (withTTL ttl p) w = liftTTL ttl (Exists path p w).
Proof.
  unfold Exists. change (getDefaultVault (withTTL ttl p)) with (getDefaultVault p).
  change (closed (withTTL ttl p)) with (closed p).
  destruct (closed p); [done|].
  destruct (ParsePath _ _) as [parsed|]; [|done].
  rewrite resolveVaultID_withTTL. unfold liftTTL.
  destruct (resolveVaultID _ p w) as [[r p1] w1]. simpl.
  repeat break_let; simpl; congruence.
Qed.

Lemma listLoop_withTTL (ttl : Z) (pre : string) (vs : list op.VaultOverview.t)
    (stop : option error) (results : list string) (p : Provider) (w : World B) :
  listLoop pre vs stop results (withTTL ttl p) w =
  liftTTL ttl (listLoop pre vs stop results p w).
Proof.
  revert results p w. induction vs as [|v vs IH]; intros results p w; simpl.
  - by destruct stop.
  - destruct (_ && _); [apply IH|].
    destruct (clientItemsListAll _ w) as [[[items stop']|err] w1]; [|apply IH].
    apply (IH _ (cacheVaultID _ _ p)).
Qed.

Lemma List_withTTL (ttl : Z) (pre : string) (p : Provider) (w : World B) :
  List_ pre (withTTL ttl p) w = liftTTL ttl (List_ pre p w).
Proof.
  unfold List_. change (closed (withTTL ttl p)) with (closed p).
  destruct (closed p); [done|].
  destruct (clientVaultsListAll w) as [[[vs stop]|err] w1]; [|done].
  apply listLoop_withTTL.
Qed.

Lemma getBatchLoop_withTTL (ttl : Z) (paths : list string)
    (results : gmap string vault.Secret) (p : Provider) (w : World B) :
  getBatchLoop paths results (withTTL ttl p) w =
  liftTTL ttl (getBatchLoop paths results p w).
Proof.
  revert results p w. induction paths as [|path paths IH]; intros results p w; simpl.
  - done.
  - rewrite Get_withTTL. unfold liftTTL at 1.
    destruct (Get path p w) as [[r p1] w1]. simpl.
    destruct r; apply IH.
Qed.

Lemma GetBatch_withTTL (ttl : Z) (paths : list string) (p : Provider) (w : World B) :
  GetBatch paths (withTTL ttl p) w = liftTTL ttl (GetBatch paths p w).
Proof.
  unfold GetBatch. change (closed (withTTL ttl p)) with (closed p).
  destruct (closed p); [done|].
  destruct paths as [|path paths]; [done|].
  rewrite getBatchLoop_withTTL. unfold liftTTL.
  by destruct (getBatchLoop _ _ p w) as [[r p1] w1].
Qed.

Lemma step_withTTL (ttl : Z) (o : operation) (p : Provider) (w : World B) :
  step o (withTTL ttl p) w = liftTTL ttl (step o p w).
Proof.
  destruct o as [path|path secret|path|path|pre|paths|]; simpl.
  - rewrite Get_withTTL. unfold liftTTL. by destruct (Get path p w) as [[? ?] ?].
  - rewrite Set_withTTL. unfold liftTTL. by destruct (Set_ path secret p w) as [[? ?] ?].
  - rewrite Delete_withTTL. unfold liftTTL. by destruct (Delete path p w) as [[? ?] ?].
  - rewrite Exists_withTTL. unfold liftTTL. by destruct (Exists path p w) as [[? ?] ?].
  - rewrite List_withTTL. unfold liftTTL. by destruct (List_ pre p w) as [[? ?] ?].
  - rewrite GetBatch_withTTL. unfold liftTTL. by destruct (GetBatch paths p w) as [[? ?] ?].
  - done.
Qed.

Lemma run_withTTL (ttl : Z) (ops : list operation) (p : Provider) (w : World B) :
  run ops (withTTL ttl p) w = liftTTL ttl (run ops p w).
Proof.
  revert p w. induction ops as [|o ops IH]; intros p w; simpl; [done|].
  rewrite step_withTTL. unfold liftTTL at 1.
  destruct (step o p w) as [[r p1] w1]. simpl.
  rewrite IH. unfold liftTTL.
  by destruct (run ops p1 w1) as [[rs p2] w2].
Qed.

Lemma resolveVaultID_hit (n id : string) (p : Provider) (w : World B) :
  n <> "" -> vaultCache p !! n = Some id -> resolveVaultID n p w = (Ok id, p, w).
Proof.
  intros Hn Hc. unfold resolveVaultID. by rewrite decide_False, Hc.
Qed.

Lemma resolveVaultID_cached (n id : string) (p p' : Provider) (w w' : World B) :
  resolveVaultID n p w = (Ok id, p', w') -> vaultCache p' !! n = Some id.
Proof.
  unfold resolveVaultID.
  destruct (decide (n = "")); [done|].
  destruct (vaultCache p !! n) eqn:Hc; [by intros [= <- <- <-]|].
  destruct (clientVaultsListAll w) as [[[vs stop]|err] w1]; [|done].
  destruct (resolveVaultLoop n vs stop p) as [r p1] eqn:Hl.
  intros [= -> <- <-]. by eapply resolveVaultLoop_cached.
Qed.

Lemma step_cache_grows (o : operation) (p : Provider) (w : World B) :
  dom (vaultCache p) ⊆ dom (vaultCache (step o p w).1.2).
Proof.
  assert (Ho : o = OpClose \/ o <> OpClose) by (destruct o; eauto).
  destruct Ho as [->|Ho]; [done|].
  by destruct (step_extends o p w Ho) as (_ & _ & Hd).
Qed.

End Cache.

(** ** Name resolution *)

Lemma setCache_setCache (c1 c2 : gmap string string) (p : Provider) :
  setCache c2 (setCache c1 p) = setCache c2 p.
Proof. done. Qed.

Lemma setCache_same (p : Provider) : setCache (vaultCache p) p = p.
Proof. by destruct p. Qed.

Lemma cacheAll_snoc (vs : list op.VaultOverview.t) (v : op.VaultOverview.t)
    (c : gmap string string) :
  cacheAll (vs ++ [v]) c =
  <[op.VaultOverview.ID v := op.VaultOverview.ID v]>
    (<[op.VaultOverview.Title v := op.VaultOverview.ID v]> (cacheAll vs c)).
Proof. unfold cacheAll. by rewrite fold_left_app. Qed.

Lemma cacheAll_dom (vs : list op.VaultOverview.t) (c : gmap string string)
    (v : op.VaultOverview.t) :
  In v vs ->
  is_Some (cacheAll vs c !! op.VaultOverview.Title v) /\
  is_Some (cacheAll vs c !! op.VaultOverview.ID v).
Proof.
  induction vs as [|u vs IH] using rev_ind; [done|].
  rewrite cacheAll_snoc, in_app_iff. intros [Hin|[->|[]]].
  - destruct (IH Hin) as [Ht Hi].
    split; rewrite !lookup_insert; repeat case_decide; eauto.
  - split; rewrite !lookup_insert; repeat case_decide; eauto; congruence.
Qed.

Lemma resolveVaultLoop_found (n : string) (pre post : list op.VaultOverview.t)
    (v : op.VaultOverview.t) (stop : option error) (p : Provider) :
  vaultMatches n v = true ->
  (forall u, In u pre -> vaultMatches n u = false) ->
  resolveVaultLoop n (pre ++ v :: post) stop p =
  (Ok (op.VaultOverview.ID v), setCache (cacheAll (pre ++ [v]) (vaultCache p)) p).
Proof.
  intros Hv. revert p. induction pre as [|u pre IH]; intros p Hpre; simpl.
  - unfold vaultMatches in Hv. by rewrite Hv.
  - pose proof (Hpre u (or_introl eq_refl)) as Hu. unfold vaultMatches in Hu.
    rewrite Hu, IH by (intros u' Hu'; apply Hpre; by right). done.
Qed.

Lemma resolveVaultLoop_missing (n : string) (vs : list op.VaultOverview.t)
    (stop : option error) (p : Provider) :
  (forall u, In u vs -> vaultMatches n u = false) ->
  resolveVaultLoop n vs stop p =
  (Err (match stop with Some err => err | None => vaultNotFound n end),
   setCache (cacheAll vs (vaultCache p)) p).
Proof.
  revert p. induction vs as [|u vs IH]; intros p Hvs; simpl.
  - rewrite setCache_same. by destruct stop.
  - pose proof (Hvs u (or_introl eq_refl)) as Hu. unfold vaultMatches in Hu.
    rewrite Hu, IH by (intros u' Hu'; apply Hvs; by right). done.
Qed.

Lemma resolveItemLoop_found (n : string) (pre post : list op.ItemOverview.t)
    (i : op.ItemOverview.t) (stop : option error) :
  itemMatches n i = true ->
  (forall u, In u pre -> itemMatches n u = false) ->
  resolveItemLoop n (pre ++ i :: post) stop = Ok (op.ItemOverview.ID i).
Proof.
  intros Hi. induction pre as [|u pre IH]; intros Hpre; simpl.
  - unfold itemMatches in Hi. by rewrite Hi.
  - pose proof (Hpre u (or_introl eq_refl)) as Hu. unfold itemMatches in Hu.
    rewrite Hu. apply IH. intros u' Hu'. apply Hpre. by right.
Qed.

Lemma resolveItemLoop_missing (n : string) (items : list op.ItemOverview.t)
    (stop : option error) :
  (forall u, In u items -> itemMatches n u = false) ->
  resolveItemLoop n items stop =
  Err (match stop with Some err => err | None => itemNotFound n end).
Proof.
  induction items as [|u items IH]; intros Hitems; simpl.
  - by destruct stop.
  - pose proof (Hitems u (or_introl eq_refl)) as Hu. unfold itemMatches in Hu.
    rewrite Hu. apply IH. intros u' Hu'. apply Hitems. by right.
Qed.

Lemma resolveVaultLoop_err (n : string) (vs : list op.VaultOverview.t)
    (stop : option error) (p p' : Provider) (err : error) :
  resolveVaultLoop n vs stop p = (Err err, p') ->
  stop = Some err \/ (stop = None /\ err = vaultNotFound n).
Proof.
  revert p. induction vs as [|v vs IH]; intros p; simpl.
  - destruct stop; intros [= <- <-]; eauto.
  - destruct (_ || _); [done|]. apply IH.
Qed.

Lemma resolveItemLoop_err (n : string) (items : list op.ItemOverview.t)
    (stop : option error) (err : error) :
  resolveItemLoop n items stop = Err err ->
  stop = Some err \/ (stop = None /\ err = itemNotFound n).
Proof.
  induction items as [|i items IH]; simpl.
  - destruct stop; intros [= <-]; eauto.
  - destruct (_ || _); [done|]. apply IH.
Qed.

Lemma isNotFoundError_occurs (text : string) :
  occursIn "not found" text -> isNotFoundError (Some (errorString text)) = true.
Proof.
  intros (pre & mid & post & -> & Hm).
  unfold isNotFoundError.
  change (Error (errorString (pre ++ mid ++ post))) with (pre ++ mid ++ post).
  apply containsAny_spec.
  exists "not found". split; [simpl; tauto|].
  exists (strings.ToLower pre), (strings.ToLower mid), (strings.ToLower post).
  split; [by rewrite !ToLower_app|]. by rewrite ToLower_idem.
Qed.

Lemma vaultNotFound_is_not_found (n : string) :
  isNotFoundError (Some (vaultNotFound n)) = true /\
  forall operation path,
    mapErr operation path (vaultNotFound n) =
    vault.NewVaultError operation path ProviderName vault.ErrSecretNotFound.
Proof.
  split.
  - apply isNotFoundError_occurs. by exists "vault ", "not found", (": " ++ n).
  - intros operation path. unfold mapErr.
    replace (containsAny _ notFoundPatterns) with true; [done|].
    symmetry. apply containsAny_spec. exists "vault not found".
    split; [simpl; tauto|]. by exists "", "vault not found", (": " ++ n).
Qed.

Lemma itemNotFound_is_not_found (n : string) :
  isNotFoundError (Some (itemNotFound n)) = true /\
  forall operation path,
    mapErr operation path (itemNotFound n) =
    vault.NewVaultError operation path ProviderName vault.ErrSecretNotFound.
Proof.
  split.
  - apply isNotFoundError_occurs. by exists "item ", "not found", (": " ++ n).
  - intros operation path. unfold mapErr.
    replace (containsAny _ notFoundPatterns) with true; [done|].
    symmetry. apply containsAny_spec. exists "item not found".
    split; [simpl; tauto|]. by exists "", "item not found", (": " ++ n).
Qed.

(** C3, as stated, fails for items: a second resolution of the same item
    name is no cache hit, it contacts the backend again. *)
Lemma resolveItemID_no_cache_counterexample :
  ~ (forall vaultID n (w w1 : World Mem.t) id,
       resolveItemID vaultID n w = (Ok id, w1) ->
       resolveItemID vaultID n w1 = (Ok id, w1)).
Proof.
  intros Hclaim.
  specialize (Hclaim "v1" "Item" demoWorld
                (mkWorld demoStore [op.ItemsListAllCall "v1"]) "i1" eq_refl).
  vm_compute in Hclaim. discriminate Hclaim.
Qed.

Section Resolution.
Context {B : Type} `{op.Client B}.

Lemma resolveVaultID_miss (n : string) (p : Provider) (w : World B) :
  n <> "" -> vaultCache p !! n = None ->
  resolveVaultID n p w =
  match op.VaultsListAll (backend w) with
  | (Err err, b') => (Err err, p, mkWorld b' (calls w ++ [op.VaultsListAllCall]))
  | (Ok (vs, stop), b') =>
      ((resolveVaultLoop n vs stop p).1, (resolveVaultLoop n vs stop p).2,
       mkWorld b' (calls w ++ [op.VaultsListAllCall]))
  end.
Proof.
  intros Hn Hc. unfold resolveVaultID, clientVaultsListAll, logged.
  rewrite decide_False, Hc by done.
  destruct (op.VaultsListAll (backend w)) as [[[vs stop]|err] b']; [|done].
  by destruct (resolveVaultLoop n vs stop p).
Qed.

Lemma resolveItemID_always_lists (vaultID n : string) (w : World B) :
  n <> "" ->
  resolveItemID vaultID n w =
  (match (op.ItemsListAll vaultID (backend w)).1 with
   | Err err => Err err
   | Ok (items, stop) => resolveItemLoop n items stop
   end,
   mkWorld (op.ItemsListAll vaultID (backend w)).2
           (calls w ++ [op.ItemsListAllCall vaultID])).
Proof.
  intros Hn. unfold resolveItemID, clientItemsListAll, logged.
  rewrite decide_False by done.
  by destruct (op.ItemsListAll vaultID (backend w)) as [[[items stop]|err] b'].
Qed.

(** C3, amended.  Vault resolution checks the cache first and, on a hit,
    returns the cached identifier with no backend call.  On a miss it
    enumerates the vaults once; it caches name->ID and ID->ID for each vault
    visited, up to and including the first one whose ID or title is the
    requested name, whose ID it returns; when no listed vault matches it has
    cached all of them and fails, with the enumeration's error if it ended
    with one and else with a not-found error (which the normaliser maps to
    NotFound).  After a successful resolution the name is resolved again
    with no backend call.  Item resolution has no cache: every resolution
    enumerates the items of the vault, returns the ID of the first item
    whose ID or title is the name and fails with a not-found error when the
    enumeration ends without a match. *)
Theorem resolution_uses_vault_cache_only :
  (forall n id p (w : World B),
     n <> "" -> vaultCache p !! n = Some id -> resolveVaultID n p w = (Ok id, p, w)) /\
  (forall n p (w : World B),
     n <> "" -> vaultCache p !! n = None ->
     let w' := mkWorld (op.VaultsListAll (backend w)).2
                       (calls w ++ [op.VaultsListAllCall]) in
     match (op.VaultsListAll (backend w)).1 with
     | Err err => resolveVaultID n p w = (Err err, p, w')
     | Ok (vs, stop) =>
         (forall pre v post,
            vs = (pre ++ v :: post)%list -> vaultMatches n v = true ->
            (forall u, In u pre -> vaultMatches n u = false) ->
            resolveVaultID n p w =
            (Ok (op.VaultOverview.ID v),
             setCache (cacheAll (pre ++ [v]) (vaultCache p)) p, w')) /\
         ((forall u, In u vs -> vaultMatches n u = false) ->
            resolveVaultID n p w =
            (Err (match stop with Some err => err | None => vaultNotFound n end),
             setCache (cacheAll vs (vaultCache p)) p, w'))
     end) /\
  (forall vs c v,
     In v vs ->
     is_Some (cacheAll vs c !! op.VaultOverview.Title v) /\
     is_Some (cacheAll vs c !! op.VaultOverview.ID v)) /\
  (forall n id p (w : World B) p' w',
     resolveVaultID n p w = (Ok id, p', w') ->
     vaultCache p' !! n = Some id /\ resolveVaultID n p' w' = (Ok id, p', w')) /\
  (forall vaultID n (w : World B),
     n <> "" ->
     let w' := mkWorld (op.ItemsListAll vaultID (backend w)).2
                       (calls w ++ [op.ItemsListAllCall vaultID]) in
     match (op.ItemsListAll vaultID (backend w)).1 with
     | Err err => resolveItemID vaultID n w = (Err err, w')
     | Ok (items, stop) =>
         (forall pre i post,
            items = (pre ++ i :: post)%list -> itemMatches n i = true ->
            (forall u, In u pre -> itemMatches n u = false) ->
            resolveItemID vaultID n w = (Ok (op.ItemOverview.ID i), w')) /\
         ((forall u, In u items -> itemMatches n u = false) ->
            resolveItemID vaultID n w =
            (Err (match stop with Some err => err | None => itemNotFound n end), w'))
     end) /\
  (forall n operation path,
     isNotFoundError (Some (vaultNotFound n)) = true /\
     isNotFoundError (Some (itemNotFound n)) = true /\
     vault.Err (mapErr operation path (vaultNotFound n)) = vault.ErrSecretNotFound /\
     vault.Err (mapErr operation path (itemNotFound n)) = vault.ErrSecretNotFound).
Proof.
  split; [intros n id p w; apply resolveVaultID_hit|].
  split.
  { intros n p w Hn Hc w'. rewrite (resolveVaultID_miss n p w Hn Hc). subst w'.
    destruct (op.VaultsListAll (backend w)) as [[[vs stop]|err] b']; simpl; [|done].
    split.
    - intros pre v post -> Hv Hpre. by rewrite resolveVaultLoop_found.
    - intros Hvs. by rewrite resolveVaultLoop_missing. }
  split; [apply cacheAll_dom|].
  split.
  { intros n id p w p' w' Hr.
    pose proof (resolveVaultID_cached n id p p' w w' Hr) as Hc.
    split; [exact Hc|]. apply resolveVaultID_hit; [|exact Hc].
    intros ->. unfold resolveVaultID in Hr. by rewrite decide_True in Hr. }
  split.
  { intros vaultID n w Hn w'. rewrite (resolveItemID_always_lists vaultID n w Hn).
    subst w'.
    destruct (op.ItemsListAll vaultID (backend w)) as [[[items stop]|err] b']; simpl; [|done].
    split.
    - intros pre i post -> Hi Hpre. by rewrite resolveItemLoop_found.
    - intros Hitems. by rewrite resolveItemLoop_missing. }
  intros n operation path.
  destruct (vaultNotFound_is_not_found n) as [Hv Hvm].
  destruct (itemNotFound_is_not_found n) as [Hi Him].
  by rewrite Hvm, Him.
Qed.

End Resolution.

Lemma resolution_uses_vault_cache_only_witness :
  resolveVaultID "V" (newProvider demoConfig) demoWorld =
    (Ok "v1", setCache (<["v1" := "v1"]> (<["V" := "v1"]> ∅)) (newProvider demoConfig),
     mkWorld demoStore [op.VaultsListAllCall]) /\
  resolveVaultID "V"
    (setCache (<["v1" := "v1"]> (<["V" := "v1"]> ∅)) (newProvider demoConfig))
    (mkWorld demoStore [op.VaultsListAllCall]) =
    (Ok "v1", setCache (<["v1" := "v1"]> (<["V" := "v1"]> ∅)) (newProvider demoConfig),
     mkWorld demoStore [op.VaultsListAllCall]).
Proof.
  destruct (resolution_uses_vault_cache_only (B := Mem.t)) as (_ & _ & _ & Hagain & _).
  assert (Hfirst : resolveVaultID "V" (newProvider demoConfig) demoWorld =
    (Ok "v1", setCache (<["v1" := "v1"]> (<["V" := "v1"]> ∅)) (newProvider demoConfig),
     mkWorld demoStore [op.VaultsListAllCall])) by reflexivity.
  split; [exact Hfirst|].
  exact (proj2 (Hagain _ _ _ _ _ _ Hfirst)).
Defined.

(** ** The freshness window *)

Section Freshness.
Context {B : Type} `{op.Client B} `{MapRange} `{SecretRange}.

Lemma deleteBatchLoop_withTTL (ttl : Z) (paths : list string)
    (acc : option vault.VaultError) (p : Provider) (w : World B) :
  deleteBatchLoop paths acc (withTTL ttl p) w =
  liftTTL ttl (deleteBatchLoop paths acc p w).
Proof.
  revert acc p w. induction paths as [|path paths IH]; intros acc p w; simpl; [done|].
  rewrite Delete_withTTL. unfold liftTTL at 1.
  destruct (Delete path p w) as [[e p1] w1]. simpl.
  destruct e; apply IH.
Qed.

Lemma DeleteBatch_withTTL (ttl : Z) (paths : list string) (p : Provider) (w : World B) :
  DeleteBatch paths (withTTL ttl p) w = liftTTL ttl (DeleteBatch paths p w).
Proof.
  unfold DeleteBatch. change (closed (withTTL ttl p)) with (closed p).
  destruct (closed p); [done|]. apply deleteBatchLoop_withTTL.
Qed.

Lemma setBatchLoop_withTTL (ttl : Z) (entries : list (string * vault.Secret))
    (acc : option vault.VaultError) (p : Provider) (w : World B) :
  setBatchLoop entries acc (withTTL ttl p) w =
  liftTTL ttl (setBatchLoop entries acc p w).
Proof.
  revert acc p w. induction entries as [|entry entries IH]; intros acc p w; simpl; [done|].
  rewrite Set_withTTL. unfold liftTTL at 1.
  destruct (Set_ entry.1 entry.2 p w) as [[e p1] w1]. simpl.
  destruct e; apply IH.
Qed.

Lemma SetBatch_withTTL (ttl : Z) (secrets : gmap string vault.Secret)
    (p : Provider) (w : World B) :
  SetBatch secrets (withTTL ttl p) w = liftTTL ttl (SetBatch secrets p w).
Proof.
  unfold SetBatch. change (closed (withTTL ttl p)) with (closed p).
  destruct (closed p); [done|]. apply setBatchLoop_withTTL.
Qed.

Lemma invoke_withTTL (ttl : Z) (m : method) (p : Provider) (w : World B) :
  invoke m (withTTL ttl p) w = liftTTL ttl (invoke m p w).
Proof.
  destruct m as [o|secrets|paths]; simpl.
  - apply step_withTTL.
  - rewrite SetBatch_withTTL. unfold liftTTL.
    by destruct (SetBatch secrets p w) as [[? ?] ?].
  - rewrite DeleteBatch_withTTL. unfold liftTTL.
    by destruct (DeleteBatch paths p w) as [[? ?] ?].
Qed.

Lemma invokeAll_withTTL (ttl : Z) (ms : list method) (p : Provider) (w : World B) :
  invokeAll ms (withTTL ttl p) w = liftTTL ttl (invokeAll ms p w).
Proof.
  revert p w. induction ms as [|m ms IH]; intros p w; simpl; [done|].
  rewrite invoke_withTTL. unfold liftTTL at 1.
  destruct (invoke m p w) as [[r p1] w1]. simpl.
  rewrite IH. unfold liftTTL.
  by destruct (invokeAll ms p1 w1) as [[rs p2] w2].
Qed.

Lemma deleteBatchLoop_extends (paths : list string) (acc : option vault.VaultError)
    (p : Provider) (w : World B) :
  extends p (deleteBatchLoop paths acc p w).1.2.
Proof.
  revert acc p w. induction paths as [|path paths IH]; intros acc p w; simpl.
  - apply extends_refl.
  - pose proof (Delete_extends path p w) as Hx.
    destruct (Delete path p w) as [[e p1] w1]. simpl in Hx.
    destruct e; (eapply extends_trans; [exact Hx|apply IH]).
Qed.

Lemma setBatchLoop_extends (entries : list (string * vault.Secret))
    (acc : option vault.VaultError) (p : Provider) (w : World B) :
  extends p (setBatchLoop entries acc p w).1.2.
Proof.
  revert acc p w. induction entries as [|entry entries IH]; intros acc p w; simpl.
  - apply extends_refl.
  - pose proof (Set_extends entry.1 entry.2 p w) as Hx.
    destruct (Set_ entry.1 entry.2 p w) as [[e p1] w1]. simpl in Hx.
    destruct e; (eapply extends_trans; [exact Hx|apply IH]).
Qed.

Lemma invoke_cache_grows (m : method) (p : Provider) (w : World B) :
  dom (vaultCache p) ⊆ dom (vaultCache (invoke m p w).1.2).
Proof.
  destruct m as [o|secrets|paths]; simpl.
  - apply step_cache_grows.
  - unfold SetBatch. destruct (closed p); [done|].
    pose proof (setBatchLoop_extends (secretOrder secrets) None p w) as (_ & _ & Hd).
    by destruct (setBatchLoop _ _ p w) as [[? ?] ?].
  - unfold DeleteBatch. destruct (closed p); [done|].
    pose proof (deleteBatchLoop_extends paths None p w) as (_ & _ & Hd).
    by destruct (deleteBatchLoop _ _ p w) as [[? ?] ?].
Qed.

Lemma invokeAll_cache_grows (ms : list method) (p : Provider) (w : World B) :
  dom (vaultCache p) ⊆ dom (vaultCache (invokeAll ms p w).1.2).
Proof.
  revert p w. induction ms as [|m ms IH]; intros p w; simpl; [done|].
  pose proof (invoke_cache_grows m p w) as Hs.
  destruct (invoke m p w) as [[r p1] w1]. simpl in Hs.
  specialize (IH p1 w1). destruct (invokeAll ms p1 w1) as [[rs p2] w2].
  simpl in *. set_solver.
Qed.

(** C10.  The configured [CacheTTL] has no effect: with any other value
    of it every method (Get, Set, Delete, Exists, List, GetBatch, SetBatch,
    DeleteBatch, Close), and every sequence of calls of them, gives the same
    results, the same world and the same provider (cache and flag) up to
    that value (SetBatch enumerating its map in the same order on both
    sides); the name and the capabilities are the same too.  The vault
    cache is always consulted: a cached name is resolved with no backend
    call and no change of state.  It is always populated: a name that is
    not cached makes the resolver enumerate the vaults once and cache
    name->ID and ID->ID for each vault visited, up to and including the
    first one whose ID or title is the name (all of them when none matches);
    only when the enumeration cannot be started is nothing cached; and after
    a successful resolution the name is cached with the identifier
    returned.  No method, Delete and DeleteBatch included, removes a cached
    key. *)
Theorem CacheTTL_has_no_effect :
  (forall ttl m p (w : World B),
     invoke m (withTTL ttl p) w =
     ((invoke m p w).1.1, withTTL ttl (invoke m p w).1.2, (invoke m p w).2)) /\
  (forall ttl ms p (w : World B),
     invokeAll ms (withTTL ttl p) w =
     ((invokeAll ms p w).1.1, withTTL ttl (invokeAll ms p w).1.2, (invokeAll ms p w).2)) /\
  (forall ttl ms p (w : World B),
     (invokeAll ms (withTTL ttl p) w).1.1 = (invokeAll ms p w).1.1 /\
     vaultCache (invokeAll ms (withTTL ttl p) w).1.2 = vaultCache (invokeAll ms p w).1.2 /\
     closed (invokeAll ms (withTTL ttl p) w).1.2 = closed (invokeAll ms p w).1.2 /\
     (invokeAll ms (withTTL ttl p) w).2 = (invokeAll ms p w).2) /\
  (forall ttl p,
     Name (withTTL ttl p) = Name p /\ Capabilities (withTTL ttl p) = Capabilities p) /\
  (forall n id p (w : World B),
     n <> "" -> vaultCache p !! n = Some id -> resolveVaultID n p w = (Ok id, p, w)) /\
  (forall n p (w : World B),
     n <> "" -> vaultCache p !! n = None ->
     let w' := mkWorld (op.VaultsListAll (backend w)).2
                       (calls w ++ [op.VaultsListAllCall]) in
     match (op.VaultsListAll (backend w)).1 with
     | Err err => resolveVaultID n p w = (Err err, p, w')
     | Ok (vs, stop) =>
         (forall pre v post,
            vs = (pre ++ v :: post)%list -> vaultMatches n v = true ->
            (forall u, In u pre -> vaultMatches n u = false) ->
            resolveVaultID n p w =
            (Ok (op.VaultOverview.ID v),
             setCache (cacheAll (pre ++ [v]) (vaultCache p)) p, w')) /\
         ((forall u, In u vs -> vaultMatches n u = false) ->
            resolveVaultID n p w =
            (Err (match stop with Some err => err | None => vaultNotFound n end),
             setCache (cacheAll vs (vaultCache p)) p, w'))
     end) /\
  (forall vs c v,
     In v vs ->
     is_Some (cacheAll vs c !! op.VaultOverview.Title v) /\
     is_Some (cacheAll vs c !! op.VaultOverview.ID v)) /\
  (forall n id p (w : World B) p' w',
     resolveVaultID n p w = (Ok id, p', w') -> vaultCache p' !! n = Some id) /\
  (forall m p (w : World B), dom (vaultCache p) ⊆ dom (vaultCache (invoke m p w).1.2)) /\
  (forall ms p (w : World B), dom (vaultCache p) ⊆ dom (vaultCache (invokeAll ms p w).1.2)).
Proof.
  split; [intros; apply invoke_withTTL|].
  split; [intros; apply invokeAll_withTTL|].
  split; [intros; by rewrite invokeAll_withTTL|].
  split; [done|].
  split; [apply resolveVaultID_hit|].
  split.
  { intros n p w Hn Hc w'. rewrite (resolveVaultID_miss n p w Hn Hc). subst w'.
    destruct (op.VaultsListAll (backend w)) as [[[vs stop]|err] b']; simpl; [|done].
    split.
    - intros pre v post -> Hv Hpre. by rewrite resolveVaultLoop_found.
    - intros Hvs. by rewrite resolveVaultLoop_missing. }
  split; [apply cacheAll_dom|].
  split; [intros n id p w p' w'; apply resolveVaultID_cached|].
  split; [apply invoke_cache_grows|apply invokeAll_cache_grows].
Qed.

End Freshness.

Lemma CacheTTL_has_no_effect_witness :
  CacheTTL (config (newProvider demoConfig)) = 0%Z /\
  vaultCache (newProvider demoConfig) !! "V" = None /\
  resolveVaultID "V" (newProvider demoConfig) demoWorld =
    (Ok "v1", setCache (<["v1" := "v1"]> (<["V" := "v1"]> ∅)) (newProvider demoConfig),
     mkWorld demoStore [op.VaultsListAllCall]).
Proof.
  split; [reflexivity|]. split; [reflexivity|].
  destruct (CacheTTL_has_no_effect (B := Mem.t)) as (_ & _ & _ & _ & _ & Hmiss & _).
  specialize (Hmiss "V" (newProvider demoConfig) demoWorld ltac:(done) eq_refl).
  change (op.VaultsListAll (backend demoWorld)) with (Mem.vaultsListAll demoStore) in Hmiss.
  unfold Mem.vaultsListAll, Mem.guarded in Hmiss. simpl in Hmiss.
  destruct Hmiss as [Hfound _].
  exact (Hfound [] (op.VaultOverview.mk "v1" "V") [op.VaultOverview.mk "v2" "W"]
           eq_refl eq_refl ltac:(by intros u [])).
Defined.

(** ** Delete *)

Arguments isNotFoundError : simpl never.
Arguments mapErr : simpl never.

Lemma filterNonEmpty_nonempty (parts : list string) (x : string) :
  In x (filterNonEmpty parts) -> x <> "".
Proof.
  induction parts as [|p parts IH]; simpl; [done|].
  destruct (decide (p = "")); [exact IH|].
  intros [<-|Hin]; [done|by apply IH].
Qed.

(** A parsed path names a vault and an item. *)
Lemma ParsePath_nonempty (path defaultVault : string) (parsed : ParsedPath.t) :
  ParsePath path defaultVault = Ok parsed ->
  ParsedPath.Vault parsed <> "" /\ ParsedPath.Item parsed <> "".
Proof.
  unfold ParsePath, parseSecretReference.
  destruct (decide (path = "")); [done|].
  destruct (strings.HasPrefix path "op://").
  - set (parts := filterNonEmpty _).
    pose proof (filterNonEmpty_nonempty
      (strings.Split (hd "" (strings.Split (strings.TrimPrefix path "op://") "?"%char)) slash))
      as Hne. fold parts in Hne.
    destruct parts as [|a [|b [|c [|d [|e l]]]]]; try done;
      intros [= <-]; simpl; split; apply Hne; simpl; tauto.
  - set (parts := filterNonEmpty _).
    pose proof (filterNonEmpty_nonempty (strings.Split path slash)) as Hne.
    fold parts in Hne.
    destruct parts as [|a [|b [|c [|d [|e l]]]]]; try done;
      repeat case_decide; try done;
      intros [= <-]; simpl; split; try done; apply Hne; simpl; tauto.
Qed.

Section DeleteFacts.
Context {B : Type} `{op.Client B}.

Lemma Delete_unfold (path : string) (p : Provider) (w : World B) (parsed : ParsedPath.t) :
  closed p = false -> ParsePath path (getDefaultVault p) = Ok parsed ->
  Delete path p w =
  let swallow (err : error) :=
    if isNotFoundError (Some err) then None else Some (mapErr "Delete" path err) in
  match resolveVaultID (ParsedPath.Vault parsed) p w with
  | (Err err, p1, w1) => (swallow err, p1, w1)
  | (Ok vaultID, p1, w1) =>
      match resolveItemID vaultID (ParsedPath.Item parsed) w1 with
      | (Err err, w2) => (swallow err, p1, w2)
      | (Ok itemID, w2) =>
          match clientItemsDelete vaultID itemID w2 with
          | (Some err, w3) => (swallow err, p1, w3)
          | (None, w3) => (None, p1, w3)
          end
      end
  end.
Proof.
  intros Hc Hp. unfold Delete. rewrite Hc, Hp. simpl.
  repeat break_let; simpl; congruence.
Qed.

Section Benign.
Variable good : B -> Prop.
Hypothesis Hbenign : benign good.

Lemma resolveVaultID_benign (n : string) (p : Provider) (w : World B) :
  n <> "" -> good (backend w) ->
  good (backend (resolveVaultID n p w).2) /\
  match (resolveVaultID n p w).1.1 with
  | Err err => isNotFoundError (Some err) = true
  | Ok _ => True
  end.
Proof.
  intros Hn Hg. unfold resolveVaultID, clientVaultsListAll, logged.
  rewrite decide_False by done.
  destruct (vaultCache p !! n); [done|].
  destruct (op.VaultsListAll (backend w)) as [r b'] eqn:Hl.
  destruct (benign_vaults good Hbenign _ _ _ Hg Hl) as [Hg' Hr].
  destruct r as [[vs stop]|err]; simpl; [|done].
  destruct (resolveVaultLoop n vs stop p) as [r p'] eqn:Hloop. simpl.
  split; [done|]. destruct r as [id|err]; [done|].
  destruct (resolveVaultLoop_err _ _ _ _ _ _ Hloop) as [->|[-> ->]]; [done|].
  apply (vaultNotFound_is_not_found n).
Qed.

Lemma resolveItemID_benign (vaultID n : string) (w : World B) :
  n <> "" -> good (backend w) ->
  good (backend (resolveItemID vaultID n w).2) /\
  match (resolveItemID vaultID n w).1 with
  | Err err => isNotFoundError (Some err) = true
  | Ok _ => True
  end.
Proof.
  intros Hn Hg. unfold resolveItemID, clientItemsListAll, logged.
  rewrite decide_False by done.
  destruct (op.ItemsListAll vaultID (backend w)) as [r b'] eqn:Hl.
  destruct (benign_items good Hbenign _ _ _ _ Hg Hl) as [Hg' Hr].
  destruct r as [[items stop]|err]; simpl; [|done].
  split; [done|].
  destruct (resolveItemLoop n items stop) as [id|err] eqn:Hloop; [done|].
  destruct (resolveItemLoop_err _ _ _ _ Hloop) as [->|[-> ->]]; [done|].
  apply (itemNotFound_is_not_found n).
Qed.

(** On a benign backend Delete of a well-formed path succeeds. *)
Lemma Delete_benign (path : string) (p : Provider) (w : World B) (parsed : ParsedPath.t) :
  closed p = false -> ParsePath path (getDefaultVault p) = Ok parsed ->
  good (backend w) ->
  (Delete path p w).1.1 = None /\ good (backend (Delete path p w).2).
Proof.
  intros Hc Hp Hg. rewrite (Delete_unfold path p w parsed Hc Hp). simpl.
  destruct (ParsePath_nonempty _ _ _ Hp) as [Hv Hi].
  pose proof (resolveVaultID_benign (ParsedPath.Vault parsed) p w Hv Hg) as [Hg1 Hr1].
  destruct (resolveVaultID _ p w) as [[[vaultID|err] p1] w1]; simpl in *;
    [|by rewrite Hr1].
  pose proof (resolveItemID_benign vaultID (ParsedPath.Item parsed) w1 Hi Hg1) as [Hg2 Hr2].
  destruct (resolveItemID _ _ w1) as [[itemID|err] w2]; simpl in *;
    [|by rewrite Hr2].
  unfold clientItemsDelete, logged.
  destruct (op.ItemsDelete vaultID itemID (backend w2)) as [e b3] eqn:Hd.
  destruct (benign_delete good Hbenign _ _ _ _ _ Hg2 Hd) as [Hg3 Hr3].
  destruct e as [err|]; simpl; [by rewrite Hr3|done].
Qed.

End Benign.

(** C2.  For a well-formed path on an open provider: when the vault
    resolution, the item resolution or the backend's delete call fails with
    a not-found error, Delete returns success; when one of them fails with
    another error, Delete returns that error normalised; when all succeed,
    Delete returns success.  Hence whatever a first Delete did, a second
    Delete of the same path on a backend whose listings and deletions fail
    with not-found errors only returns success again. *)
Theorem Delete_not_found_is_success
    (path : string) (p : Provider) (w : World B) (parsed : ParsedPath.t) :
  closed p = false -> ParsePath path (getDefaultVault p) = Ok parsed ->
  (forall err p1 w1,
     resolveVaultID (ParsedPath.Vault parsed) p w = (Err err, p1, w1) ->
     (isNotFoundError (Some err) = true -> Delete path p w = (None, p1, w1)) /\
     (isNotFoundError (Some err) = false ->
        Delete path p w = (Some (mapErr "Delete" path err), p1, w1))) /\
  (forall vaultID p1 w1 err w2,
     resolveVaultID (ParsedPath.Vault parsed) p w = (Ok vaultID, p1, w1) ->
     resolveItemID vaultID (ParsedPath.Item parsed) w1 = (Err err, w2) ->
     (isNotFoundError (Some err) = true -> Delete path p w = (None, p1, w2)) /\
     (isNotFoundError (Some err) = false ->
        Delete path p w = (Some (mapErr "Delete" path err), p1, w2))) /\
  (forall vaultID p1 w1 itemID w2 e w3,
     resolveVaultID (ParsedPath.Vault parsed) p w = (Ok vaultID, p1, w1) ->
     resolveItemID vaultID (ParsedPath.Item parsed) w1 = (Ok itemID, w2) ->
     clientItemsDelete vaultID itemID w2 = (e, w3) ->
     match e with
     | None => Delete path p w = (None, p1, w3)
     | Some err =>
         (isNotFoundError (Some err) = true -> Delete path p w = (None, p1, w3)) /\
         (isNotFoundError (Some err) = false ->
            Delete path p w = (Some (mapErr "Delete" path err), p1, w3))
     end) /\
  (forall good e1 p1 w1,
     benign good ->
     Delete path p w = (e1, p1, w1) -> good (backend w1) ->
     exists p2 w2, Delete path p1 w1 = (None, p2, w2) /\ good (backend w2)).
Proof.
  intros Hc Hp. pose proof (Delete_unfold path p w parsed Hc Hp) as Hd.
  simpl in Hd.
  split; [|split; [|split]].
  - intros err p1 w1 Hv. rewrite Hv in Hd.
    split; intros Hnf; by rewrite Hnf in Hd.
  - intros vaultID p1 w1 err w2 Hv Hi. rewrite Hv, Hi in Hd.
    split; intros Hnf; by rewrite Hnf in Hd.
  - intros vaultID p1 w1 itemID w2 e w3 Hv Hi He. rewrite Hv, Hi, He in Hd.
    destruct e as [err|]; [|done].
    split; intros Hnf; by rewrite Hnf in Hd.
  - intros good e1 p1 w1 Hb H1 Hg.
    pose proof (Delete_extends path p w) as (Hcfg & Hcl & _).
    rewrite H1 in Hcfg, Hcl. simpl in Hcfg, Hcl.
    assert (Hp1 : ParsePath path (getDefaultVault p1) = Ok parsed)
      by (unfold getDefaultVault; by rewrite Hcfg).
    assert (Hc1 : closed p1 = false) by congruence.
    destruct (Delete_benign good Hb path p1 w1 parsed Hc1 Hp1 Hg) as [Hnone Hg2].
    destruct (Delete path p1 w1) as [[e2 p2] w2]. simpl in *. subst e2.
    by exists p2, w2.
Qed.

End DeleteFacts.

(** The in-memory double without injected faults is benign. *)
Lemma Mem_benign : benign (B := Mem.t) (fun b => forall c, Mem.faults b c = None).
Proof.
  split.
  - intros b r b' Hg. simpl. unfold Mem.vaultsListAll, Mem.guarded. rewrite Hg.
    by intros [= <- <-].
  - intros vaultID b r b' Hg. simpl. unfold Mem.itemsListAll, Mem.guarded. rewrite Hg.
    destruct (find _ _); by intros [= <- <-].
  - intros vaultID itemID b e b' Hg. simpl.
    unfold Mem.itemsDelete, Mem.itemsGet, Mem.guarded. rewrite !Hg.
    destruct (find _ (Mem.vaults b)) as [v|]; [|by intros [= <- <-]].
    destruct (find _ (Mem.Items v)); by intros [= <- <-].
Qed.

Lemma Delete_not_found_is_success_witness :
  closed (newProvider demoConfig) = false /\
  ParsePath "V/Item" (getDefaultVault (newProvider demoConfig))
    = Ok (ParsedPath.mk "V" "Item" "" "") /\
  exists e1 p1 w1 p2 w2,
    Delete "V/Item" (newProvider demoConfig) demoWorld = (e1, p1, w1) /\
    Delete "V/Item" p1 w1 = (None, p2, w2).
Proof.
  split; [reflexivity|]. split; [reflexivity|].
  destruct (Delete_not_found_is_success "V/Item" (newProvider demoConfig) demoWorld
              (ParsedPath.mk "V" "Item" "" "") eq_refl eq_refl) as (_ & _ & _ & Hagain).
  destruct (Delete "V/Item" (newProvider demoConfig) demoWorld) as [[e1 p1] w1] eqn:H1.
  destruct (Hagain _ e1 p1 w1 Mem_benign eq_refl) as (p2 & w2 & H2 & _).
  - assert (Hw : w1 = (Delete "V/Item" (newProvider demoConfig) demoWorld).2)
      by (by rewrite H1).
    rewrite Hw. by vm_compute.
  - by exists e1, p1, w1, p2, w2.
Defined.

(** ** Set *)

Section SetFacts.
Context {B : Type} `{op.Client B} `{MapRange}.

(** Whatever error the item resolution gives, Set goes on to create. *)
Lemma Set_creates_on_any_resolution_error
    (path : string) (secret : vault.Secret) (p p1 : Provider) (w w1 w2 : World B)
    (parsed : ParsedPath.t) (vaultID : string) (err : error) :
  closed p = false -> ParsePath path (getDefaultVault p) = Ok parsed ->
  resolveVaultID (ParsedPath.Vault parsed) p w = (Ok vaultID, p1, w1) ->
  resolveItemID vaultID (ParsedPath.Item parsed) w1 = (Err err, w2) ->
  Set_ path secret p w =
  ((createItem vaultID parsed secret p1 w2).1, p1, (createItem vaultID parsed secret p1 w2).2).
Proof.
  intros Hc Hp Hv Hi. unfold Set_. rewrite Hc, Hp, Hv, Hi.
  by destruct (createItem vaultID parsed secret p1 w2).
Qed.

End SetFacts.

(** C4 fails on the code.  The item listing of vault [v1] fails with the
    too-many-items error, which is not a not-found error and which the
    normaliser maps to the ambiguous-path error; Exists reports it, but Set
    treats it as "no such item": it calls the backend's create, returns
    success, and the vault holds two items titled "Item". *)
Theorem Set_creates_item_on_ambiguous_resolution :
  let w := mkWorld faultyStore [] in
  let p := newProvider demoConfig in
  resolveItemID "v1" "Item" (mkWorld faultyStore [op.VaultsListAllCall])
    = (Err (errorString "tooManyItems"),
       mkWorld faultyStore [op.VaultsListAllCall; op.ItemsListAllCall "v1"]) /\
  isNotFoundError (Some (errorString "tooManyItems")) = false /\
  vault.Err (mapErr "Set" "V/Item" (errorString "tooManyItems")) = vault.Wrapped errAmbiguous /\
  (Exists "V/Item" p w).1.1
    = Err (vault.NewVaultError "Exists" "V/Item" ProviderName (vault.Wrapped errAmbiguous)) /\
  (Set_ "V/Item" demoSecret p w).1.1 = None /\
  last (calls (Set_ "V/Item" demoSecret p w).2)
    = Some (op.ItemsCreateCall
              (op.ItemCreateParams.mk "v1" "Item" "SecureNote"
                 [op.ItemField.mk "password" "password" op.ItemFieldTypeConcealed "x" None]
                 [])) /\
  map (fun v => map op.Item.Title (Mem.Items v))
      (Mem.vaults (backend (Set_ "V/Item" demoSecret p w).2))
    = [["Item"; "Item"]; []].
Proof. vm_compute. repeat split. Qed.

(** ** GetBatch *)

Section BatchFacts.
Context {B : Type} `{op.Client B} `{MapRange}.

Lemma getBatchLoop_app (pre post : list string) (m : gmap string vault.Secret)
    (p : Provider) (w : World B) :
  getBatchLoop (pre ++ post) m p w =
  getBatchLoop post (getBatchLoop pre m p w).1.1
    (getBatchLoop pre m p w).1.2 (getBatchLoop pre m p w).2.
Proof.
  revert m p w. induction pre as [|path pre IH]; intros m p w; simpl; [done|].
  destruct (Get path p w) as [[[secret|err] p1] w1]; apply IH.
Qed.

Lemma getBatchLoop_other (paths : list string) (m : gmap string vault.Secret)
    (p : Provider) (w : World B) (path : string) :
  ~ In path paths -> (getBatchLoop paths m p w).1.1 !! path = m !! path.
Proof.
  revert m p w. induction paths as [|q paths IH]; intros m p w Hnin; simpl; [done|].
  assert (Hq : q <> path) by (intros ->; apply Hnin; by left).
  assert (Hrest : ~ In path paths) by (intros Hin; apply Hnin; by right).
  destruct (Get q p w) as [[[secret|err] p1] w1]; rewrite IH by done;
    [by rewrite lookup_insert_ne|done].
Qed.

Lemma getBatchLoop_from_Get (paths : list string) (m : gmap string vault.Secret)
    (p : Provider) (w : World B) (path : string) (secret : vault.Secret) :
  (getBatchLoop paths m p w).1.1 !! path = Some secret ->
  m !! path = Some secret \/
  exists p0 w0, In path paths /\ (Get path p0 w0).1.1 = Ok secret.
Proof.
  revert m p w. induction paths as [|q paths IH]; intros m p w; simpl; [by left|].
  destruct (Get q p w) as [[[s|err] p1] w1] eqn:Hg; intros Hl.
  - destruct (IH _ _ _ Hl) as [Hm|(p0 & w0 & Hin & Hok)].
    + destruct (decide (q = path)) as [->|Hne].
      * rewrite lookup_insert_eq in Hm. injection Hm as ->.
        right. exists p, w. split; [by left|]. by rewrite Hg.
      * rewrite lookup_insert_ne in Hm by done. by left.
    + right. exists p0, w0. split; [by right|done].
  - destruct (IH _ _ _ Hl) as [Hm|(p0 & w0 & Hin & Hok)]; [by left|].
    right. exists p0, w0. split; [by right|done].
Qed.

(** C8.  On an open provider GetBatch never fails.  Its result has an
    entry only for paths of the input, every entry is the record a Get of
    that path returned, and for the last occurrence of a path in the input
    the entry is the record of that Get when it succeeds (run after the
    Gets of the paths before it); when it fails the path is left out (it
    has an entry only if an earlier occurrence succeeded).  For two paths
    of which the first resolves and the second does not, the result holds
    the first only. *)
Theorem GetBatch_partial_success (paths : list string) (p : Provider) (w : World B) :
  closed p = false ->
  exists results p' w',
    GetBatch paths p w = (Ok results, p', w') /\
    (forall path, ~ In path paths -> results !! path = None) /\
    (forall path secret,
       results !! path = Some secret ->
       exists p0 w0, In path paths /\ (Get path p0 w0).1.1 = Ok secret) /\
    (forall pre path post,
       paths = (pre ++ path :: post)%list -> ~ In path post ->
       let before := getBatchLoop pre ∅ p w in
       results !! path =
       match (Get path before.1.2 before.2).1.1 with
       | Ok secret => Some secret
       | Err _ => before.1.1 !! path
       end) /\
    (forall pre path post,
       paths = (pre ++ path :: post)%list -> ~ In path pre -> ~ In path post ->
       let before := getBatchLoop pre ∅ p w in
       results !! path =
       match (Get path before.1.2 before.2).1.1 with
       | Ok secret => Some secret
       | Err _ => None
       end) /\
    (forall p1 p2 secret err pa wa pb wb,
       paths = [p1; p2] ->
       Get p1 p w = (Ok secret, pa, wa) -> Get p2 pa wa = (Err err, pb, wb) ->
       results = {[ p1 := secret ]} /\ p' = pb /\ w' = wb).
Proof.
  intros Hc.
  assert (Hgb : GetBatch paths p w =
                (Ok (getBatchLoop paths ∅ p w).1.1,
                 (getBatchLoop paths ∅ p w).1.2, (getBatchLoop paths ∅ p w).2)).
  { unfold GetBatch. rewrite Hc. destruct paths as [|q paths]; [done|].
    by destruct (getBatchLoop (q :: paths) ∅ p w) as [[m p1] w1]. }
  eexists _, _, _. split; [exact Hgb|].
  assert (Hlast : forall pre path post,
       paths = (pre ++ path :: post)%list -> ~ In path post ->
       (getBatchLoop paths ∅ p w).1.1 !! path =
       match (Get path (getBatchLoop pre ∅ p w).1.2 (getBatchLoop pre ∅ p w).2).1.1 with
       | Ok secret => Some secret
       | Err _ => (getBatchLoop pre ∅ p w).1.1 !! path
       end).
  { intros pre path post -> Hpost. rewrite getBatchLoop_app.
    destruct (getBatchLoop pre ∅ p w) as [[m0 p0] w0]. simpl.
    destruct (Get path p0 w0) as [[[secret|err] p1] w1]; simpl;
      rewrite getBatchLoop_other by done; [apply lookup_insert_eq|done]. }
  split; [|split; [|split; [|split]]].
  - intros path Hnin. by rewrite getBatchLoop_other.
  - intros path secret Hl.
    destruct (getBatchLoop_from_Get _ _ _ _ _ _ Hl) as [Hm|Hg]; [done|exact Hg].
  - exact Hlast.
  - intros pre path post Hpaths Hpre Hpost. simpl.
    rewrite (Hlast pre path post Hpaths Hpost).
    destruct (Get path _ _) as [[[secret|err] p1] w1]; simpl; [done|].
    by rewrite getBatchLoop_other.
  - intros p1 p2 secret err pa wa pb wb -> H1 H2. simpl.
    rewrite H1, H2. done.
Qed.

End BatchFacts.

Lemma GetBatch_partial_success_witness :
  closed (newProvider demoConfig) = false /\
  exists results p' w',
    GetBatch ["V/Item/password"; "V/Nope"] (newProvider demoConfig) demoWorld
      = (Ok results, p', w') /\
    dom results = {[ "V/Item/password" ]}.
Proof.
  split; [reflexivity|].
  destruct (GetBatch_partial_success (B := Mem.t) ["V/Item/password"; "V/Nope"]
              (newProvider demoConfig) demoWorld eq_refl)
    as (results & p' & w' & Hgb & _ & _ & _ & _ & Htwo).
  exists results, p', w'. split; [exact Hgb|].
  destruct (Get "V/Item/password" (newProvider demoConfig) demoWorld)
    as [[r1 pa] wa] eqn:H1.
  destruct (Get "V/Nope" pa wa) as [[r2 pb] wb] eqn:H2.
  assert (Hr1 : exists secret, r1 = Ok secret).
  { replace r1 with (Get "V/Item/password" (newProvider demoConfig) demoWorld).1.1
      by (by rewrite H1). vm_compute. eauto. }
  assert (Hr2 : exists err, r2 = Err err).
  { replace r2 with (Get "V/Nope" pa wa).1.1 by (by rewrite H2).
    replace pa with (Get "V/Item/password" (newProvider demoConfig) demoWorld).1.2
      by (by rewrite H1).
    replace wa with (Get "V/Item/password" (newProvider demoConfig) demoWorld).2
      by (by rewrite H1).
    vm_compute. eauto. }
  destruct Hr1 as [secret ->]. destruct Hr2 as [err ->].
  destruct (Htwo _ _ _ _ _ _ _ _ eq_refl H1 H2) as (-> & _ & _).
  by rewrite dom_singleton_L.
Defined.

(** * Further properties of the package *)

(** ** The path grammar: segments *)

Lemma hasByte_app (c : ascii) (a b : string) :
  hasByte c (a ++ b) = hasByte c a || hasByte c b.
Proof.
  induction a as [|x a IH]; simpl; [done|]. by rewrite IH, orb_assoc.
Qed.

Lemma Split_app_sep (a b : string) (sep : ascii) :
  strings.Split (a ++ String sep b) sep = (strings.Split a sep ++ strings.Split b sep)%list.
Proof.
  induction a as [|c a IH]; simpl.
  - by rewrite Ascii.eqb_refl.
  - rewrite IH. destruct (Ascii.eqb c sep); [done|].
    pose proof (Split_nonnil a sep) as Hne.
    by destruct (strings.Split a sep).
Qed.

Lemma Split_pieces_free (s : string) (sep : ascii) :
  Forall (fun piece => hasByte sep piece = false) (strings.Split s sep).
Proof.
  induction s as [|c s IH]; simpl.
  - by constructor.
  - destruct (Ascii.eqb c sep) eqn:Hc; [by constructor|].
    destruct (strings.Split s sep) as [|piece rest]; [by repeat constructor; simpl; rewrite Hc|].
    inversion IH as [|? ? Hp Hr]; subst.
    constructor; [|done]. simpl. by rewrite Hc, Hp.
Qed.

Lemma filterNonEmpty_app (l1 l2 : list string) :
  filterNonEmpty (l1 ++ l2) = (filterNonEmpty l1 ++ filterNonEmpty l2)%list.
Proof.
  induction l1 as [|x l1 IH]; simpl; [done|].
  destruct (decide (x = "")); by rewrite IH.
Qed.

Lemma filterNonEmpty_Forall (P : string -> Prop) (l : list string) :
  Forall P l -> Forall P (filterNonEmpty l).
Proof.
  induction 1 as [|x l Hx Hl IH]; simpl; [done|].
  destruct (decide (x = "")); [done|by constructor].
Qed.

(** The segments of [a/b] are those of [a] followed by those of [b]. *)
Lemma segments_app (a b : string) :
  filterNonEmpty (strings.Split (a ++ "/" ++ b) slash) =
  (filterNonEmpty (strings.Split a slash) ++ filterNonEmpty (strings.Split b slash))%list.
Proof.
  change (a ++ "/" ++ b) with (a ++ String slash b).
  by rewrite Split_app_sep, filterNonEmpty_app.
Qed.

Lemma ParsePath_plain_segments (p1 p2 d : string) :
  strings.HasPrefix p1 "op://" = false -> strings.HasPrefix p2 "op://" = false ->
  filterNonEmpty (strings.Split p1 slash) = filterNonEmpty (strings.Split p2 slash) ->
  ParsePath p1 d = ParsePath p2 d.
Proof.
  intros H1 H2 Hs. unfold ParsePath. rewrite H1, H2, Hs.
  destruct (decide (p1 = "")) as [->|]; destruct (decide (p2 = "")) as [->|]; try done.
  by rewrite <- Hs.
Qed.

Lemma segments_four (V I S F : string) :
  V <> "" -> I <> "" -> S <> "" -> F <> "" ->
  hasByte slash V = false -> hasByte slash I = false ->
  hasByte slash S = false -> hasByte slash F = false ->
  filterNonEmpty (strings.Split (V ++ "/" ++ I ++ "/" ++ S ++ "/" ++ F) slash) = [V; I; S; F].
Proof.
  intros. rewrite !segments_app, !Split_noSep by done. simpl.
  by rewrite !decide_False.
Qed.

(** X1.  A plain path fails to parse exactly when it has no non-empty
    segment, more than four of them, or a single one while no default vault
    is configured; the failure is the invalid-path error.  So the empty
    path, a path of slashes only, [a/b/c/d/e], and [a] without a default
    vault are all rejected. *)
Theorem ParsePath_plain_failure (path defaultVault : string) :
  strings.HasPrefix path "op://" = false ->
  let n := length (filterNonEmpty (strings.Split path slash)) in
  ((exists err, ParsePath path defaultVault = Err err) <->
   (n = 0 \/ 4 < n \/ (n = 1 /\ defaultVault = ""))%nat) /\
  (forall err, ParsePath path defaultVault = Err err ->
     err = vault.ErrInvalidPath \/ exists detail, err = vault.ErrInvalidPathf detail).
Proof.
  intros Hplain n. subst n. unfold ParsePath. rewrite Hplain.
  destruct (decide (path = "")) as [->|Hne].
  { simpl. split; [|intros err [= <-]; by left].
    split; [intros _; by left|eauto]. }
  destruct (filterNonEmpty (strings.Split path slash))
    as [|a [|b [|c [|e [|f l]]]]]; simpl.
  - split; [split; [intros _; by left|eauto]|intros err [= <-]; by left].
  - destruct (decide (defaultVault = "")) as [->|Hd].
    + split; [split; [intros _; right; right; done|eauto]|].
      intros err [= <-]. right. eauto.
    + split; [|done]. split; [by intros [err ?]|].
      intros [?|[?|[_ ?]]]; [lia|lia|done].
  - destruct (decide (defaultVault = "")); (split; [|done]);
      (split; [by intros [err ?]|intros [?|[?|[? _]]]; lia]).
  - split; [|done]. split; [by intros [err ?]|intros [?|[?|[? _]]]; lia].
  - split; [|done]. split; [by intros [err ?]|intros [?|[?|[? _]]]; lia].
  - split; [split; [intros _; right; left; lia|eauto]|].
    intros err [= <-]. right. eauto.
Qed.

Lemma ParsePath_plain_failure_witness :
  strings.HasPrefix "a/b/c/d/e" "op://" = false /\
  exists err, ParsePath "a/b/c/d/e" "Private" = Err err.
Proof.
  split; [reflexivity|].
  destruct (ParsePath_plain_failure "a/b/c/d/e" "Private" eq_refl) as [[_ Hfail] _].
  apply Hfail. right. left. simpl. lia.
Defined.

(** X2.  Extra separators do not matter in a plain path: a doubled
    slash, a leading slash and a trailing slash leave the result of the
    parse as it is (as long as the path stays a plain one). *)
Theorem ParsePath_extra_slashes (a b defaultVault : string) :
  (strings.HasPrefix (a ++ "/" ++ b) "op://" = false ->
   strings.HasPrefix (a ++ "//" ++ b) "op://" = false ->
   ParsePath (a ++ "//" ++ b) defaultVault = ParsePath (a ++ "/" ++ b) defaultVault) /\
  (strings.HasPrefix a "op://" = false ->
   ParsePath ("/" ++ a) defaultVault = ParsePath a defaultVault) /\
  (strings.HasPrefix a "op://" = false ->
   strings.HasPrefix (a ++ "/") "op://" = false ->
   ParsePath (a ++ "/") defaultVault = ParsePath a defaultVault).
Proof.
  split; [|split].
  - intros H1 H2. apply ParsePath_plain_segments; [done|done|].
    rewrite (segments_app a b).
    change (a ++ "//" ++ b) with (a ++ "/" ++ ("" ++ "/" ++ b)).
    by rewrite (segments_app a ("" ++ "/" ++ b)), (segments_app "" b).
  - intros Ha. apply ParsePath_plain_segments; [done|done|].
    change ("/" ++ a) with ("" ++ "/" ++ a). by rewrite (segments_app "" a).
  - intros Ha Hs. apply ParsePath_plain_segments; [done|done|].
    change (a ++ "/") with (a ++ "/" ++ ""). rewrite (segments_app a ""). simpl.
    by rewrite app_nil_r.
Qed.

Lemma ParsePath_extra_slashes_witness :
  strings.HasPrefix ("A" ++ "/" ++ "B//C") "op://" = false /\
  strings.HasPrefix ("A" ++ "//" ++ "B//C") "op://" = false /\
  ParsePath "A//B//C" "" = ParsePath "A/B//C" "" /\
  ParsePath "A//B//C" "" = Ok (ParsedPath.mk "A" "B" "" "C").
Proof.
  split; [reflexivity|]. split; [reflexivity|].
  destruct (ParsePath_extra_slashes "A" "B//C" "") as (Hd & _ & _).
  split; [exact (Hd eq_refl eq_refl)|reflexivity].
Defined.

(** X3.  Whatever the input, a successfully parsed path names a vault and
    an item; its item, section and field contain no slash; and it has a
    section only together with a field. *)
Theorem ParsePath_ok_invariant (path defaultVault : string) (parsed : ParsedPath.t) :
  ParsePath path defaultVault = Ok parsed ->
  ParsedPath.Vault parsed <> "" /\ ParsedPath.Item parsed <> "" /\
  hasByte slash (ParsedPath.Item parsed) = false /\
  hasByte slash (ParsedPath.Section parsed) = false /\
  hasByte slash (ParsedPath.Field parsed) = false /\
  (ParsedPath.Section parsed <> "" -> ParsedPath.Field parsed <> "").
Proof.
  intros Hp. destruct (ParsePath_nonempty _ _ _ Hp) as [Hv Hi].
  split; [done|]. split; [done|].
  revert Hp. unfold ParsePath, parseSecretReference.
  destruct (decide (path = "")); [done|].
  destruct (strings.HasPrefix path "op://").
  - set (body := hd "" _).
    pose proof (filterNonEmpty_Forall _ _ (Split_pieces_free body slash)) as Hfree.
    pose proof (filterNonEmpty_nonempty (strings.Split body slash)) as Hne.
    destruct (filterNonEmpty (strings.Split body slash))
      as [|a [|b [|c [|e [|f l]]]]]; try done; intros [= <-]; simpl;
      repeat match goal with H : Forall _ (_ :: _) |- _ => inversion H; clear H; subst end;
      repeat split; try done; intros _; apply Hne; simpl; tauto.
  - pose proof (filterNonEmpty_Forall _ _ (Split_pieces_free path slash)) as Hfree.
    pose proof (filterNonEmpty_nonempty (strings.Split path slash)) as Hne.
    destruct (filterNonEmpty (strings.Split path slash))
      as [|a [|b [|c [|e [|f l]]]]]; try done; repeat case_decide; try done;
      intros [= <-]; simpl;
      repeat match goal with H : Forall _ (_ :: _) |- _ => inversion H; clear H; subst end;
      repeat split; try done; intros _; apply Hne; simpl; tauto.
Qed.

Lemma ParsePath_ok_invariant_witness :
  ParsePath "//Private//Login/Security/totp/" "D"
    = Ok (ParsedPath.mk "Private" "Login" "Security" "totp") /\
  ParsedPath.Vault (ParsedPath.mk "Private" "Login" "Security" "totp") <> "".
Proof.
  split; [reflexivity|].
  exact (proj1 (ParsePath_ok_invariant "//Private//Login/Security/totp/" "D" _ eq_refl)).
Defined.

(** ** The path grammar: round trips *)

Lemma append_empty_r (s : string) : s ++ "" = s.
Proof.
  induction s as [|c s IH]; [done|].
  change (String c (s ++ "") = String c s). by rewrite IH.
Qed.

Lemma dropPrefix_app (pre r : string) : strings.dropPrefix (pre ++ r) pre = r.
Proof. induction pre as [|a pre IH]; simpl; [by destruct r|exact IH]. Qed.

Lemma TrimPrefix_app (pre r : string) : strings.TrimPrefix (pre ++ r) pre = r.
Proof. unfold strings.TrimPrefix. by rewrite HasPrefix_app, dropPrefix_app. Qed.

Lemma ParsePath_reference (body defaultVault : string) :
  ParsePath ("op://" ++ body) defaultVault =
  match filterNonEmpty
          (strings.Split (hd "" (strings.Split body "?"%char)) slash) with
  | [v; i] => Ok (ParsedPath.mk v i "" "")
  | [v; i; f] => Ok (ParsedPath.mk v i "" f)
  | [v; i; s; f] => Ok (ParsedPath.mk v i s f)
  | _ => Err (vault.ErrInvalidPathf "invalid secret reference format")
  end.
Proof.
  unfold ParsePath. rewrite decide_False by done.
  rewrite (HasPrefix_app "op://" body). unfold parseSecretReference.
  by rewrite (TrimPrefix_app "op://" body).
Qed.

Lemma ParsePath_reference_plain (body defaultVault : string) :
  hasByte "?"%char body = false ->
  ParsePath ("op://" ++ body) defaultVault =
  match filterNonEmpty (strings.Split body slash) with
  | [v; i] => Ok (ParsedPath.mk v i "" "")
  | [v; i; f] => Ok (ParsedPath.mk v i "" f)
  | [v; i; s; f] => Ok (ParsedPath.mk v i s f)
  | _ => Err (vault.ErrInvalidPathf "invalid secret reference format")
  end.
Proof.
  intros Hq. rewrite ParsePath_reference. by rewrite (Split_noSep body _ Hq).
Qed.

(** X4.  Rendering a path as a secret reference and parsing the reference
    gives the path back, under any default vault, for every path that has a
    vault and an item, a section only together with a field, and no slash
    and no question mark in its components. *)
Theorem SecretReference_roundtrip (p : ParsedPath.t) (defaultVault : string) :
  shaped p -> partsFree slash p -> partsFree "?"%char p ->
  ParsePath (ParsedPath.SecretReference p) defaultVault = Ok p.
Proof.
  destruct p as [V I S F]. unfold shaped, partsFree, ParsedPath.SecretReference. simpl.
  intros (HV & HI & HSF) (HVs & HIs & HSs & HFs) (HVq & HIq & HSq & HFq).
  destruct (decide (F = "")) as [->|HF].
  - assert (S = "") as -> by (destruct (decide (S = "")); [done|by destruct HSF]).
    rewrite ParsePath_reference_plain
      by (rewrite !hasByte_app, HVq, HIq; reflexivity).
    by rewrite segments_two.
  - destruct (decide (S = "")) as [->|HS].
    + rewrite ParsePath_reference_plain
        by (rewrite !hasByte_app, HVq, HIq, HFq; reflexivity).
      by rewrite segments_three.
    + rewrite ParsePath_reference_plain
        by (rewrite !hasByte_app, HVq, HIq, HSq, HFq; reflexivity).
      by rewrite segments_four.
Qed.

Lemma SecretReference_roundtrip_witness :
  shaped (ParsedPath.mk "Private" "Login" "Security" "totp") /\
  ParsePath (ParsedPath.SecretReference (ParsedPath.mk "Private" "Login" "Security" "totp")) "D"
    = Ok (ParsedPath.mk "Private" "Login" "Security" "totp").
Proof.
  assert (Hs : shaped (ParsedPath.mk "Private" "Login" "Security" "totp"))
    by (repeat split; discriminate).
  split; [exact Hs|].
  apply SecretReference_roundtrip; [exact Hs| |]; repeat split.
Defined.

(** X5.  In a reference URI the query suffix, from the first question
    mark on, is ignored, and so is the default vault: the URI parses as its
    part before the question mark does, whatever the default vaults. *)
Theorem ParsePath_reference_query_ignored (body query d1 d2 : string) :
  hasByte "?"%char body = false ->
  ParsePath ("op://" ++ body ++ "?" ++ query) d1 = ParsePath ("op://" ++ body) d2.
Proof.
  intros Hq. rewrite !ParsePath_reference.
  change (body ++ "?" ++ query) with (body ++ String "?"%char query).
  by rewrite (Split_piece body _ query Hq), (Split_noSep body _ Hq).
Qed.

Lemma ParsePath_reference_query_ignored_witness :
  hasByte "?"%char "Private/Login/totp" = false /\
  ParsePath "op://Private/Login/totp?attribute=totp" "D"
    = Ok (ParsedPath.mk "Private" "Login" "" "totp").
Proof.
  split; [reflexivity|].
  change "op://Private/Login/totp?attribute=totp"
    with ("op://" ++ "Private/Login/totp" ++ "?" ++ "attribute=totp").
  by rewrite (ParsePath_reference_query_ignored "Private/Login/totp" "attribute=totp" "D" "").
Defined.

(** X6.  The canonical string of a path with a vault, an item, slash-free
    components and a section only together with a field parses back to the
    path when no default vault is configured; with a default vault it does
    so when the path has a field. *)
Theorem ParsedPath_String_roundtrip (p : ParsedPath.t) (defaultVault : string) :
  shaped p -> partsFree slash p ->
  defaultVault = "" \/ ParsedPath.Field p <> "" ->
  ParsePath (ParsedPath.String p) defaultVault = Ok p.
Proof.
  destruct p as [V I S F]. unfold shaped, partsFree. simpl.
  intros (HV & HI & HSF) (HVs & HIs & HSs & HFs) Hd.
  assert (Hplain : forall rest,
            strings.HasPrefix (V ++ "/" ++ I ++ rest) "op://" = false).
  { intros rest. apply (plain_not_reference V (I ++ rest)); [done|].
    destruct I as [|c I]; [done|]. simpl in HIs.
    apply orb_false_iff in HIs as [Hc _].
    change (String c I ++ rest) with (String c (I ++ rest)).
    simpl. rewrite Hc.
    destruct (strings.Split (I ++ rest) slash) as [|h t]; eauto. }
  destruct (decide (F = "")) as [->|HF].
  - assert (S = "") as -> by (destruct (decide (S = "")); [done|by destruct HSF]).
    destruct Hd as [->|Hd]; [|done].
    assert (Hstr : ParsedPath.String (ParsedPath.mk V I "" "") = V ++ "/" ++ I)
      by (unfold ParsedPath.String; simpl; by rewrite !decide_False).
    rewrite Hstr. unfold ParsePath.
    rewrite decide_False by by apply app_nonempty.
    pose proof (Hplain "") as Hp. rewrite append_empty_r in Hp.
    by rewrite Hp, segments_two.
  - destruct (decide (S = "")) as [->|HS].
    + assert (Hstr : ParsedPath.String (ParsedPath.mk V I "" F) = V ++ "/" ++ I ++ "/" ++ F)
        by (unfold ParsedPath.String; simpl; by rewrite !decide_False).
      rewrite Hstr. unfold ParsePath.
      rewrite decide_False by by apply app_nonempty.
      by rewrite (Hplain ("/" ++ F)), segments_three.
    + assert (Hstr : ParsedPath.String (ParsedPath.mk V I S F)
                     = V ++ "/" ++ I ++ "/" ++ S ++ "/" ++ F)
        by (unfold ParsedPath.String; simpl; by rewrite !decide_False).
      rewrite Hstr. unfold ParsePath.
      rewrite decide_False by by apply app_nonempty.
      by rewrite (Hplain ("/" ++ S ++ "/" ++ F)), segments_four.
Qed.

Lemma ParsedPath_String_roundtrip_witness :
  shaped (ParsedPath.mk "Private" "Database Creds" "" "") /\
  ParsePath (ParsedPath.String (ParsedPath.mk "Private" "Database Creds" "" "")) ""
    = Ok (ParsedPath.mk "Private" "Database Creds" "" "").
Proof.
  assert (Hs : shaped (ParsedPath.mk "Private" "Database Creds" "" ""))
    by (repeat split; done).
  split; [exact Hs|].
  apply ParsedPath_String_roundtrip; [exact Hs|repeat split|by left].
Defined.

(** ** Field types and field identifiers *)

Lemma inferFieldType_concealed_test (name : string) :
  let nameLower := strings.ToLower name in
  strings.Contains nameLower "password" || strings.Contains nameLower "secret" ||
  strings.Contains nameLower "token" || strings.Contains nameLower "key" ||
  strings.Contains nameLower "credential" =
  containsAny name ["password"; "secret"; "token"; "key"; "credential"].
Proof.
  unfold containsAny. cbn [existsb].
  change (strings.ToLower "password") with "password".
  change (strings.ToLower "secret") with "secret".
  change (strings.ToLower "token") with "token".
  change (strings.ToLower "key") with "key".
  change (strings.ToLower "credential") with "credential".
  cbv zeta. by repeat (destruct (strings.Contains _ _)).
Qed.

Lemma inferFieldType_url_test (name : string) :
  let nameLower := strings.ToLower name in
  strings.Contains nameLower "url" || strings.Contains nameLower "website" ||
  strings.Contains nameLower "endpoint" =
  containsAny name ["url"; "website"; "endpoint"].
Proof.
  unfold containsAny. cbn [existsb].
  change (strings.ToLower "url") with "url".
  change (strings.ToLower "website") with "website".
  change (strings.ToLower "endpoint") with "endpoint".
  cbv zeta. by repeat (destruct (strings.Contains _ _)).
Qed.

Lemma inferFieldType_phone_test (name : string) :
  let nameLower := strings.ToLower name in
  strings.Contains nameLower "phone" || strings.Contains nameLower "mobile" ||
  strings.Contains nameLower "tel" =
  containsAny name ["phone"; "mobile"; "tel"].
Proof.
  unfold containsAny. cbn [existsb].
  change (strings.ToLower "phone") with "phone".
  change (strings.ToLower "mobile") with "mobile".
  change (strings.ToLower "tel") with "tel".
  cbv zeta. by repeat (destruct (strings.Contains _ _)).
Qed.

Lemma inferFieldType_tests (name value : string) :
  inferFieldType name value =
  if containsAny name ["password"; "secret"; "token"; "key"; "credential"]
  then op.ItemFieldTypeConcealed
  else if containsAny name ["url"; "website"; "endpoint"] then op.ItemFieldTypeURL
  else if containsAny name ["phone"; "mobile"; "tel"] then op.ItemFieldTypePhone
  else if strings.HasPrefix value "otpauth://" then op.ItemFieldTypeTOTP
  else op.ItemFieldTypeText.
Proof.
  unfold inferFieldType. cbv zeta.
  pose proof (inferFieldType_concealed_test name) as H1.
  pose proof (inferFieldType_url_test name) as H2.
  pose proof (inferFieldType_phone_test name) as H3.
  cbv zeta in H1, H2, H3. by rewrite H1, H2, H3.
Qed.

(** X7.  The type inferred for a field depends on the name first and on
    the value last, letter case of the name apart: a name containing
    password, secret, token, key or credential is concealed whatever else
    it contains and whatever the value; else one containing url, website or
    endpoint is a URL; else one containing phone, mobile or tel is a phone;
    only for a name containing none of these does a value starting with
    [otpauth://] make a one-time-code field, and any other value a text
    field.  That a name contains none of the words of a class is meant
    byte-wise, letter case of [A-Z] apart: the three later cases are
    therefore stated for ASCII names, where this is what the Go function
    tests. *)
Theorem inferFieldType_classification (name value : string) :
  let concealed := ["password"; "secret"; "token"; "key"; "credential"] in
  let url := ["url"; "website"; "endpoint"] in
  let phone := ["phone"; "mobile"; "tel"] in
  (occursAny concealed name -> inferFieldType name value = op.ItemFieldTypeConcealed) /\
  (strings.isASCII name = true ->
   (~ occursAny concealed name -> occursAny url name ->
      inferFieldType name value = op.ItemFieldTypeURL) /\
   (~ occursAny concealed name -> ~ occursAny url name -> occursAny phone name ->
      inferFieldType name value = op.ItemFieldTypePhone) /\
   (~ occursAny concealed name -> ~ occursAny url name -> ~ occursAny phone name ->
      inferFieldType name value =
      if strings.HasPrefix value "otpauth://" then op.ItemFieldTypeTOTP
      else op.ItemFieldTypeText)).
Proof.
  intros concealed url phone. subst concealed url phone.
  rewrite inferFieldType_tests. split.
  - intros Hc. apply containsAny_spec in Hc. by rewrite Hc.
  - intros _. repeat split.
    + intros Hc Hu. apply containsAny_false in Hc. apply containsAny_spec in Hu.
      by rewrite Hc, Hu.
    + intros Hc Hu Hp. apply containsAny_false in Hc, Hu. apply containsAny_spec in Hp.
      by rewrite Hc, Hu, Hp.
    + intros Hc Hu Hp. apply containsAny_false in Hc, Hu, Hp.
      by rewrite Hc, Hu, Hp.
Qed.

Lemma inferFieldType_classification_witness :
  (occursAny ["password"; "secret"; "token"; "key"; "credential"] "Monkey URL" /\
   inferFieldType "Monkey URL" "otpauth://totp/x" = op.ItemFieldTypeConcealed) /\
  (strings.isASCII "Home Page URL" = true /\
   ~ occursAny ["password"; "secret"; "token"; "key"; "credential"] "Home Page URL" /\
   occursAny ["url"; "website"; "endpoint"] "Home Page URL" /\
   inferFieldType "Home Page URL" "otpauth://totp/x" = op.ItemFieldTypeURL).
Proof.
  assert (Hocc : occursAny ["password"; "secret"; "token"; "key"; "credential"] "Monkey URL").
  { exists "key". split; [simpl; tauto|]. by exists "Mon", "key", " URL". }
  assert (Hc : ~ occursAny ["password"; "secret"; "token"; "key"; "credential"] "Home Page URL")
    by (by apply containsAny_false).
  assert (Hu : occursAny ["url"; "website"; "endpoint"] "Home Page URL").
  { exists "url". split; [simpl; tauto|]. by exists "Home Page ", "URL", "". }
  split.
  - split; [exact Hocc|].
    exact (proj1 (inferFieldType_classification "Monkey URL" "otpauth://totp/x") Hocc).
  - split; [reflexivity|]. split; [exact Hc|]. split; [exact Hu|].
    destruct (proj2 (inferFieldType_classification "Home Page URL" "otpauth://totp/x") eq_refl)
      as (Hurl & _).
    exact (Hurl Hc Hu).
Defined.

Lemma TrimRight_cons (c : ascii) (s : string) (cut : ascii) :
  strings.TrimRight (String c s) cut =
  match strings.TrimRight s cut with
  | EmptyString => if Ascii.eqb c cut then EmptyString else String c EmptyString
  | t => String c t
  end.
Proof. reflexivity. Qed.

Lemma TrimRight_idem (s : string) (cut : ascii) :
  strings.TrimRight (strings.TrimRight s cut) cut = strings.TrimRight s cut.
Proof.
  induction s as [|c s IH]; [done|].
  rewrite TrimRight_cons.
  destruct (strings.TrimRight s cut) as [|d u] eqn:Hu.
  - destruct (Ascii.eqb c cut) eqn:Hc; [done|].
    rewrite TrimRight_cons. simpl. by rewrite Hc.
  - rewrite TrimRight_cons, IH. done.
Qed.

Lemma TrimRight_head (c : ascii) (s : string) (cut : ascii) :
  Ascii.eqb c cut = false ->
  exists u, strings.TrimRight (String c s) cut = String c u.
Proof.
  intros Hc. simpl. destruct (strings.TrimRight s cut); rewrite ?Hc; eauto.
Qed.

Lemma TrimLeft_head (s : string) (cut : ascii) :
  strings.TrimLeft s cut = "" \/
  exists c u, strings.TrimLeft s cut = String c u /\ Ascii.eqb c cut = false.
Proof.
  induction s as [|c s IH]; simpl; [by left|].
  destruct (Ascii.eqb c cut) eqn:Hc; [exact IH|]. right. eauto.
Qed.

Lemma Trim_idem (s : string) (cut : ascii) :
  strings.Trim (strings.Trim s cut) cut = strings.Trim s cut.
Proof.
  unfold strings.Trim.
  destruct (TrimLeft_head s cut) as [->|(c & u & -> & Hc)]; [done|].
  destruct (TrimRight_head c u cut Hc) as [v Hv].
  rewrite Hv. cbn [strings.TrimLeft]. rewrite Hc, <- Hv.
  apply TrimRight_idem.
Qed.

Lemma allBytes_TrimLeft (P : ascii -> bool) (s : string) (cut : ascii) :
  allBytes P s = true -> allBytes P (strings.TrimLeft s cut) = true.
Proof.
  induction s as [|c s IH]; simpl; [done|].
  intros Hs. apply andb_true_iff in Hs as [Hc Hs].
  destruct (Ascii.eqb c cut); [by apply IH|]. simpl. by rewrite Hc, Hs.
Qed.

Lemma allBytes_TrimRight (P : ascii -> bool) (s : string) (cut : ascii) :
  allBytes P s = true -> allBytes P (strings.TrimRight s cut) = true.
Proof.
  induction s as [|c s IH]; simpl; [done|].
  intros Hs. apply andb_true_iff in Hs as [Hc Hs]. specialize (IH Hs).
  destruct (strings.TrimRight s cut) as [|d u].
  - destruct (Ascii.eqb c cut); simpl; [done|by rewrite Hc].
  - simpl in *. by rewrite Hc, IH.
Qed.

Lemma allBytes_filterBytes (P : ascii -> bool) (s : string) :
  allBytes P (strings.filterBytes P s) = true.
Proof.
  induction s as [|c s IH]; simpl; [done|].
  destruct (P c) eqn:Hc; [|done]. simpl. by rewrite Hc, IH.
Qed.

Lemma filterBytes_id (P : ascii -> bool) (s : string) :
  allBytes P s = true -> strings.filterBytes P s = s.
Proof.
  induction s as [|c s IH]; simpl; [done|].
  intros Hs. apply andb_true_iff in Hs as [Hc Hs]. by rewrite Hc, IH.
Qed.

Lemma idByte_fixed (c : ascii) :
  idByte c = true ->
  strings.lowerByte c = c /\ Ascii.eqb c " "%char = false /\ Ascii.eqb c "-"%char = false.
Proof.
  intros Hid. split; [|split].
  - unfold strings.lowerByte. unfold idByte in Hid.
    destruct ((65 <=? nat_of_ascii c)%nat && (nat_of_ascii c <=? 90)%nat) eqn:Hu; [|done].
    apply andb_true_iff in Hu as [H1 H2]. apply Nat.leb_le in H1, H2.
    apply orb_true_iff in Hid as [Hid|Hid].
    + apply orb_true_iff in Hid as [Hid|Hid];
        apply andb_true_iff in Hid as [H3 H4]; apply Nat.leb_le in H3, H4; lia.
    + apply Ascii.eqb_eq in Hid. subst c.
      change (nat_of_ascii "_"%char) with 95%nat in H2. lia.
  - destruct (Ascii.eqb c " "%char) eqn:Hc; [|done].
    apply Ascii.eqb_eq in Hc. by subst c.
  - destruct (Ascii.eqb c "-"%char) eqn:Hc; [|done].
    apply Ascii.eqb_eq in Hc. by subst c.
Qed.

Lemma idBytes_fixed (s : string) :
  allBytes idByte s = true ->
  strings.ReplaceAll (strings.ReplaceAll (strings.ToLower s) " "%char "_"%char)
                     "-"%char "_"%char = s.
Proof.
  induction s as [|c s IH]; simpl; [done|].
  intros Hs. apply andb_true_iff in Hs as [Hc Hs].
  destruct (idByte_fixed c Hc) as (Hl & Hsp & Hhy).
  by rewrite Hl, Hsp, Hhy, IH.
Qed.

Lemma sanitizeID_cases (name : string) :
  sanitizeID name = "field" \/
  (sanitizeID name <> "" /\
   exists s, allBytes idByte s = true /\ sanitizeID name = strings.Trim s "_"%char).
Proof.
  unfold sanitizeID. cbv zeta.
  set (kept := strings.filterBytes idByte _).
  destruct (decide (strings.Trim kept "_"%char = "")); [by left|].
  right. split; [done|]. exists kept. split; [apply allBytes_filterBytes|done].
Qed.

(** X8.  A sanitized identifier is never empty, consists of the bytes
    a-z, 0-9 and underscore only, and has no underscore at either end. *)
Theorem sanitizeID_safe (name : string) :
  sanitizeID name <> "" /\
  allBytes idByte (sanitizeID name) = true /\
  strings.Trim (sanitizeID name) "_"%char = sanitizeID name.
Proof.
  destruct (sanitizeID_cases name) as [->|(Hne & s & Hs & Heq)].
  - split; [discriminate|split; reflexivity].
  - split; [done|]. rewrite Heq. split; [|apply Trim_idem].
    unfold strings.Trim. by apply allBytes_TrimRight, allBytes_TrimLeft.
Qed.

(** X9.  Sanitizing is idempotent: a sanitized identifier is its own
    sanitized form. *)
Theorem sanitizeID_idempotent (name : string) :
  sanitizeID (sanitizeID name) = sanitizeID name.
Proof.
  destruct (sanitizeID_cases name) as [->|(Hne & s & Hs & Heq)]; [reflexivity|].
  assert (Hall : allBytes idByte (sanitizeID name) = true).
  { rewrite Heq. unfold strings.Trim. by apply allBytes_TrimRight, allBytes_TrimLeft. }
  assert (Htrim : strings.Trim (sanitizeID name) "_"%char = sanitizeID name)
    by (rewrite Heq; apply Trim_idem).
  unfold sanitizeID at 1. cbv zeta.
  rewrite (idBytes_fixed _ Hall), (filterBytes_id _ _ Hall), Htrim.
  by rewrite decide_False.
Qed.

(** ** Records to backend fields and back *)

Lemma fold_left_of_map {A C D : Type} (f : D -> C -> D) (g : A -> C) (l : list A) (d : D) :
  fold_left f (map g l) d = fold_left (fun d a => f d (g a)) l d.
Proof. revert d. induction l as [|a l IH]; intros d; simpl; [done|apply IH]. Qed.

Lemma fold_left_ext_In {A D : Type} (f g : D -> A -> D) (l : list A) (d : D) :
  (forall d a, In a l -> f d a = g d a) -> fold_left f l d = fold_left g l d.
Proof.
  revert d. induction l as [|a l IH]; intros d Hfg; simpl; [done|].
  rewrite Hfg by (by left). apply IH. intros d' a' Hin. apply Hfg. by right.
Qed.

Lemma insert_fold_lookup (l : list (string * string)) (acc : gmap string string) :
  NoDup (map fst l) ->
  (forall k v, In (k, v) l ->
     fold_left (fun m kv => <[kv.1 := kv.2]> m) l acc !! k = Some v) /\
  (forall k, ~ In k (map fst l) ->
     fold_left (fun m kv => <[kv.1 := kv.2]> m) l acc !! k = acc !! k).
Proof.
  revert acc. induction l as [|[k0 v0] l IH]; intros acc Hnd; simpl.
  - by split.
  - apply NoDup_cons in Hnd as [Hk0 Hnd]. rewrite list_elem_of_In in Hk0.
    destruct (IH (<[k0 := v0]> acc) Hnd) as [Hin Hout]. split.
    + intros k v [[= <- <-]|Hkv]; [|by apply Hin].
      rewrite Hout by done. apply lookup_insert_eq.
    + intros k Hk. rewrite Hout by tauto.
      apply lookup_insert_ne. tauto.
Qed.

Section Entries.
Context `{MapRange}.

Lemma rangeOrder_NoDup (m : gmap string string) : NoDup (map fst (rangeOrder m)).
Proof.
  assert (Hp : map fst (rangeOrder m) ≡ₚ map fst (map_to_list m))
    by (apply Permutation_map, rangeOrder_perm).
  rewrite Hp. apply NoDup_fst_map_to_list.
Qed.

Lemma rangeOrder_nil (m : gmap string string) : rangeOrder m = [] <-> m = ∅.
Proof.
  split.
  - intros Hr. apply map_to_list_empty_iff. apply Permutation_nil_r.
    by rewrite <- rangeOrder_perm, Hr.
  - intros ->. apply Permutation_nil_r. by rewrite rangeOrder_perm, map_to_list_empty.
Qed.

(** Inserting the entries of a map, in the order of its enumeration, into
    the empty map gives the map. *)
Lemma rangeOrder_rebuild (m : gmap string string) :
  fold_left (fun acc kv => <[kv.1 := kv.2]> acc) (rangeOrder m) ∅ = m.
Proof.
  destruct (insert_fold_lookup (rangeOrder m) ∅ (rangeOrder_NoDup m)) as [Hin Hout].
  apply map_eq. intros k. destruct (m !! k) as [v|] eqn:Hk.
  - apply Hin. by apply rangeOrder_lookup.
  - rewrite Hout; [done|]. intros Hink. apply in_map_iff in Hink as ([k' v] & <- & Hkv).
    apply rangeOrder_lookup in Hkv. simpl in Hk. congruence.
Qed.

Lemma secretToFields_entries (secret : vault.Secret) :
  secretToFields secret "" =
  match rangeOrder (vault.Fields secret) with
  | [] => if decide (vault.Value secret = "") then []
          else [passwordField (vault.Value secret)]
  | entries => map entryField entries
  end.
Proof.
  unfold secretToFields. simpl.
  destruct (rangeOrder (vault.Fields secret)) as [|kv l]; simpl; [|done].
  by case_bool_decide; case_decide.
Qed.

(** X10.  What a record is written as.  A field-scoped write gives one
    concealed field named as asked, holding the record's value.  Otherwise
    the record's field map gives one field per entry (titles and values are
    the entries, each with the sanitized title as ID and the inferred type);
    a record with an empty field map gives the single concealed field
    "password" holding its value, or nothing when the value is empty too.
    Every field written has a non-empty ID of the bytes a-z, 0-9 and
    underscore. *)
Theorem secretToFields_shape (secret : vault.Secret) (target : string) :
  (target <> "" ->
     secretToFields secret target =
     [op.ItemField.mk (sanitizeID target) target op.ItemFieldTypeConcealed
        (vault.Value secret) None]) /\
  (vault.Fields secret <> ∅ ->
     secretToFields secret "" = map entryField (rangeOrder (vault.Fields secret)) /\
     length (secretToFields secret "") = size (vault.Fields secret) /\
     map (fun f => (op.ItemField.Title f, op.ItemField.Value f)) (secretToFields secret "")
       ≡ₚ map_to_list (vault.Fields secret)) /\
  (vault.Fields secret = ∅ ->
     secretToFields secret "" =
     if decide (vault.Value secret = "") then [] else [passwordField (vault.Value secret)]) /\
  (forall f, In f (secretToFields secret target) ->
     op.ItemField.ID f <> "" /\ allBytes idByte (op.ItemField.ID f) = true).
Proof.
  assert (Htarget : target <> "" ->
     secretToFields secret target =
     [op.ItemField.mk (sanitizeID target) target op.ItemFieldTypeConcealed
        (vault.Value secret) None]).
  { intros Ht. unfold secretToFields. by rewrite bool_decide_eq_false_2. }
  assert (Hentries : vault.Fields secret <> ∅ ->
     secretToFields secret "" = map entryField (rangeOrder (vault.Fields secret))).
  { intros Hne. rewrite secretToFields_entries.
    destruct (rangeOrder (vault.Fields secret)) eqn:Hr; [|done].
    by apply rangeOrder_nil in Hr. }
  assert (Hempty : vault.Fields secret = ∅ ->
     secretToFields secret "" =
     if decide (vault.Value secret = "") then [] else [passwordField (vault.Value secret)]).
  { intros He. rewrite secretToFields_entries.
    by rewrite (proj2 (rangeOrder_nil _) He). }
  split; [exact Htarget|]. split; [|split; [exact Hempty|]].
  - intros Hne. rewrite (Hentries Hne). split; [done|].
    split.
    + rewrite length_map, rangeOrder_perm. apply length_map_to_list.
    + rewrite map_map. simpl. rewrite <- rangeOrder_perm.
      rewrite (map_ext _ id); [by rewrite map_id|by intros []].
  - intros f Hin.
    assert (Hsafe : forall n, sanitizeID n <> "" /\ allBytes idByte (sanitizeID n) = true)
      by (intros n; destruct (sanitizeID_cases n) as [->|(Hne & s & Hs & Heq)];
          [done|split; [done|]; rewrite Heq; unfold strings.Trim;
                by apply allBytes_TrimRight, allBytes_TrimLeft]).
    destruct (decide (target = "")) as [->|Ht].
    + destruct (decide (vault.Fields secret = ∅)) as [He|Hne].
      * rewrite (Hempty He) in Hin. case_decide; [done|].
        destruct Hin as [<-|[]]. done.
      * rewrite (Hentries Hne) in Hin. apply in_map_iff in Hin as (kv & <- & _).
        apply Hsafe.
    + rewrite (Htarget Ht) in Hin. destruct Hin as [<-|[]]. apply Hsafe.
Qed.

Lemma fieldMap_entries (entries : list (string * string)) :
  (forall kv, In kv entries -> kv.1 <> "") ->
  fieldMap (map entryField entries) =
  fold_left (fun acc kv => <[kv.1 := kv.2]> acc) entries ∅.
Proof.
  intros Hne. unfold fieldMap. rewrite fold_left_of_map.
  apply fold_left_ext_In. intros acc kv Hin.
  unfold fieldName, fieldValue, entryField. simpl.
  rewrite decide_False by by apply Hne.
  by destruct (inferFieldType kv.1 kv.2).
Qed.

(** X11.  Writing a record as fields and converting them back gives its
    field map again, provided no field has the empty name (an empty name is
    read back under the ID "field").  A record with a value and no
    field map comes back with the single field "password" and the value as
    its primary value. *)
Theorem fields_roundtrip (secret : vault.Secret) (id title cat vid path : string)
    (tags : list string) (ver : N) :
  let back := itemToSecret
                (op.Item.mk id title cat vid (secretToFields secret "") tags ver) path in
  (vault.Fields secret !! "" = None ->
   vault.Fields secret <> ∅ \/ vault.Value secret = "" ->
     vault.Fields back = vault.Fields secret) /\
  (vault.Fields secret = ∅ -> vault.Value secret <> "" ->
     vault.Fields back = {[ "password" := vault.Value secret ]} /\
     vault.Value back = vault.Value secret).
Proof.
  intros back. subst back. split.
  - intros Hkey Hsome. unfold itemToSecret. simpl. rewrite sFields_scan.
    rewrite secretToFields_entries.
    destruct (rangeOrder (vault.Fields secret)) as [|kv l] eqn:Hr.
    + apply rangeOrder_nil in Hr. destruct Hsome as [Hne|Hv]; [done|].
      by rewrite decide_True, Hr.
    + rewrite fieldMap_entries.
      * rewrite <- Hr. apply rangeOrder_rebuild.
      * intros [k v] Hin. rewrite <- Hr in Hin. apply rangeOrder_lookup in Hin.
        simpl. intros ->. congruence.
  - intros He Hv.
    assert (Hw : secretToFields secret "" = [passwordField (vault.Value secret)]).
    { rewrite secretToFields_entries, (proj2 (rangeOrder_nil _) He).
      by rewrite decide_False. }
    split.
    + unfold itemToSecret. simpl. rewrite sFields_scan, Hw. reflexivity.
    + rewrite itemToSecret_value. simpl. rewrite Hw.
      replace (passwordValue _) with (vault.Value secret) by reflexivity.
      by rewrite decide_False.
Qed.

End Entries.

Lemma secretToFields_shape_witness :
  "API Key" <> "" /\
  @secretToFields sortedRange demoSecret "API Key" =
  [op.ItemField.mk "api_key" "API Key" op.ItemFieldTypeConcealed "x" None].
Proof.
  split; [discriminate|].
  destruct (@secretToFields_shape sortedRange demoSecret "API Key") as (Ht & _).
  rewrite Ht by discriminate. reflexivity.
Defined.

Lemma fields_roundtrip_witness :
  vault.Fields demoSecret = ∅ /\ vault.Value demoSecret <> "" /\
  vault.Value (@itemToSecret sortedRange
     (op.Item.mk "i" "t" "c" "v" (@secretToFields sortedRange demoSecret "") [] 1) "V/t")
  = "x".
Proof.
  split; [reflexivity|]. split; [discriminate|].
  destruct (@fields_roundtrip sortedRange demoSecret "i" "t" "c" "v" "V/t" [] 1) as [_ Hv].
  destruct Hv as [_ Hv]; [reflexivity|discriminate|exact Hv].
Defined.

(** ** Tags *)

Lemma SplitN2_noSep (s : string) (sep : ascii) :
  hasByte sep s = false -> strings.SplitN2 s sep = [s].
Proof.
  induction s as [|c s IH]; simpl; [done|].
  intros Hb. apply orb_false_iff in Hb as [Hc Hs]. by rewrite Hc, (IH Hs).
Qed.

Lemma SplitN2_piece (k v : string) (sep : ascii) :
  hasByte sep k = false -> strings.SplitN2 (k ++ String sep v) sep = [k; v].
Proof.
  induction k as [|c k IH]; intros Hb.
  - change ("" ++ String sep v) with (String sep v). simpl. by rewrite Ascii.eqb_refl.
  - change (String c k ++ String sep v) with (String c (k ++ String sep v)).
    simpl in Hb. apply orb_false_iff in Hb as [Hc Hk].
    simpl. by rewrite Hc, (IH Hk).
Qed.

Lemma tagsToMap_entries (entries : list (string * string)) (acc : gmap string string) :
  (forall kv, In kv entries -> hasByte ":"%char kv.1 = false) ->
  tagsToMap (map tagString entries) acc =
  fold_left (fun m kv => <[kv.1 := kv.2]> m) entries acc.
Proof.
  revert acc. induction entries as [|[k v] entries IH]; intros acc Hfree; [done|].
  assert (Hk : hasByte ":"%char k = false) by (apply (Hfree (k, v)); by left).
  cbn [map tagsToMap fold_left]. unfold tagString at 1. simpl.
  destruct (decide (v = "")) as [->|Hv].
  - rewrite (SplitN2_noSep k _ Hk). apply IH. intros kv Hin. apply Hfree. by right.
  - change (k ++ ":" ++ v) with (k ++ String ":"%char v).
    rewrite (SplitN2_piece k v _ Hk). apply IH. intros kv Hin. apply Hfree. by right.
Qed.

Section Tags.
Context `{MapRange}.

(** X12.  Tags survive the round trip: the tags of a record, written in
    the backend's form (key:value, or the bare key for an empty value) and
    read back, are the same tags, provided no key contains a colon; an
    item built with them converts to a record carrying exactly these tags
    (and to a record without tags when there are none). *)
Theorem tags_roundtrip (tags : gmap string string) :
  (forall k v, tags !! k = Some v -> hasByte ":"%char k = false) ->
  tagsToMap (tagsToStrings tags) ∅ = tags /\
  forall id title cat vid fields ver path,
    vault.Tags (vault.Meta (itemToSecret
      (op.Item.mk id title cat vid fields (tagsToStrings tags) ver) path)) =
    if decide (tags = ∅) then None else Some tags.
Proof.
  intros Hfree.
  assert (Hback : tagsToMap (tagsToStrings tags) ∅ = tags).
  { change (tagsToStrings tags) with (map tagString (rangeOrder tags)).
    rewrite tagsToMap_entries; [apply rangeOrder_rebuild|].
    intros [k v] Hin. apply rangeOrder_lookup in Hin. by eapply Hfree. }
  split; [exact Hback|].
  intros id title cat vid fields ver path.
  assert (Htags : vault.Tags (vault.Meta (itemToSecret
            (op.Item.mk id title cat vid fields (tagsToStrings tags) ver) path)) =
          if decide (tagsToStrings tags = []) then None
          else Some (tagsToMap (tagsToStrings tags) ∅))
    by (unfold itemToSecret; cbn [vault.Tags vault.Meta op.Item.Tags];
        by destruct (tagsToStrings tags)).
  rewrite Htags, Hback.
  change (tagsToStrings tags) with (map tagString (rangeOrder tags)).
  destruct (decide (tags = ∅)) as [->|Hne].
  - by rewrite (proj2 (rangeOrder_nil ∅) eq_refl).
  - rewrite decide_False; [done|].
    intros Hnil. apply map_eq_nil, rangeOrder_nil in Hnil. done.
Qed.

End Tags.

Lemma tags_roundtrip_witness :
  (forall k v, ({[ "env" := "prod"; "urgent" := "" ]} : gmap string string) !! k = Some v ->
               hasByte ":"%char k = false) /\
  tagsToMap (@tagsToStrings sortedRange {[ "env" := "prod"; "urgent" := "" ]}) ∅
    = {[ "env" := "prod"; "urgent" := "" ]}.
Proof.
  assert (Hfree : forall k v,
            ({[ "env" := "prod"; "urgent" := "" ]} : gmap string string) !! k = Some v ->
            hasByte ":"%char k = false).
  { intros k v Hl.
    destruct (decide (k = "env")) as [->|]; [reflexivity|].
    destruct (decide (k = "urgent")) as [->|]; [reflexivity|].
    rewrite lookup_insert_ne in Hl by done.
    by rewrite lookup_singleton_ne in Hl. }
  split; [exact Hfree|].
  exact (proj1 (@tags_roundtrip sortedRange _ Hfree)).
Defined.

(** ** The backend calls of the operations *)

Section Emits.
Context {B : Type} `{op.Client B} `{MapRange}.
Variable P : op.call -> Prop.

Lemma emits_refl (w : World B) : emits P 0 w w.
Proof. exists []. by rewrite app_nil_r. Qed.

Lemma emits_trans (n m : nat) (w w1 w2 : World B) :
  emits P n w w1 -> emits P m w1 w2 -> emits P (n + m) w w2.
Proof.
  intros (l1 & H1 & F1 & L1) (l2 & H2 & F2 & L2). exists (l1 ++ l2)%list.
  rewrite H2, H1, <- app_assoc, length_app. split; [done|].
  split; [by apply Forall_app|lia].
Qed.

Lemma emits_weaken (n m : nat) (w w' : World B) :
  n <= m -> emits P n w w' -> emits P m w w'.
Proof. intros Hnm (l & Hl & Fl & Ll). exists l. repeat split; [done|done|lia]. Qed.

Lemma logged_emits {A : Type} (c : op.call) (f : B -> A * B) (w : World B) :
  P c -> emits P 1 w (logged c f w).2.
Proof.
  intros Hc. unfold logged. destruct (f (backend w)) as [r b]. simpl.
  exists [c]. repeat split; [by repeat constructor|simpl; lia].
Qed.

Hypothesis listing : forall c, isListing c -> P c.

Lemma resolveVaultID_emits (n : string) (p : Provider) (w : World B) :
  emits P 1 w (resolveVaultID n p w).2.
Proof.
  unfold resolveVaultID.
  destruct (decide (n = "")); [apply (emits_weaken 0); [lia|apply emits_refl]|].
  destruct (vaultCache p !! n); [apply (emits_weaken 0); [lia|apply emits_refl]|].
  pose proof (logged_emits op.VaultsListAllCall op.VaultsListAll w
                (listing op.VaultsListAllCall I)) as Hx.
  unfold clientVaultsListAll.
  destruct (logged _ _ w) as [[[vs stop]|err] w1]; simpl in *; [|done].
  by destruct (resolveVaultLoop n vs stop p).
Qed.

Lemma resolveItemID_emits (vaultID n : string) (w : World B) :
  emits P 1 w (resolveItemID vaultID n w).2.
Proof.
  unfold resolveItemID.
  destruct (decide (n = "")); [apply (emits_weaken 0); [lia|apply emits_refl]|].
  pose proof (logged_emits (op.ItemsListAllCall vaultID) (op.ItemsListAll vaultID) w
                (listing (op.ItemsListAllCall vaultID) I)) as Hx.
  unfold clientItemsListAll.
  by destruct (logged _ _ w) as [[[items stop]|err] w1].
Qed.

(** The two resolutions of a path, one after the other. *)
Lemma resolutions_emit (vaultName itemName : string) (p : Provider) (w : World B) :
  emits P 1 w (resolveVaultID vaultName p w).2 /\
  forall vaultID,
    emits P 2 w (resolveItemID vaultID itemName (resolveVaultID vaultName p w).2).2.
Proof.
  split; [apply resolveVaultID_emits|]. intros vaultID.
  apply (emits_trans 1 1 w _ _ (resolveVaultID_emits vaultName p w)).
  apply resolveItemID_emits.
Qed.

Lemma Exists_emits (path : string) (p : Provider) (w : World B) :
  emits P 2 w (Exists path p w).2.
Proof.
  unfold Exists.
  destruct (closed p); [apply (emits_weaken 0); [lia|apply emits_refl]|].
  destruct (ParsePath _ _) as [parsed|]; [|apply (emits_weaken 0); [lia|apply emits_refl]].
  destruct (resolutions_emit (ParsedPath.Vault parsed) (ParsedPath.Item parsed) p w)
    as [Hv Hi].
  destruct (resolveVaultID _ p w) as [[[vaultID|err] p1] w1]; simpl in *.
  - specialize (Hi vaultID).
    destruct (resolveItemID _ _ w1) as [[itemID|err] w2]; simpl in *; [done|].
    by destruct (isNotFoundError _).
  - apply (emits_weaken 1); [lia|]. by destruct (isNotFoundError _).
Qed.

Lemma Delete_emits (path : string) (p : Provider) (w : World B) :
  (forall v i, P (op.ItemsDeleteCall v i)) -> emits P 3 w (Delete path p w).2.
Proof.
  intros Hdel. unfold Delete.
  destruct (closed p); [apply (emits_weaken 0); [lia|apply emits_refl]|].
  destruct (ParsePath _ _) as [parsed|]; [|apply (emits_weaken 0); [lia|apply emits_refl]].
  destruct (resolutions_emit (ParsedPath.Vault parsed) (ParsedPath.Item parsed) p w)
    as [Hv Hi].
  destruct (resolveVaultID _ p w) as [[[vaultID|err] p1] w1]; simpl in *.
  - specialize (Hi vaultID).
    destruct (resolveItemID _ _ w1) as [[itemID|err] w2]; simpl in *.
    + pose proof (logged_emits (op.ItemsDeleteCall vaultID itemID)
                    (op.ItemsDelete vaultID itemID) w2 (Hdel _ _)) as Hd.
      pose proof (emits_trans 2 1 _ _ _ Hi Hd) as Hall.
      unfold clientItemsDelete.
      destruct (logged _ _ w2) as [[err|] w3]; simpl in *; [|done].
      by destruct (isNotFoundError _).
    + apply (emits_weaken 2); [lia|]. by destruct (isNotFoundError _).
  - apply (emits_weaken 1); [lia|]. by destruct (isNotFoundError _).
Qed.

Lemma Get_emits (path : string) (p : Provider) (w : World B) :
  (forall r, P (op.SecretsResolveCall r)) -> (forall v i, P (op.ItemsGetCall v i)) ->
  emits P 3 w (Get path p w).2.
Proof.
  intros Hres Hget. unfold Get.
  destruct (closed p); [apply (emits_weaken 0); [lia|apply emits_refl]|].
  destruct (ParsePath _ _) as [parsed|]; [|apply (emits_weaken 0); [lia|apply emits_refl]].
  destruct (negb _).
  - unfold resolveField.
    pose proof (logged_emits (op.SecretsResolveCall (ParsedPath.SecretReference parsed))
                  (op.SecretsResolve (ParsedPath.SecretReference parsed)) w (Hres _)) as Hx.
    unfold clientSecretsResolve.
    destruct (logged _ _ w) as [[value|err] w1]; simpl in *;
      (apply (emits_weaken 1); [lia|done]).
  - unfold getItem.
    destruct (resolutions_emit (ParsedPath.Vault parsed) (ParsedPath.Item parsed) p w)
      as [Hv Hi].
    destruct (resolveVaultID _ p w) as [[[vaultID|err] p1] w1]; simpl in *;
      [|by apply (emits_weaken 1); [lia|]].
    specialize (Hi vaultID).
    destruct (resolveItemID _ _ w1) as [[itemID|err] w2]; simpl in *;
      [|by apply (emits_weaken 2); [lia|]].
    pose proof (logged_emits (op.ItemsGetCall vaultID itemID)
                  (op.ItemsGet vaultID itemID) w2 (Hget _ _)) as Hg.
    pose proof (emits_trans 2 1 _ _ _ Hi Hg) as Hall.
    unfold clientItemsGet. by destruct (logged _ _ w2) as [[item|err] w3].
Qed.

Lemma Set_emits (path : string) (secret : vault.Secret) (p : Provider) (w : World B) :
  (forall v i, P (op.ItemsGetCall v i)) -> (forall i, P (op.ItemsPutCall i)) ->
  (forall c, P (op.ItemsCreateCall c)) ->
  emits P 4 w (Set_ path secret p w).2.
Proof.
  intros Hget Hput Hcreate. unfold Set_.
  destruct (closed p); [apply (emits_weaken 0); [lia|apply emits_refl]|].
  destruct (ParsePath _ _) as [parsed|]; [|apply (emits_weaken 0); [lia|apply emits_refl]].
  destruct (resolutions_emit (ParsedPath.Vault parsed) (ParsedPath.Item parsed) p w)
    as [Hv Hi].
  destruct (resolveVaultID _ p w) as [[[vaultID|err] p1] w1]; simpl in *;
    [|by apply (emits_weaken 1); [lia|]].
  specialize (Hi vaultID).
  destruct (resolveItemID _ _ w1) as [[itemID|err] w2]; simpl in *.
  - unfold updateItem.
    pose proof (logged_emits (op.ItemsGetCall vaultID itemID)
                  (op.ItemsGet vaultID itemID) w2 (Hget _ _)) as Hg.
    pose proof (emits_trans 2 1 _ _ _ Hi Hg) as H3.
    unfold clientItemsGet.
    destruct (logged _ _ w2) as [[item|err] w3]; simpl in *;
      [|by apply (emits_weaken 3); [lia|]].
    match goal with
    | |- context [clientItemsPut ?item' w3] =>
        pose proof (logged_emits (op.ItemsPutCall item') (op.ItemsPut item') w3 (Hput _)) as Hp;
        pose proof (emits_trans 3 1 _ _ _ H3 Hp) as H4;
        unfold clientItemsPut; by destruct (logged _ _ w3) as [[item2|err] w4]
    end.
  - unfold createItem.
    match goal with
    | |- context [clientItemsCreate ?params w2] =>
        pose proof (logged_emits (op.ItemsCreateCall params) (op.ItemsCreate params) w2
                      (Hcreate _)) as Hc;
        pose proof (emits_trans 2 1 _ _ _ Hi Hc) as H3;
        unfold clientItemsCreate; destruct (logged _ _ w2) as [[item2|err'] w3];
        simpl in *; by apply (emits_weaken 3); [lia|]
    end.
Qed.

Lemma listLoop_emits (pre : string) (vs : list op.VaultOverview.t)
    (stop : option error) (results : list string) (p : Provider) (w : World B) :
  exists n, emits P n w (listLoop pre vs stop results p w).2.
Proof.
  revert results p w. induction vs as [|v vs IH]; intros results p w; simpl.
  - exists 0. destruct stop; apply emits_refl.
  - destruct (_ && _); [apply IH|].
    pose proof (logged_emits (op.ItemsListAllCall (op.VaultOverview.ID v))
                  (op.ItemsListAll (op.VaultOverview.ID v)) w
                  (listing (op.ItemsListAllCall (op.VaultOverview.ID v)) I)) as Hx.
    unfold clientItemsListAll.
    destruct (logged _ _ w) as [[[items stop']|err] w1]; simpl in *.
    + destruct (IH (results ++ listVaultPaths pre (op.VaultOverview.Title v) items)%list
                   (cacheVaultID (op.VaultOverview.Title v) (op.VaultOverview.ID v) p) w1)
        as [n Hn].
      exists (1 + n). by eapply emits_trans.
    + destruct (IH results p w1) as [n Hn].
      exists (1 + n). by eapply emits_trans.
Qed.

Lemma List_emits (pre : string) (p : Provider) (w : World B) :
  exists n, emits P n w (List_ pre p w).2.
Proof.
  unfold List_. destruct (closed p); [exists 0; apply emits_refl|].
  pose proof (logged_emits op.VaultsListAllCall op.VaultsListAll w
                (listing op.VaultsListAllCall I)) as Hx.
  unfold clientVaultsListAll.
  destruct (logged _ _ w) as [[[vs stop]|err] w1]; simpl in *; [|by exists 1].
  destruct (listLoop_emits pre vs stop [] p w1) as [n Hn].
  exists (1 + n). by eapply emits_trans.
Qed.

Lemma getBatchLoop_emits (paths : list string) (results : gmap string vault.Secret)
    (p : Provider) (w : World B) :
  (forall r, P (op.SecretsResolveCall r)) -> (forall v i, P (op.ItemsGetCall v i)) ->
  exists n, emits P n w (getBatchLoop paths results p w).2.
Proof.
  intros Hres Hget. revert results p w.
  induction paths as [|path paths IH]; intros results p w; simpl.
  - exists 0. apply emits_refl.
  - pose proof (Get_emits path p w Hres Hget) as Hg.
    destruct (Get path p w) as [[[secret|err] p1] w1]; simpl in *.
    + destruct (IH (<[path := secret]> results) p1 w1) as [n Hn].
      exists (3 + n). by eapply emits_trans.
    + destruct (IH results p1 w1) as [n Hn].
      exists (3 + n). by eapply emits_trans.
Qed.

End Emits.

Section CallDiscipline.
Context {B : Type} `{op.Client B} `{MapRange}.

(** X13.  Each operation makes only the backend calls of its kind, and
    the calls already logged stay: Exists and List make listing calls only
    (they never fetch an item); Get and GetBatch make listing, item-get and
    resolve calls; Delete makes listing and delete calls; Set makes listing,
    item-get, put and create calls and never a delete; Close makes none.
    Get and Delete make at most three calls, Set at most four, Exists at
    most two. *)
Theorem operations_call_discipline (o : operation) (p : Provider) (w : World B) :
  exists l,
    calls (step o p w).2 = (calls w ++ l)%list /\
    Forall (allowedCall o) l /\
    match maxCalls o with Some n => length l <= n | None => True end.
Proof.
  assert (Hb : forall n, emits (allowedCall o) n w (step o p w).2 ->
               (match maxCalls o with Some m => n <= m | None => True end) ->
               exists l, calls (step o p w).2 = (calls w ++ l)%list /\
                         Forall (allowedCall o) l /\
                         match maxCalls o with Some n => length l <= n | None => True end).
  { intros n (l & Hl & Fl & Ll) Hn. exists l. repeat split; [done|done|].
    destruct (maxCalls o); [lia|done]. }
  assert (Hlisting : o <> OpClose -> forall c, isListing c -> allowedCall o c)
    by (intros Ho c; destruct o, c; simpl; tauto).
  destruct o as [path|path secret|path|path|pre|paths|]; simpl in *.
  - apply (Hb 3); [|lia].
    pose proof (Get_emits _ (Hlisting ltac:(done)) path p w) as Hx.
    destruct (Get path p w) as [[r p1] w1]. by apply Hx.
  - apply (Hb 4); [|lia].
    pose proof (Set_emits _ (Hlisting ltac:(done)) path secret p w) as Hx.
    destruct (Set_ path secret p w) as [[r p1] w1]. by apply Hx.
  - apply (Hb 3); [|lia].
    pose proof (Delete_emits _ (Hlisting ltac:(done)) path p w) as Hx.
    destruct (Delete path p w) as [[r p1] w1]. by apply Hx.
  - apply (Hb 2); [|lia].
    pose proof (Exists_emits _ (Hlisting ltac:(done)) path p w) as Hx.
    by destruct (Exists path p w) as [[r p1] w1].
  - destruct (List_emits _ (Hlisting ltac:(done)) pre p w) as [n Hn].
    destruct (List_ pre p w) as [[r p1] w1]. by apply (Hb n).
  - assert (Hx : exists n, emits (allowedCall (OpGetBatch paths)) n w (GetBatch paths p w).2).
    { unfold GetBatch. destruct (closed p); [exists 0; apply emits_refl|].
      destruct paths as [|q paths]; [exists 0; apply emits_refl|].
      destruct (getBatchLoop_emits _ (Hlisting ltac:(done)) (q :: paths) ∅ p w)
        as [n Hn]; [done|done|].
      exists n. by destruct (getBatchLoop _ _ p w) as [[m p1] w1]. }
    destruct Hx as [n Hn].
    destruct (GetBatch paths p w) as [[r p1] w1]. by apply (Hb n).
  - apply (Hb 0); [apply emits_refl|lia].
Qed.

End CallDiscipline.

(** ** Three-segment paths *)

Lemma ParsePath_three_segments_parse (C I F defaultVault : string) :
  C <> "" -> I <> "" -> F <> "" ->
  hasByte slash C = false -> hasByte slash I = false -> hasByte slash F = false ->
  ParsePath (C ++ "/" ++ I ++ "/" ++ F) defaultVault = Ok (ParsedPath.mk C I "" F) /\
  ParsedPath.String (ParsedPath.mk C I "" F) = C ++ "/" ++ I ++ "/" ++ F.
Proof.
  intros HC HI HF HCs HIs HFs. split.
  - unfold ParsePath.
    rewrite decide_False by by apply app_nonempty.
    change (C ++ "/" ++ I ++ "/" ++ F)
      with (C ++ String slash (I ++ String slash F)).
    rewrite plain_not_reference;
      [|done|exists I, (strings.Split F slash); by rewrite Split_piece].
    change (C ++ String slash (I ++ String slash F))
      with (C ++ "/" ++ I ++ "/" ++ F).
    by rewrite segments_three.
  - unfold ParsedPath.String. simpl. by rewrite !decide_False.
Qed.

(** ** Exists and Delete *)

Lemma reOp_mapErr (op1 op2 path : string) (err : error) :
  reOp op2 (mapErr op1 path err) = mapErr op2 path err.
Proof. unfold mapErr, reOp. by repeat (destruct (containsAny _ _)). Qed.

Section ExistsDelete.
Context {B : Type} `{op.Client B}.

(** X14.  Exists foretells Delete.  From the same state, where Exists
    answers "no" Delete succeeds with the same effects and without a delete
    call; where Exists fails Delete fails with the same error (reported for
    Delete) and the same effects; where Exists answers "yes" Delete goes on
    from the state Exists reached with one delete call for the vault and
    item found, succeeds if that call succeeds or fails with a not-found
    error, and returns its error normalised otherwise. *)
Theorem Exists_foretells_Delete (path : string) (p : Provider) (w : World B) :
  match Exists path p w with
  | (Ok false, p1, w1) => Delete path p w = (None, p1, w1)
  | (Err e, p1, w1) => Delete path p w = (Some (reOp "Delete" e), p1, w1)
  | (Ok true, p1, w1) =>
      exists vaultID itemID,
        Delete path p w =
        (match (clientItemsDelete vaultID itemID w1).1 with
         | Some err =>
             if isNotFoundError (Some err) then None
             else Some (mapErr "Delete" path err)
         | None => None
         end, p1, (clientItemsDelete vaultID itemID w1).2)
  end.
Proof.
  unfold Exists, Delete.
  destruct (closed p); [done|].
  destruct (ParsePath _ _) as [parsed|]; [|done].
  destruct (resolveVaultID _ p w) as [[[vaultID|err] p1] w1].
  - destruct (resolveItemID _ _ w1) as [[itemID|err] w2].
    + exists vaultID, itemID.
      destruct (clientItemsDelete vaultID itemID w2) as [[err|] w3]; simpl; [|done].
      by destruct (isNotFoundError _).
    + destruct (isNotFoundError _); [done|]. simpl. by rewrite reOp_mapErr.
  - destruct (isNotFoundError _); [done|]. simpl. by rewrite reOp_mapErr.
Qed.

End ExistsDelete.

(** ** Get of a field *)

Section GetField.
Context {B : Type} `{op.Client B} `{MapRange}.

(** X15.  Get of a three-segment path [C/I/F] (non-empty, slash-free
    segments) never resolves names: whatever the default vault and the
    cache, it makes the single backend call that resolves the reference
    [op://C/I/F], leaves the provider as it is, and returns the value the
    backend gave, with the path [C/I/F] in its metadata, or the backend's
    error normalised. *)
Theorem Get_field_resolves_reference (C I F : string) (p : Provider) (w : World B) :
  C <> "" -> I <> "" -> F <> "" ->
  hasByte slash C = false -> hasByte slash I = false -> hasByte slash F = false ->
  closed p = false ->
  let path := C ++ "/" ++ I ++ "/" ++ F in
  let ref := "op://" ++ C ++ "/" ++ I ++ "/" ++ F in
  (Get path p w).1.2 = p /\
  (Get path p w).2 =
    mkWorld (op.SecretsResolve ref (backend w)).2 (calls w ++ [op.SecretsResolveCall ref]) /\
  match (op.SecretsResolve ref (backend w)).1 with
  | Ok value =>
      exists secret,
        (Get path p w).1.1 = Ok secret /\ vault.Value secret = value /\
        vault.MPath (vault.Meta secret) = path /\
        vault.MProvider (vault.Meta secret) = ProviderName
  | Err err => (Get path p w).1.1 = Err (mapErr "Get" path err)
  end.
Proof.
  intros HC HI HF HCs HIs HFs Hopen path ref. subst path ref.
  destruct (ParsePath_three_segments_parse C I F (getDefaultVault p)) as [Hparse Hstr];
    try done.
  unfold Get. rewrite Hopen, Hparse. simpl.
  case_bool_decide; [done|]. simpl.
  unfold resolveField, clientSecretsResolve, logged.
  replace (ParsedPath.SecretReference (ParsedPath.mk C I "" F))
    with ("op://" ++ C ++ "/" ++ I ++ "/" ++ F)
    by (unfold ParsedPath.SecretReference; simpl; by rewrite decide_False).
  rewrite Hstr.
  destruct (op.SecretsResolve _ (backend w)) as [[value|err] b']; simpl; [|done].
  split; [done|]. split; [done|]. eexists. by repeat split.
Qed.

End GetField.

Lemma Get_field_resolves_reference_witness :
  closed (newProvider demoConfig) = false /\
  (Get "V/Item/password" (newProvider demoConfig) demoWorld).2 =
     mkWorld demoStore [op.SecretsResolveCall "op://V/Item/password"].
Proof.
  split; [reflexivity|].
  destruct (Get_field_resolves_reference (B := Mem.t) "V" "Item" "password"
              (newProvider demoConfig) demoWorld) as (_ & Hw & _);
    try done.
Defined.

(** ** List *)

Lemma listVaultPaths_iff (pre title : string) (items : list op.ItemOverview.t) (r : string) :
  In r (listVaultPaths pre title items) <->
  exists item, In item items /\ r = title ++ "/" ++ op.ItemOverview.Title item /\
               (pre = "" \/ strings.HasPrefix r pre = true).
Proof.
  unfold listVaultPaths. rewrite filter_In, in_map_iff. split.
  - intros [(item & <- & Hitem) Hkeep]. exists item. split; [done|]. split; [done|].
    apply orb_true_iff in Hkeep as [Hp|Hp]; [left|by right].
    by apply bool_decide_eq_true_1 in Hp.
  - intros (item & Hitem & -> & Hp). split; [by exists item|].
    apply orb_true_iff. destruct Hp as [->|Hp]; [by left|by right].
Qed.

Lemma vaultInScope_skip (pre : string) (v : op.VaultOverview.t) :
  negb (bool_decide (pre = "")) && negb (strings.HasPrefix (op.VaultOverview.Title v) pre) &&
  negb (strings.HasPrefix pre (op.VaultOverview.Title v ++ "/")) = negb (vaultInScope pre v).
Proof.
  unfold vaultInScope.
  by destruct (bool_decide _), (strings.HasPrefix _ pre), (strings.HasPrefix pre _).
Qed.

Section ListFacts.
Context {B : Type} `{op.Client B}.

Lemma afterListings_snoc (ids : list string) (id : string) (b : B) :
  afterListings (ids ++ [id]) b = (op.ItemsListAll id (afterListings ids b)).2.
Proof. unfold afterListings. by rewrite fold_left_app. Qed.

Lemma listedIn_cons (pre : string) (b : B) (seen vs : list op.VaultOverview.t)
    (v : op.VaultOverview.t) (r : string) :
  listedIn pre b seen (v :: vs) r <->
  (vaultInScope pre v = true /\
   exists items item,
     itemsListed
       (afterListings (map op.VaultOverview.ID (List.filter (vaultInScope pre) seen)) b) v
     = Some items /\
     In item items /\
     r = op.VaultOverview.Title v ++ "/" ++ op.ItemOverview.Title item /\
     (pre = "" \/ strings.HasPrefix r pre = true)) \/
  listedIn pre b (seen ++ [v]) vs r.
Proof.
  split.
  - intros (mid & u & post & items & item & Hvs & Hu & Hl & Hi & Hr & Hp).
    destruct mid as [|v' mid]; simpl in Hvs; injection Hvs as -> ->.
    + left. split; [done|]. exists items, item. by rewrite app_nil_r in Hl.
    + right. exists mid, u, post, items, item.
      by rewrite <- app_assoc.
  - intros [(Hv & items & item & Hl & Hi & Hr & Hp)|
            (mid & u & post & items & item & -> & Hu & Hl & Hi & Hr & Hp)].
    + exists [], v, vs, items, item. by rewrite app_nil_r.
    + exists (v :: mid), u, post, items, item.
      by rewrite <- app_assoc in Hl.
Qed.

Lemma listLoop_members (pre : string) (b : B) (stop : option error)
    (vs seen : list op.VaultOverview.t) (results : list string)
    (p : Provider) (w : World B) :
  backend w =
    afterListings (map op.VaultOverview.ID (List.filter (vaultInScope pre) seen)) b ->
  match (listLoop pre vs stop results p w).1.1 with
  | Ok rs => stop = None /\ forall r, In r rs <-> In r results \/ listedIn pre b seen vs r
  | Err e => exists err, stop = Some err /\ e = mapErr "List" pre err
  end.
Proof.
  revert seen results p w.
  induction vs as [|v vs IH]; intros seen results p w Hb; simpl.
  - destruct stop; simpl; [eauto|]. split; [done|]. intros r. split; [by left|].
    intros [Hr|(mid & u & post & items & item & Hvs & _)]; [done|].
    by destruct mid.
  - rewrite vaultInScope_skip.
    destruct (vaultInScope pre v) eqn:Hv; simpl.
    + unfold clientItemsListAll, logged.
      destruct (op.ItemsListAll (op.VaultOverview.ID v) (backend w)) as [r0 b1] eqn:Hl.
      assert (Hb1 : b1 = afterListings
                (map op.VaultOverview.ID (List.filter (vaultInScope pre) (seen ++ [v])%list)) b).
      { rewrite List.filter_app, map_app. simpl. rewrite Hv. simpl.
        by rewrite afterListings_snoc, <- Hb, Hl. }
      destruct r0 as [[items stop']|err].
      * specialize (IH (seen ++ [v])%list
                      (results ++ listVaultPaths pre (op.VaultOverview.Title v) items)%list
                      (cacheVaultID (op.VaultOverview.Title v) (op.VaultOverview.ID v) p)
                      (mkWorld b1 (calls w ++ [op.ItemsListAllCall (op.VaultOverview.ID v)])%list) Hb1).
        destruct (listLoop _ _ _ _ _ _) as [[[rs|e] p1] w1]; simpl in *; [|done].
        destruct IH as [Hstop Hrs]. split; [done|]. intros r.
        rewrite Hrs, in_app_iff, listedIn_cons, listVaultPaths_iff.
        unfold itemsListed. rewrite <- Hb, Hl. simpl. split.
        -- intros [[Hr|(item & Hi & Hr & Hp)]|Hr]; [by left| |by right; right].
           right. left. split; [done|]. by exists items, item.
        -- intros [Hr|[(_ & items' & item & [= <-] & Hi & Hr & Hp)|Hr]];
             [by left; left| |by right].
           left. right. by exists item.
      * specialize (IH (seen ++ [v])%list results p
                      (mkWorld b1 (calls w ++ [op.ItemsListAllCall (op.VaultOverview.ID v)])%list) Hb1).
        destruct (listLoop _ _ _ _ _ _) as [[[rs|e] p1] w1]; simpl in *; [|done].
        destruct IH as [Hstop Hrs]. split; [done|]. intros r.
        rewrite Hrs, listedIn_cons. unfold itemsListed. rewrite <- Hb, Hl. simpl. split.
        -- intros [Hr|Hr]; [by left|by right; right].
        -- intros [Hr|[(_ & items' & item & [=] & _)|Hr]]; [by left|by right].
    + assert (Hb1 : backend w = afterListings
                (map op.VaultOverview.ID (List.filter (vaultInScope pre) (seen ++ [v])%list)) b).
      { rewrite List.filter_app. simpl. rewrite Hv. by rewrite app_nil_r. }
      specialize (IH (seen ++ [v])%list results p w Hb1).
      destruct (listLoop _ _ _ _ _ _) as [[[rs|e] p1] w1]; simpl in *; [|done].
      destruct IH as [Hstop Hrs]. split; [done|]. intros r.
      rewrite Hrs, listedIn_cons. split.
      * intros [Hr|Hr]; [by left|by right; right].
      * intros [Hr|[(Hv' & _)|Hr]]; [by left|congruence|by right].
Qed.

Lemma listLoop_exact (pre : string) (stop : option error)
    (vs : list op.VaultOverview.t) (results : list string) (p : Provider) (w : World B) :
  (forall id b0, (op.ItemsListAll id b0).2 = b0) ->
  listLoop pre vs stop results p w =
  (match stop with
   | Some err => Err (mapErr "List" pre err)
   | None => Ok (results ++ flat_map (listedPaths pre (backend w)) vs)%list
   end,
   setCache (cacheAll (List.filter (vaultListed pre (backend w)) vs) (vaultCache p)) p,
   mkWorld (backend w)
     (calls w ++ map (fun v => op.ItemsListAllCall (op.VaultOverview.ID v))
                     (List.filter (vaultInScope pre) vs))).
Proof.
  intros Hro. revert results p w.
  induction vs as [|v vs IH]; intros results p w; simpl.
  - rewrite !app_nil_r. unfold cacheAll. simpl. rewrite setCache_same.
    destruct w as [b l]. by destruct stop.
  - rewrite vaultInScope_skip. unfold vaultListed at 1, listedPaths at 1.
    destruct (vaultInScope pre v) eqn:Hv; simpl; [|apply IH].
    unfold clientItemsListAll, logged, itemsListed.
    pose proof (Hro (op.VaultOverview.ID v) (backend w)) as Hsame.
    destruct (op.ItemsListAll (op.VaultOverview.ID v) (backend w)) as [r0 b1].
    simpl in Hsame. subst b1.
    destruct r0 as [[items stop']|err]; simpl; rewrite IH; simpl.
    + rewrite <- !app_assoc. simpl. by destruct stop.
    + rewrite <- !app_assoc. simpl. by destruct stop.
Qed.

(** X16.  List fails only when the enumeration of the vaults fails or
    ends with an error, and then with that error normalised.  Otherwise it
    returns exactly the paths [title/item], those starting with the prefix
    when one is given, of the items that the store lists for the vaults in
    scope of the prefix, each vault listed in the state the store is in
    after the listings of the vaults before it; a vault whose items cannot
    be listed contributes nothing.  When listing items does not change the
    store, the result is these paths vault after vault in the order of the
    enumerations, the vaults whose items were listed are cached, by title and
    by ID, and the backend calls are the vault enumeration and one item
    listing for each vault in scope. *)
Theorem List_results (pre : string) (p : Provider) (w : World B) :
  closed p = false ->
  let b := (op.VaultsListAll (backend w)).2 in
  match (op.VaultsListAll (backend w)).1 with
  | Err err =>
      List_ pre p w =
      (Err (mapErr "List" pre err), p, mkWorld b (calls w ++ [op.VaultsListAllCall]))
  | Ok (vs, stop) =>
      match stop with
      | Some err => (List_ pre p w).1.1 = Err (mapErr "List" pre err)
      | None =>
          exists rs, (List_ pre p w).1.1 = Ok rs /\
                     forall r, In r rs <-> listedIn pre b [] vs r
      end /\
      ((forall id b0, (op.ItemsListAll id b0).2 = b0) ->
       List_ pre p w =
       (match stop with
        | Some err => Err (mapErr "List" pre err)
        | None => Ok (flat_map (listedPaths pre b) vs)
        end,
        setCache (cacheAll (List.filter (vaultListed pre b) vs) (vaultCache p)) p,
        mkWorld b
          (calls w ++ op.VaultsListAllCall ::
             map (fun v => op.ItemsListAllCall (op.VaultOverview.ID v))
                 (List.filter (vaultInScope pre) vs))))
  end.
Proof.
  intros Hopen b. subst b. unfold List_, clientVaultsListAll, logged. rewrite Hopen.
  destruct (op.VaultsListAll (backend w)) as [[[vs stop]|err] b]; simpl; [|done].
  split.
  - pose proof (listLoop_members pre b stop vs [] [] p
                  (mkWorld b (calls w ++ [op.VaultsListAllCall])) eq_refl) as Hloop.
    destruct (listLoop pre vs stop [] p _) as [[[rs|e] p1] w1]; simpl in *.
    + destruct Hloop as [-> Hrs]. exists rs. split; [done|].
      intros r. rewrite Hrs. split; [by intros [[]|Hr]|by right].
    + by destruct Hloop as (err & -> & ->).
  - intros Hro. rewrite (listLoop_exact pre stop vs [] p _ Hro). simpl.
    by rewrite <- app_assoc.
Qed.

End ListFacts.

Lemma Mem_listing_keeps_store (id : string) (b : Mem.t) :
  (op.ItemsListAll id b).2 = b.
Proof.
  simpl. unfold Mem.itemsListAll, Mem.guarded.
  destruct (Mem.faults b _); [done|]. by destruct (find _ _).
Qed.

Lemma List_results_witness :
  closed (newProvider demoConfig) = false /\
  (forall id (b : Mem.t), (op.ItemsListAll id b).2 = b) /\
  List_ "V/I" (newProvider demoConfig) demoWorld =
  (Ok ["V/Item"],
   setCache (<["v1" := "v1"]> (<["V" := "v1"]> ∅)) (newProvider demoConfig),
   mkWorld demoStore [op.VaultsListAllCall; op.ItemsListAllCall "v1"]).
Proof.
  split; [reflexivity|]. split; [exact Mem_listing_keeps_store|].
  pose proof (List_results (B := Mem.t) "V/I" (newProvider demoConfig) demoWorld eq_refl)
    as Hl.
  change (op.VaultsListAll (backend demoWorld))
    with (Mem.vaultsListAll demoStore) in Hl.
  unfold Mem.vaultsListAll, Mem.guarded in Hl. simpl in Hl.
  destruct Hl as [_ Hexact].
  exact (Hexact Mem_listing_keeps_store).
Defined.

(** ** DeleteBatch *)

Section DeleteBatchFacts.
Context {B : Type} `{op.Client B} `{MapRange}.

Lemma deleteBatchLoop_run (paths : list string) (acc : option vault.VaultError)
    (p : Provider) (w : World B) :
  deleteBatchLoop paths acc p w =
  (lastError acc (run (map OpDelete paths) p w).1.1,
   (run (map OpDelete paths) p w).1.2, (run (map OpDelete paths) p w).2).
Proof.
  revert acc p w. induction paths as [|path paths IH]; intros acc p w; simpl; [done|].
  destruct (Delete path p w) as [[e p1] w1].
  specialize (IH (match e with Some err => Some err | None => acc end) p1 w1).
  destruct (run (map OpDelete paths) p1 w1) as [[rs p2] w2]. simpl in *.
  destruct e; exact IH.
Qed.

Lemma lastError_none (rs : list outcome) :
  lastError None rs = None <-> Forall (fun r => forall e, r <> RError (Some e)) rs.
Proof.
  assert (Hsome : forall rs e, lastError (Some e) rs <> None).
  { clear rs. induction rs as [|r rs IH]; intros e; simpl; [done|].
    destruct r as [| [e'|] | | |]; apply IH. }
  induction rs as [|r rs IH]; simpl; [by split|].
  destruct r as [| [e|] | | |]; rewrite ?IH, Forall_cons;
    try (split; [by split|by intros []]).
  split; [intros Hl; by destruct (Hsome rs e)|].
  intros [Hr _]. by destruct (Hr e).
Qed.

(** X17.  DeleteBatch on an open provider is the Deletes of its paths
    one after the other, each attempted whether or not an earlier one
    failed; it returns the error of the last Delete that failed, and
    succeeds exactly when every Delete did. *)
Theorem DeleteBatch_sequential (paths : list string) (p : Provider) (w : World B) :
  closed p = false ->
  let deletes := run (map OpDelete paths) p w in
  DeleteBatch paths p w = (lastError None deletes.1.1, deletes.1.2, deletes.2) /\
  length deletes.1.1 = length paths /\
  ((DeleteBatch paths p w).1.1 = None <->
   Forall (fun r => r = RError None) deletes.1.1).
Proof.
  intros Hopen deletes. subst deletes.
  assert (Hd : DeleteBatch paths p w =
    (lastError None (run (map OpDelete paths) p w).1.1,
     (run (map OpDelete paths) p w).1.2, (run (map OpDelete paths) p w).2))
    by (unfold DeleteBatch; rewrite Hopen; apply deleteBatchLoop_run).
  split; [exact Hd|]. rewrite Hd. simpl.
  assert (Hshape : forall paths p w,
            length (run (map OpDelete paths) p w).1.1 = length paths /\
            Forall (fun r => exists e, r = RError e) (run (map OpDelete paths) p w).1.1).
  { clear. induction paths as [|path paths IH]; intros p w; simpl; [by split|].
    destruct (Delete path p w) as [[e p1] w1].
    destruct (IH p1 w1) as [Hlen Hall].
    destruct (run (map OpDelete paths) p1 w1) as [[rs p2] w2]. simpl in *.
    split; [by rewrite Hlen|]. constructor; eauto. }
  destruct (Hshape paths p w) as [Hlen Hall]. split; [exact Hlen|].
  rewrite lastError_none. rewrite !Forall_forall in *.
  split.
  - intros Hne r Hr. destruct (Hall r Hr) as [[e|] ->]; [|done].
    by destruct (Hne _ Hr e).
  - intros Hok r Hr e ->. by specialize (Hok _ Hr).
Qed.

End DeleteBatchFacts.

Lemma DeleteBatch_sequential_witness :
  closed (newProvider demoConfig) = false /\
  (DeleteBatch ["V/Item"; "V/Item"; "Nowhere/x"] (newProvider demoConfig) demoWorld).1.1 = None.
Proof.
  split; [reflexivity|].
  destruct (DeleteBatch_sequential (B := Mem.t) ["V/Item"; "V/Item"; "Nowhere/x"]
              (newProvider demoConfig) demoWorld eq_refl) as (_ & _ & Hiff).
  apply Hiff. vm_compute. repeat constructor.
Defined.

(** ** The two not-found tests *)

Lemma occursIn_ToLower (pat s : string) :
  occursIn pat (strings.ToLower s) <-> occursIn pat s.
Proof.
  split.
  - intros (pre & mid & post & Hs & Hm).
    apply ToLower_split in Hs as (s1 & s23 & -> & H1 & H23).
    apply ToLower_split in H23 as (s2 & s3 & -> & H2 & H3).
    exists s1, s2, s3. split; [done|]. by rewrite <- Hm, <- H2, ToLower_idem.
  - intros (pre & mid & post & -> & Hm).
    exists (strings.ToLower pre), (strings.ToLower mid), (strings.ToLower post).
    by rewrite !ToLower_app, ToLower_idem.
Qed.

Lemma append_assoc' (a b c : string) : (a ++ b) ++ c = a ++ b ++ c.
Proof.
  induction a as [|x a IH]; [done|].
  change (String x ((a ++ b) ++ c) = String x (a ++ b ++ c)). by rewrite IH.
Qed.

Lemma occursIn_part (pat1 pat2 s : string) :
  occursIn (pat1 ++ pat2) s -> occursIn pat2 s.
Proof.
  intros (pre & mid & post & -> & Hm). rewrite ToLower_app in Hm.
  apply ToLower_split in Hm as (m1 & m2 & -> & H1 & H2).
  exists (pre ++ m1), m2, post. split; [|done].
  by rewrite !append_assoc'.
Qed.

Lemma occursIn_fold (pat1 pat2 s : string) :
  strings.ToLower pat1 = strings.ToLower pat2 -> occursIn pat1 s -> occursIn pat2 s.
Proof. intros Hp (pre & mid & post & -> & Hm). exists pre, mid, post. by rewrite Hm. Qed.

(** X18.  The lightweight not-found test and the normaliser differ.
    A text containing, letter case apart, "itemnotfound", "vaultnotfound",
    "fieldnotfound" or "not found" passes [isNotFoundError], so a text
    containing "not found" passes it even when the normaliser does not
    classify it as NotFound.  For an ASCII text these are the only texts
    that pass it, and every error the normaliser classifies as NotFound
    passes it except those that match only "noMatchingSections". *)
Theorem not_found_tests_compared (operation path : string) (err : error) :
  (occursAny ["itemnotfound"; "vaultnotfound"; "fieldnotfound"; "not found"] (Error err) ->
   isNotFoundError (Some err) = true) /\
  (occursIn "not found" (Error err) -> isNotFoundError (Some err) = true) /\
  (strings.isASCII (Error err) = true ->
   (isNotFoundError (Some err) = true ->
    occursAny ["itemnotfound"; "vaultnotfound"; "fieldnotfound"; "not found"] (Error err)) /\
   (vault.Err (mapErr operation path err) = vault.ErrSecretNotFound ->
    isNotFoundError (Some err) = true \/ occursIn "noMatchingSections" (Error err))).
Proof.
  assert (Hiff : isNotFoundError (Some err) = true <->
     occursAny ["itemnotfound"; "vaultnotfound"; "fieldnotfound"; "not found"] (Error err)).
  { unfold isNotFoundError. rewrite containsAny_spec. unfold occursAny.
    split; intros (pat & Hin & Hocc); exists pat; (split; [done|]);
      by apply occursIn_ToLower. }
  split; [apply Hiff|]. split.
  - intros Hocc. apply Hiff. exists "not found". split; [simpl; tauto|done].
  - intros _. split; [apply Hiff|].
    intros Hnf.
    assert (Hc : containsAny (Error err) notFoundPatterns = true).
    { unfold mapErr in Hnf. destruct (containsAny (Error err) notFoundPatterns); [done|].
      by repeat (destruct (containsAny _ _)). }
    apply containsAny_spec in Hc as (pat & Hin & Hocc).
    simpl in Hin.
    destruct Hin as [<-|[<-|[<-|[<-|[<-|[<-|[]]]]]]].
    + left. apply Hiff. exists "itemnotfound". split; [simpl; tauto|].
      by apply (occursIn_fold "itemNotFound").
    + left. apply Hiff. exists "vaultnotfound". split; [simpl; tauto|].
      by apply (occursIn_fold "vaultNotFound").
    + left. apply Hiff. exists "fieldnotfound". split; [simpl; tauto|].
      by apply (occursIn_fold "fieldNotFound").
    + by right.
    + left. apply Hiff. exists "not found". split; [simpl; tauto|].
      by apply (occursIn_part "item ").
    + left. apply Hiff. exists "not found". split; [simpl; tauto|].
      by apply (occursIn_part "vault ").
Qed.

Lemma not_found_tests_compared_witness :
  (occursIn "not found" "field not found" /\
   isNotFoundError (Some (errorString "field not found")) = true /\
   vault.Err (mapErr "Get" "V/I/f" (errorString "field not found"))
     = vault.Wrapped (errorString "field not found")) /\
  (strings.isASCII "noMatchingSections" = true /\
   vault.Err (mapErr "Get" "V/I/f" (errorString "noMatchingSections"))
     = vault.ErrSecretNotFound /\
   isNotFoundError (Some (errorString "noMatchingSections")) = false /\
   occursIn "noMatchingSections" "noMatchingSections").
Proof.
  assert (Hocc : occursIn "not found" "field not found")
    by (by exists "field ", "not found", "").
  split.
  - split; [exact Hocc|]. split; [|reflexivity].
    exact (proj1 (proj2 (not_found_tests_compared "Get" "V/I/f"
                           (errorString "field not found"))) Hocc).
  - split; [reflexivity|]. split; [reflexivity|]. split; [reflexivity|].
    destruct (proj2 (proj2 (not_found_tests_compared "Get" "V/I/f"
                              (errorString "noMatchingSections"))) eq_refl) as [_ Hcmp].
    destruct (Hcmp eq_refl) as [Hnf|Hsec]; [discriminate Hnf|exact Hsec].
Defined.

(** ** Configuration defaults *)

(** X19.  Applying the defaults fills the integration name, the
    integration version and the category only where they are empty, keeps
    every other setting (so the default vault of the provider is the same),
    leaves name and version non-empty, and is idempotent. *)
Theorem withDefaults_fills_blanks (secureNote : string) (c : Config) :
  let c' := withDefaults secureNote c in
  withDefaults secureNote c' = c' /\
  IntegrationName c' <> "" /\ IntegrationVersion c' <> "" /\
  (secureNote <> "" -> DefaultCategory c' <> "") /\
  (IntegrationName c <> "" -> IntegrationName c' = IntegrationName c) /\
  (IntegrationVersion c <> "" -> IntegrationVersion c' = IntegrationVersion c) /\
  (DefaultCategory c <> "" -> DefaultCategory c' = DefaultCategory c) /\
  (IntegrationName c <> "" -> IntegrationVersion c <> "" -> DefaultCategory c <> "" ->
     c' = c) /\
  ServiceAccountToken c' = ServiceAccountToken c /\
  DefaultVaultID c' = DefaultVaultID c /\ DefaultVaultName c' = DefaultVaultName c /\
  CacheTTL c' = CacheTTL c /\ Logger c' = Logger c /\
  forall cache flag,
    getDefaultVault {| config := c'; vaultCache := cache; closed := flag |} =
    getDefaultVault {| config := c; vaultCache := cache; closed := flag |}.
Proof.
  destruct c as [tok name ver vid vname cat ttl lg]. unfold withDefaults. simpl.
  repeat split; try done; repeat case_decide; simpl; try done;
    repeat case_decide; try done; try congruence.
  all: intros; repeat case_decide; congruence.
Qed.

(** ** Updating one field of an item *)

Lemma setFieldValue_found (target value : string) (fields fields' : list op.ItemField.t) :
  setFieldValue target value fields = Some fields' ->
  exists pre f post,
    fields = (pre ++ f :: post)%list /\ fieldMatches target f = true /\
    (forall g, In g pre -> fieldMatches target g = false) /\
    fields' = (pre ++ withValue value f :: post)%list.
Proof.
  revert fields'. induction fields as [|f fields IH]; intros fields'; simpl; [done|].
  destruct (bool_decide (op.ItemField.Title f = target) ||
            bool_decide (op.ItemField.ID f = target)) eqn:Hf.
  - intros [= <-]. exists [], f, fields. by repeat split.
  - destruct (setFieldValue target value fields) as [rest|]; [|done].
    intros [= <-]. destruct (IH rest eq_refl) as (pre & g & post & -> & Hg & Hpre & ->).
    exists (f :: pre), g, post. repeat split; [done|].
    intros h [<-|Hh]; [exact Hf|by apply Hpre].
Qed.

Lemma setFieldValue_missing (target value : string) (fields : list op.ItemField.t) :
  setFieldValue target value fields = None <->
  forall g, In g fields -> fieldMatches target g = false.
Proof.
  induction fields as [|f fields IH]; simpl; [by split|].
  fold (fieldMatches target f).
  destruct (fieldMatches target f) eqn:Hf.
  - split; [done|]. intros Hall. specialize (Hall f (or_introl eq_refl)). congruence.
  - destruct (setFieldValue target value fields) as [rest|].
    + simpl. split; [done|]. intros Hall.
      assert (Hrest : Some rest = None); [|done].
      apply IH. intros g Hg. apply Hall. by right.
    + simpl. split; [|done]. intros _ g [<-|Hg]; [done|]. by apply IH.
Qed.

Section UpdateItem.
Context {B : Type} `{op.Client B} `{MapRange}.

(** X20.  A field-scoped update of an existing item writes back the item
    it read, with the same ID, title, category, vault and version; its
    tags are replaced only if the record carries tags; of its fields only
    the first one whose title or ID is the target gets the new value, all
    others staying in place, and when no field matches a concealed field
    named as the target is appended. *)
Theorem updateItem_field_scoped (vaultID itemID : string) (parsed : ParsedPath.t)
    (secret : vault.Secret) (w w1 : World B) (item : op.Item.t) :
  ParsedPath.Field parsed <> "" ->
  clientItemsGet vaultID itemID w = (Ok item, w1) ->
  exists item',
    calls (updateItem vaultID itemID parsed secret w).2
      = (calls w1 ++ [op.ItemsPutCall item'])%list /\
    op.Item.ID item' = op.Item.ID item /\ op.Item.Title item' = op.Item.Title item /\
    op.Item.Category item' = op.Item.Category item /\
    op.Item.VaultID item' = op.Item.VaultID item /\
    op.Item.Version item' = op.Item.Version item /\
    op.Item.Tags item' =
      match vault.Tags (vault.Meta secret) with
      | Some tags => tagsToStrings tags
      | None => op.Item.Tags item
      end /\
    ((exists pre f post,
        op.Item.Fields item = (pre ++ f :: post)%list /\
        fieldMatches (ParsedPath.Field parsed) f = true /\
        (forall g, In g pre -> fieldMatches (ParsedPath.Field parsed) g = false) /\
        op.Item.Fields item' = (pre ++ withValue (vault.Value secret) f :: post)%list) \/
     ((forall g, In g (op.Item.Fields item) ->
         fieldMatches (ParsedPath.Field parsed) g = false) /\
      op.Item.Fields item' =
        (op.Item.Fields item ++
         [op.ItemField.mk (sanitizeID (ParsedPath.Field parsed)) (ParsedPath.Field parsed)
            op.ItemFieldTypeConcealed (vault.Value secret) None])%list)).
Proof.
  intros Hfield Hget. unfold updateItem. rewrite Hget.
  rewrite (bool_decide_eq_false_2 _ Hfield). cbn [negb].
  match goal with
  | |- context [clientItemsPut ?it w1] => exists it; set (item' := it)
  end.
  split.
  { unfold clientItemsPut, logged.
    by destruct (op.ItemsPut item' (backend w1)) as [[r|err] b']. }
  subst item'. cbn [op.Item.ID op.Item.Title op.Item.Category op.Item.VaultID
                    op.Item.Version op.Item.Tags op.Item.Fields].
  repeat (split; [done|]).
  destruct (setFieldValue _ _ (op.Item.Fields item)) as [fields'|] eqn:Hset.
  - left. destruct (setFieldValue_found _ _ _ _ Hset) as (pre & f & post & Hf).
    by exists pre, f, post.
  - right. split; [by apply (setFieldValue_missing _ (vault.Value secret))|done].
Qed.

End UpdateItem.

Lemma updateItem_field_scoped_witness :
  ParsedPath.Field (ParsedPath.mk "V" "Item" "" "password") <> "" /\
  clientItemsGet "v1" "i1" demoWorld
    = (Ok demoItem, mkWorld demoStore [op.ItemsGetCall "v1" "i1"]) /\
  exists item',
    last (calls (@updateItem Mem.t _ sortedRange "v1" "i1"
                   (ParsedPath.mk "V" "Item" "" "password") demoSecret demoWorld).2)
      = Some (op.ItemsPutCall item') /\
    op.Item.ID item' = "i1".
Proof.
  split; [discriminate|]. split; [reflexivity|].
  destruct (updateItem_field_scoped (B := Mem.t) "v1" "i1"
              (ParsedPath.mk "V" "Item" "" "password") demoSecret demoWorld
              (mkWorld demoStore [op.ItemsGetCall "v1" "i1"]) demoItem)
    as (item' & Hcalls & Hid & _); [discriminate|reflexivity|].
  exists item'. split; [|exact Hid].
  rewrite Hcalls. apply last_snoc.
Defined.

(** ** An invariant of the cache *)

Section Preserved.
Context {B : Type} `{op.Client B} `{MapRange}.
Variable Inv : Provider -> Prop.
Hypothesis Inv_cache : forall name id p, Inv p -> Inv (cacheVaultID name id p).
Hypothesis Inv_close : forall p, Inv p -> Inv (setClosed true p).

Lemma resolveVaultLoop_preserves (n : string) (vs : list op.VaultOverview.t)
    (stop : option error) (p : Provider) :
  Inv p -> Inv (resolveVaultLoop n vs stop p).2.
Proof.
  revert p. induction vs as [|v vs IH]; intros p Hp; simpl.
  - by destruct stop.
  - destruct (_ || _); simpl; [by apply Inv_cache|]. by apply IH, Inv_cache.
Qed.

Lemma resolveVaultID_preserves (n : string) (p : Provider) (w : World B) :
  Inv p -> Inv (resolveVaultID n p w).1.2.
Proof.
  intros Hp. unfold resolveVaultID. repeat break_let; simpl; try done.
  match goal with
  | E : resolveVaultLoop ?n ?vs ?stop ?p = (_, ?p') |- _ =>
      pose proof (resolveVaultLoop_preserves n vs stop p Hp) as Hx; by rewrite E in Hx
  end.
Qed.

Lemma Get_preserves (path : string) (p : Provider) (w : World B) :
  Inv p -> Inv (Get path p w).1.2.
Proof.
  intros Hp. unfold Get, getItem.
  destruct (closed p); [done|].
  destruct (ParsePath _ _) as [parsed|]; [|done].
  destruct (negb _); [by destruct (resolveField parsed w)|].
  pose proof (resolveVaultID_preserves (ParsedPath.Vault parsed) p w Hp) as Hx.
  destruct (resolveVaultID _ p w) as [[r p1] w1]. simpl in Hx.
  repeat break_let; simpl; done.
Qed.

Lemma Set_preserves (path : string) (secret : vault.Secret) (p : Provider) (w : World B) :
  Inv p -> Inv (Set_ path secret p w).1.2.
Proof.
  intros Hp. unfold Set_.
  destruct (closed p); [done|].
  destruct (ParsePath _ _) as [parsed|]; [|done].
  pose proof (resolveVaultID_preserves (ParsedPath.Vault parsed) p w Hp) as Hx.
  destruct (resolveVaultID _ p w) as [[r p1] w1]. simpl in Hx.
  repeat break_let; simpl; done.
Qed.

Lemma Delete_preserves (path : string) (p : Provider) (w : World B) :
  Inv p -> Inv (Delete path p w).1.2.
Proof.
  intros Hp. unfold Delete.
  destruct (closed p); [done|].
  destruct (ParsePath _ _) as [parsed|]; [|done].
  pose proof (resolveVaultID_preserves (ParsedPath.Vault parsed) p w Hp) as Hx.
  destruct (resolveVaultID _ p w) as [[r p1] w1]. simpl in Hx.
  repeat break_let; simpl; done.
Qed.

Lemma Exists_preserves (path : string) (p : Provider) (w : World B) :
  Inv p -> Inv (Exists path p w).1.2.
Proof.
  intros Hp. unfold Exists.
  destruct (closed p); [done|].
  destruct (ParsePath _ _) as [parsed|]; [|done].
  pose proof (resolveVaultID_preserves (ParsedPath.Vault parsed) p w Hp) as Hx.
  destruct (resolveVaultID _ p w) as [[r p1] w1]. simpl in Hx.
  repeat break_let; simpl; done.
Qed.

Lemma listLoop_preserves (pre : string) (vs : list op.VaultOverview.t)
    (stop : option error) (results : list string) (p : Provider) (w : World B) :
  Inv p -> Inv (listLoop pre vs stop results p w).1.2.
Proof.
  revert results p w. induction vs as [|v vs IH]; intros results p w Hp; simpl.
  - by destruct stop.
  - destruct (_ && _); [by apply IH|].
    destruct (clientItemsListAll _ w) as [[[items stop']|err] w1]; [|by apply IH].
    by apply IH, Inv_cache.
Qed.

Lemma List_preserves (pre : string) (p : Provider) (w : World B) :
  Inv p -> Inv (List_ pre p w).1.2.
Proof.
  intros Hp. unfold List_.
  destruct (closed p); [done|].
  destruct (clientVaultsListAll w) as [[[vs stop]|err] w1]; [|done].
  by apply listLoop_preserves.
Qed.

Lemma getBatchLoop_preserves (paths : list string) (results : gmap string vault.Secret)
    (p : Provider) (w : World B) :
  Inv p -> Inv (getBatchLoop paths results p w).1.2.
Proof.
  revert results p w. induction paths as [|path paths IH]; intros results p w Hp; simpl.
  - done.
  - pose proof (Get_preserves path p w Hp) as Hx.
    destruct (Get path p w) as [[r p1] w1]. simpl in Hx.
    destruct r; by apply IH.
Qed.

Lemma step_preserves (o : operation) (p : Provider) (w : World B) :
  Inv p -> Inv (step o p w).1.2.
Proof.
  intros Hp. destruct o as [path|path secret|path|path|pre|paths|]; simpl.
  - pose proof (Get_preserves path p w Hp). by destruct (Get path p w) as [[? ?] ?].
  - pose proof (Set_preserves path secret p w Hp).
    by destruct (Set_ path secret p w) as [[? ?] ?].
  - pose proof (Delete_preserves path p w Hp). by destruct (Delete path p w) as [[? ?] ?].
  - pose proof (Exists_preserves path p w Hp). by destruct (Exists path p w) as [[? ?] ?].
  - pose proof (List_preserves pre p w Hp). by destruct (List_ pre p w) as [[? ?] ?].
  - assert (Hx : Inv (GetBatch paths p w).1.2).
    { unfold GetBatch. destruct (closed p); [done|].
      destruct paths as [|q paths]; [done|].
      pose proof (getBatchLoop_preserves (q :: paths) ∅ p w Hp).
      by destruct (getBatchLoop _ _ p w) as [[? ?] ?]. }
    by destruct (GetBatch paths p w) as [[? ?] ?].
  - by apply Inv_close.
Qed.

Lemma run_preserves (ops : list operation) (p : Provider) (w : World B) :
  Inv p -> Inv (run ops p w).1.2.
Proof.
  revert p w. induction ops as [|o ops IH]; intros p w Hp; simpl; [done|].
  pose proof (step_preserves o p w Hp) as Hs.
  destruct (step o p w) as [[r p1] w1]. simpl in Hs.
  specialize (IH p1 w1 Hs). by destruct (run ops p1 w1) as [[rs p2] w2].
Qed.

End Preserved.

Lemma cacheClosed_cacheVaultID (name id : string) (p : Provider) :
  cacheClosed (vaultCache p) -> cacheClosed (vaultCache (cacheVaultID name id p)).
Proof.
  intros Hc k v. simpl. rewrite !lookup_insert.
  repeat case_decide; subst; intros Hk; simplify_eq; eauto.
  all: try (destruct (Hc _ _ Hk) as [x Hx]; eauto).
Qed.

Section CacheInvariant.
Context {B : Type} `{op.Client B} `{MapRange}.

(** X21.  Every identifier the vault cache gives is itself cached: this
    holds for the empty cache of a new provider and is kept by every
    operation.  Hence feeding an identifier obtained from the cache back to
    the vault resolution is answered from the cache, with no backend
    call. *)
Theorem cache_values_are_keys :
  (forall c, cacheClosed (vaultCache (newProvider c))) /\
  (forall ops p (w : World B),
     cacheClosed (vaultCache p) -> cacheClosed (vaultCache (run ops p w).1.2)) /\
  (forall n id p (w : World B),
     cacheClosed (vaultCache p) -> vaultCache p !! n = Some id -> id <> "" ->
     exists id', resolveVaultID id p w = (Ok id', p, w)).
Proof.
  split; [intros c k v Hk; simpl in Hk; by rewrite lookup_empty in Hk|]. split.
  - intros ops p w Hc.
    apply (run_preserves (fun p => cacheClosed (vaultCache p))); [|done|done].
    intros name id q. apply cacheClosed_cacheVaultID.
  - intros n id p w Hc Hn Hid. destruct (Hc _ _ Hn) as [id' Hid'].
    exists id'. unfold resolveVaultID. by rewrite decide_False, Hid'.
Qed.

End CacheInvariant.

(** ** Reference URIs that do not parse *)

(** X22.  A reference URI parses exactly when its part before the first
    question mark has two, three or four non-empty segments; the default
    vault never completes it: [op://item] fails even when a default vault is
    configured. *)
Theorem ParsePath_reference_failure (body defaultVault : string) :
  let n := length (filterNonEmpty
                     (strings.Split (hd "" (strings.Split body "?"%char)) slash)) in
  ((exists err, ParsePath ("op://" ++ body) defaultVault = Err err) <->
   (n < 2 \/ 4 < n)%nat) /\
  (forall err, ParsePath ("op://" ++ body) defaultVault = Err err ->
     err = vault.ErrInvalidPathf "invalid secret reference format").
Proof.
  intros n. subst n. rewrite ParsePath_reference.
  destruct (filterNonEmpty _) as [|a [|b [|c [|e [|f l]]]]]; simpl.
  - split; [split; [intros _; lia|eauto]|by intros err [= <-]].
  - split; [split; [intros _; lia|eauto]|by intros err [= <-]].
  - split; [|done]. split; [by intros [err ?]|lia].
  - split; [|done]. split; [by intros [err ?]|lia].
  - split; [|done]. split; [by intros [err ?]|lia].
  - split; [split; [intros _; lia|eauto]|by intros err [= <-]].
Qed.

(** ** Delete and Exists look at the vault and the item only *)

Lemma rePath_mapErr (operation path1 path2 : string) (err : error) :
  rePath path1 (mapErr operation path2 err) = mapErr operation path1 err.
Proof. unfold mapErr, rePath. by repeat (destruct (containsAny _ _)). Qed.

Section IgnoresField.
Context {B : Type} `{op.Client B}.

(** X23.  Delete and Exists use the vault and the item of a path only:
    two paths that parse to the same vault and item, whatever their sections
    and fields, are deleted (and tested) with the same backend calls, the
    same final state and the same result, the path reported in an error
    apart.  So deleting [C/I/F] deletes the whole item [I] of [C], as
    deleting [op://C/I] does. *)
Theorem Delete_ignores_field (path1 path2 : string) (q1 q2 : ParsedPath.t)
    (p : Provider) (w : World B) :
  closed p = false ->
  ParsePath path1 (getDefaultVault p) = Ok q1 ->
  ParsePath path2 (getDefaultVault p) = Ok q2 ->
  ParsedPath.Vault q1 = ParsedPath.Vault q2 -> ParsedPath.Item q1 = ParsedPath.Item q2 ->
  (Delete path1 p w).1.1 = option_map (rePath path1) (Delete path2 p w).1.1 /\
  (Delete path1 p w).1.2 = (Delete path2 p w).1.2 /\
  (Delete path1 p w).2 = (Delete path2 p w).2 /\
  (Exists path1 p w).1.1 =
    match (Exists path2 p w).1.1 with
    | Ok b => Ok b
    | Err e => Err (rePath path1 e)
    end /\
  (Exists path1 p w).1.2 = (Exists path2 p w).1.2 /\
  (Exists path1 p w).2 = (Exists path2 p w).2.
Proof.
  intros Hopen H1 H2 Hv Hi. unfold Delete, Exists.
  rewrite Hopen, H1, H2, Hv, Hi.
  destruct (resolveVaultID _ p w) as [[[vaultID|err] p1] w1]; simpl.
  - destruct (resolveItemID _ _ w1) as [[itemID|err] w2]; simpl.
    + destruct (clientItemsDelete vaultID itemID w2) as [[err|] w3]; simpl; [|done].
      destruct (isNotFoundError _); simpl; [done|]. by rewrite rePath_mapErr.
    + destruct (isNotFoundError _); simpl; [done|]. by rewrite !rePath_mapErr.
  - destruct (isNotFoundError _); simpl; [done|]. by rewrite !rePath_mapErr.
Qed.

End IgnoresField.

Lemma Delete_ignores_field_witness :
  closed (newProvider demoConfig) = false /\
  ParsePath "V/Item/password" (getDefaultVault (newProvider demoConfig))
    = Ok (ParsedPath.mk "V" "Item" "" "password") /\
  ParsePath "op://V/Item" (getDefaultVault (newProvider demoConfig))
    = Ok (ParsedPath.mk "V" "Item" "" "") /\
  (Delete "V/Item/password" (newProvider demoConfig) demoWorld).2
    = (Delete "op://V/Item" (newProvider demoConfig) demoWorld).2 /\
  last (calls (Delete "V/Item/password" (newProvider demoConfig) demoWorld).2)
    = Some (op.ItemsDeleteCall "v1" "i1").
Proof.
  split; [reflexivity|]. split; [reflexivity|]. split; [reflexivity|].
  destruct (Delete_ignores_field (B := Mem.t) "V/Item/password" "op://V/Item"
              (ParsedPath.mk "V" "Item" "" "password") (ParsedPath.mk "V" "Item" "" "")
              (newProvider demoConfig) demoWorld eq_refl eq_refl eq_refl eq_refl eq_refl)
    as (_ & _ & Hw & _).
  split; [exact Hw|reflexivity].
Defined.

(** ** SetBatch *)

Section SetBatchFacts.
Context {B : Type} `{op.Client B} `{MapRange} `{SecretRange}.

Lemma setBatchLoop_run (entries : list (string * vault.Secret))
    (acc : option vault.VaultError) (p : Provider) (w : World B) :
  let sets := run (map (fun entry => OpSet entry.1 entry.2) entries) p w in
  setBatchLoop entries acc p w = (lastError acc sets.1.1, sets.1.2, sets.2).
Proof.
  revert acc p w. induction entries as [|entry entries IH]; intros acc p w; simpl; [done|].
  destruct (Set_ entry.1 entry.2 p w) as [[e p1] w1].
  specialize (IH (match e with Some err => Some err | None => acc end) p1 w1).
  destruct (run (map _ entries) p1 w1) as [[rs p2] w2]. simpl in *.
  destruct e; exact IH.
Qed.

Lemma run_sets_shape (entries : list (string * vault.Secret)) (p : Provider) (w : World B) :
  let sets := run (map (fun entry => OpSet entry.1 entry.2) entries) p w in
  length sets.1.1 = length entries /\
  Forall (fun r => exists e, r = RError e) sets.1.1.
Proof.
  revert p w. induction entries as [|entry entries IH]; intros p w; simpl; [by split|].
  destruct (Set_ entry.1 entry.2 p w) as [[e p1] w1].
  destruct (IH p1 w1) as [Hlen Hall].
  destruct (run (map _ entries) p1 w1) as [[rs p2] w2]. simpl in *.
  split; [by rewrite Hlen|]. constructor; eauto.
Qed.

(** X24.  SetBatch on a closed provider answers the Closed error and
    does nothing.  On an open provider it is the Sets of the entries of the
    map one after the other, in the order in which the map is enumerated,
    each attempted whether or not an earlier one failed: one Set for each
    entry; it returns the error of the last Set that failed, and succeeds
    exactly when every Set did. *)
Theorem SetBatch_sequential (secrets : gmap string vault.Secret)
    (p : Provider) (w : World B) :
  (closed p = true ->
   SetBatch secrets p w =
   (Some (vault.NewVaultError "SetBatch" "" ProviderName vault.ErrClosed), p, w)) /\
  (closed p = false ->
   let entries := secretOrder secrets in
   let sets := run (map (fun entry => OpSet entry.1 entry.2) entries) p w in
   SetBatch secrets p w = (lastError None sets.1.1, sets.1.2, sets.2) /\
   entries ≡ₚ map_to_list secrets /\
   length sets.1.1 = size secrets /\
   ((SetBatch secrets p w).1.1 = None <->
    Forall (fun r => r = RError None) sets.1.1)).
Proof.
  split; [intros Hc; unfold SetBatch; by rewrite Hc|].
  intros Hopen entries sets. subst entries sets.
  assert (Hs : SetBatch secrets p w =
    (lastError None (run (map (fun entry => OpSet entry.1 entry.2) (secretOrder secrets)) p w).1.1,
     (run (map (fun entry => OpSet entry.1 entry.2) (secretOrder secrets)) p w).1.2,
     (run (map (fun entry => OpSet entry.1 entry.2) (secretOrder secrets)) p w).2))
    by (unfold SetBatch; rewrite Hopen; apply setBatchLoop_run).
  split; [exact Hs|]. split; [apply secretOrder_perm|].
  destruct (run_sets_shape (secretOrder secrets) p w) as [Hlen Hall].
  split.
  { rewrite Hlen, secretOrder_perm. apply length_map_to_list. }
  rewrite Hs. simpl. rewrite lastError_none. rewrite !Forall_forall in *.
  split.
  - intros Hne r Hr. destruct (Hall r Hr) as [[e|] ->]; [|done].
    by destruct (Hne _ Hr e).
  - intros Hok r Hr e ->. by specialize (Hok _ Hr).
Qed.

End SetBatchFacts.

Lemma SetBatch_sequential_witness :
  closed (newProvider demoConfig) = false /\
  (SetBatch {["V/Item" := demoSecret]} (newProvider demoConfig) demoWorld).1.1 = None.
Proof.
  split; [reflexivity|].
  destruct (SetBatch_sequential (B := Mem.t) {["V/Item" := demoSecret]}
              (newProvider demoConfig) demoWorld) as [_ Hopen].
  destruct (Hopen eq_refl) as (_ & _ & _ & Hiff).
  apply Hiff. vm_compute. repeat constructor.
Defined.
